(** * The Redis cache layer of the task tracker (src/lib/redis.ts, src/lib/cache.ts)

    A shallow embedding of the cache policy layer, the session registry and
    the rate limiter, over an explicit model of the key-value store they
    talk to.  Asynchronous functions are state-passing computations that
    either return or throw; [try]/[catch] is a combinator of that monad. *)

From Stdlib Require Import ZArith String Ascii List Lia DecimalString DecimalZ.
From stdpp Require Import gmap strings list fin_maps.

Local Open Scope string_scope.
Local Open Scope Z_scope.

(** ** JavaScript values handed to the cache ([userData: any], [task: any]) *)

(** The projections cached by the handlers are plain objects whose fields
    are strings, null and, for [createdAt], [Date] objects.  Numbers are
    restricted to integers; a [Date] is represented by its ISO-8601 text
    (what [toISOString] returns).  An object is its list of own enumerable
    properties in enumeration order. *)
#[local] Unset Elimination Schemes.
Inductive jsval : Type :=
| JUndefined
| JNull
| JBool (b : bool)
| JNum (n : Z)
| JStr (s : string)
| JDate (iso : string)
| JArr (items : list jsval)
| JObj (props : list (string * jsval)).
#[local] Set Elimination Schemes.

(** The two methods of the global [JSON] object that cache.ts calls.
    [JSON.stringify] returns [undefined] (here [None]) for [undefined];
    [JSON.parse] throws a [SyntaxError] (here [None]) on a malformed text. *)
Class JSON := {
  JSON_stringify : jsval -> option string;
  JSON_parse : string -> option jsval
}.

(** ** Outcomes and worlds *)

Inductive error : Type :=
| ClientClosedError            (* a command was issued on a client that is not open *)
| ConnectionError              (* the server could not be reached, or the call was cut *)
| ReplyError (msg : string)    (* the server answered with an error reply *)
| TypeError                    (* an argument that is neither string nor number *)
| SyntaxError.                 (* JSON.parse *)

Inductive outcome (A : Type) : Type :=
| Returned (a : A)
| Thrown (e : error).
Arguments Returned {A} a.
Arguments Thrown {A} e.

(** A stored value with its optional absolute expiry time, in seconds. *)
Abbreviation entry := (string * option Z)%type (only parsing).

Record World : Type := mkWorld {
  isConnected : bool;           (* redis.ts: [let isConnected = false] *)
  isOpen : bool;                (* [redisClient.isOpen] *)
  db : gmap string entry;       (* the keyspace of the server *)
  now : Z;                      (* the server clock, in seconds *)
  faults : nat -> bool;         (* which round trips never reach the server *)
  tick : nat;                   (* round trips attempted so far *)
  rejected : nat;               (* client calls that have rejected so far *)
  stderr : list string;         (* what [console.error] has printed *)
  server_info : string;         (* the text the server reports for INFO *)
  lost : nat -> bool            (* which round trips lose the reply of the server *)
}.

Definition set_isConnected (b : bool) (w : World) : World :=
  mkWorld b (isOpen w) (db w) (now w) (faults w) (tick w) (rejected w) (stderr w) (server_info w) (lost w).
Definition set_isOpen (b : bool) (w : World) : World :=
  mkWorld (isConnected w) b (db w) (now w) (faults w) (tick w) (rejected w) (stderr w) (server_info w) (lost w).
Definition set_db (m : gmap string entry) (w : World) : World :=
  mkWorld (isConnected w) (isOpen w) m (now w) (faults w) (tick w) (rejected w) (stderr w) (server_info w) (lost w).
Definition set_now (t : Z) (w : World) : World :=
  mkWorld (isConnected w) (isOpen w) (db w) t (faults w) (tick w) (rejected w) (stderr w) (server_info w) (lost w).
Definition next_tick (w : World) : World :=
  mkWorld (isConnected w) (isOpen w) (db w) (now w) (faults w) (S (tick w)) (rejected w) (stderr w) (server_info w) (lost w).
Definition print_error (line : string) (w : World) : World :=
  mkWorld (isConnected w) (isOpen w) (db w) (now w) (faults w) (tick w)
          (rejected w) (stderr w ++ [line]) (server_info w) (lost w).
Definition count_rejection (w : World) : World :=
  mkWorld (isConnected w) (isOpen w) (db w) (now w) (faults w) (tick w)
          (S (rejected w)) (stderr w) (server_info w) (lost w).

(** Time passing between two requests. *)
Definition elapse (seconds : Z) (w : World) : World := set_now (now w + seconds) w.

(** ** The monad of asynchronous computations *)

Definition M (A : Type) : Type := World -> outcome A * World.

Definition ret {A} (a : A) : M A := fun w => (Returned a, w).
Definition throw {A} (e : error) : M A := fun w => (Thrown e, w).
Definition bind {A B} (m : M A) (k : A -> M B) : M B := fun w =>
  match m w with
  | (Returned a, w') => k a w'
  | (Thrown e, w') => (Thrown e, w')
  end.
Definition try_catch {A} (body : M A) (handler : error -> M A) : M A := fun w =>
  match body w with
  | (Returned a, w') => (Returned a, w')
  | (Thrown e, w') => handler e w'
  end.

Notation "'await' x <- m 'in' k" := (bind m (fun x => k))
  (at level 10, x name, m at level 100, k at level 200).
Notation "'perform' m 'in' k" := (bind m (fun _ => k))
  (at level 10, m at level 100, k at level 200).

(** A call on the client rejects. *)
Definition reject {A} (e : error) : M A := fun w => (Thrown e, count_rejection w).

Definition console_error (label : string) (e : error) : M unit :=
  fun w => (Returned tt, print_error label w).

(** [Promise.all([p, q])]: both calls have been issued before anything is
    awaited, so the second runs whatever the first does; the result rejects
    with the first rejection. *)
Definition promise_all2 {A B} (p : M A) (q : M B) : M (A * B) := fun w =>
  let (ra, w1) := p w in
  let (rb, w2) := q w1 in
  match ra, rb with
  | Returned a, Returned b => (Returned (a, b), w2)
  | Thrown e, _ => (Thrown e, w2)
  | _, Thrown e => (Thrown e, w2)
  end.

(** ** Decimal integers, as the server stores counters *)

Definition string_of_Z (n : Z) : string := NilZero.string_of_int (Z.to_int n).

(** The server accepts only the canonical text of an integer (no sign [+],
    no leading zeros, no spaces). *)
Definition Z_of_string (s : string) : option Z :=
  match NilZero.int_of_string s with
  | Some d => let n := Z.of_int d in
              if String.eqb (string_of_Z n) s then Some n else None
  | None => None
  end.

(** ** The server: keys with expiry *)

Definition expired (deadline : option Z) (t : Z) : bool :=
  match deadline with
  | Some d => d <=? t
  | None => false
  end.

(** What a command sees at a key: entries past their deadline are gone. *)
Definition live (w : World) (k : string) : option entry :=
  match db w !! k with
  | Some (v, d) => if expired d (now w) then None else Some (v, d)
  | None => None
  end.

Definition is_live (w : World) (k : string) : bool :=
  match live w k with Some _ => true | None => false end.

(** ** Glob patterns of the KEYS command *)

Definition in_range (lo hi c : ascii) : bool :=
  let a := N_of_ascii lo in
  let b := N_of_ascii hi in
  let x := N_of_ascii c in
  ((N.min a b <=? x) && (x <=? N.max a b))%N.

(** [glob p s]: does the key [s] match the pattern [p]?  [*] matches any
    run of characters, [?] one character, [[...]] one character of a class
    (with [^] negation, [a-z] ranges and escapes), and a backslash
    makes the next character literal.  [glob_class] scans a class for the
    character [c] already taken off the key. *)
Fixpoint glob (p : string) (s : string) {struct p} : bool :=
  match p with
  | EmptyString =>
      match s with EmptyString => true | String _ _ => false end
  | String "*" p' =>
      (fix star (t : string) : bool :=
         glob p' t ||
         match t with
         | EmptyString => false
         | String _ t' => star t'
         end) s
  | String "?" p' =>
      match s with EmptyString => false | String _ s' => glob p' s' end
  | String "[" (String "^" p') =>
      match s with EmptyString => false | String c s' => glob_class p' true false c s' end
  | String "[" p' =>
      match s with EmptyString => false | String c s' => glob_class p' false false c s' end
  | String "\" (String x p') =>
      match s with
      | EmptyString => false
      | String c s' => Ascii.eqb x c && glob p' s'
      end
  | String x p' =>
      match s with
      | EmptyString => false
      | String c s' => Ascii.eqb x c && glob p' s'
      end
  end
with glob_class (p : string) (negate matched : bool) (c : ascii) (s' : string)
       {struct p} : bool :=
  match p with
  | EmptyString =>
      xorb negate matched && match s' with EmptyString => true | String _ _ => false end
  | String "\" (String x p') =>
      glob_class p' negate (matched || Ascii.eqb x c) c s'
  | String "]" p' => xorb negate matched && glob p' s'
  | String lo (String "-" (String hi p')) =>
      glob_class p' negate (matched || in_range lo hi c) c s'
  | String x p' => glob_class p' negate (matched || Ascii.eqb x c) c s'
  end.

(** ** The client: commands of [redisClient] *)

(** One round trip.  A client that is not open rejects at once.  Otherwise
    the call fails in one of two ways, or goes through: when it is cut on
    the way to the server it rejects and has no effect on the keyspace;
    when the reply is lost on the way back the server has run the command,
    and the call rejects all the same. *)
Definition send {A} (cmd : M A) : M A := fun w =>
  if isOpen w then
    if faults w (tick w) then reject ConnectionError (next_tick w)
    else if lost w (tick w) then reject ConnectionError (snd (cmd (next_tick w)))
    else cmd (next_tick w)
  else reject ClientClosedError w.

(** [redisClient.connect()] *)
Definition redis_connect : M unit := fun w =>
  if isOpen w then reject (ReplyError "Socket already opened") w
  else if faults w (tick w) then reject ConnectionError (next_tick w)
  else (Returned tt, set_isOpen true (next_tick w)).

Definition redis_get (key : string) : M (option string) :=
  send (fun w => (Returned (fst <$> live w key), w)).

(** [setEx(key, seconds, value)]; the value comes from [JSON.stringify] and
    may be [undefined], which the client refuses to encode. *)
Definition redis_setEx (key : string) (seconds : Z) (value : option string) : M unit :=
  match value with
  | None => reject TypeError
  | Some v =>
      send (fun w =>
        if seconds <=? 0 then reject (ReplyError "ERR invalid expire time in 'setex' command") w
        else (Returned tt, set_db (<[key := (v, Some (now w + seconds))]> (db w)) w))
  end.

Definition count_live (w : World) (keys : list string) : Z :=
  Z.of_nat (length (filter (fun k => is_live w k = true) keys)).

Definition redis_del (keys : list string) : M Z :=
  send (fun w =>
    (Returned (count_live w keys), set_db (foldr delete (db w) keys) w)).

Definition redis_exists (key : string) : M Z :=
  send (fun w => (Returned (if is_live w key then 1 else 0), w)).

Definition redis_keys (pattern : string) : M (list string) :=
  send (fun w =>
    (Returned (filter (fun k => glob pattern k = true /\ is_live w k = true)
                      (map fst (map_to_list (db w)))), w)).

Definition int64_max : Z := 9223372036854775807.
Definition int64_min : Z := -9223372036854775808.

Definition redis_incr (key : string) : M Z :=
  send (fun w =>
    match live w key with
    | None => (Returned 1, set_db (<[key := (string_of_Z 1, None)]> (db w)) w)
    | Some (v, d) =>
        match Z_of_string v with
        | Some n =>
            if (int64_min <=? n) && (n <? int64_max)
            then (Returned (n + 1), set_db (<[key := (string_of_Z (n + 1), d)]> (db w)) w)
            else reject (ReplyError "ERR increment or decrement would overflow") w
        | None => reject (ReplyError "ERR value is not an integer or out of range") w
        end
    end).

Definition redis_expire (key : string) (seconds : Z) : M Z :=
  send (fun w =>
    match live w key with
    | None => (Returned 0, w)
    | Some (v, _) =>
        if seconds <=? 0 then (Returned 1, set_db (delete key (db w)) w)
        else (Returned 1, set_db (<[key := (v, Some (now w + seconds))]> (db w)) w)
    end).

Definition redis_info (section : string) : M string :=
  send (fun w => (Returned (server_info w), w)).

Definition redis_dbSize : M Z :=
  send (fun w =>
    (Returned (count_live w (map fst (map_to_list (db w)))), w)).

(** ** src/lib/redis.ts *)

(** [connectRedis] returns the client handle, which carries no information
    here; a rejected [connect] is caught and logged inside. *)
Definition connectRedis : M unit := fun w =>
  if negb (isConnected w) && negb (isOpen w) then
    try_catch
      (perform redis_connect in
       fun w' => (Returned tt, set_isConnected true w'))
      (fun error => console_error "Failed to connect to Redis:" error) w
  else ret tt w.

(** ** src/lib/cache.ts *)

Module CACHE_TTL.
Definition USER : Z := 3600.
Definition TASKS : Z := 300.
Definition TASK : Z := 600.
Definition SESSION : Z := 7 * 24 * 60 * 60.
End CACHE_TTL.

Definition ensureConnection : M bool :=
  try_catch
    (perform connectRedis in ret true)
    (fun error => perform console_error "Redis connection error:" error in ret false).

Definition user_key (userId : string) : string := "user:" +:+ userId.
Definition tasks_key (userId : string) : string := "tasks:" +:+ userId.
Definition task_key (taskId : string) : string := "task:" +:+ taskId.
Definition session_key (userId tokenId : string) : string :=
  "session:" +:+ userId +:+ ":" +:+ tokenId.
Definition ratelimit_key (userId endpoint : string) : string :=
  "ratelimit:" +:+ userId +:+ ":" +:+ endpoint.

(** [cached ? JSON.parse(cached) : null]: null and the empty string are
    falsy. *)
Definition parse_if_truthy `{JSON} (cached : option string) : M jsval :=
  match cached with
  | None => ret JNull
  | Some EmptyString => ret JNull
  | Some text =>
      match JSON_parse text with
      | Some v => ret v
      | None => throw SyntaxError
      end
  end.

Section Cache.
Context `{JSON}.

Definition getCachedUser (userId : string) : M jsval :=
  try_catch
    (await ok <- ensureConnection in
     if negb ok then ret JNull else
     await cached <- redis_get (user_key userId) in
     parse_if_truthy cached)
    (fun error => perform console_error "Cache get error:" error in ret JNull).

Definition setCachedUser (userId : string) (userData : jsval) : M unit :=
  try_catch
    (await ok <- ensureConnection in
     if negb ok then ret tt else
     redis_setEx (user_key userId) CACHE_TTL.USER (JSON_stringify userData))
    (fun error => console_error "Cache set error:" error).

Definition invalidateUserCache (userId : string) : M unit :=
  try_catch
    (await ok <- ensureConnection in
     if negb ok then ret tt else
     perform redis_del [user_key userId] in ret tt)
    (fun error => console_error "Cache invalidation error:" error).

Definition getCachedTasks (userId : string) : M jsval :=
  try_catch
    (await ok <- ensureConnection in
     if negb ok then ret JNull else
     await cached <- redis_get (tasks_key userId) in
     parse_if_truthy cached)
    (fun error => perform console_error "Cache get error:" error in ret JNull).

Definition setCachedTasks (userId : string) (tasks : jsval) : M unit :=
  try_catch
    (await ok <- ensureConnection in
     if negb ok then ret tt else
     redis_setEx (tasks_key userId) CACHE_TTL.TASKS (JSON_stringify tasks))
    (fun error => console_error "Cache set error:" error).

Definition invalidateTasksCache (userId : string) : M unit :=
  try_catch
    (await ok <- ensureConnection in
     if negb ok then ret tt else
     perform redis_del [tasks_key userId] in ret tt)
    (fun error => console_error "Cache invalidation error:" error).

Definition getCachedTask (taskId : string) : M jsval :=
  try_catch
    (await ok <- ensureConnection in
     if negb ok then ret JNull else
     await cached <- redis_get (task_key taskId) in
     parse_if_truthy cached)
    (fun error => perform console_error "Cache get error:" error in ret JNull).

Definition setCachedTask (taskId : string) (task : jsval) : M unit :=
  try_catch
    (await ok <- ensureConnection in
     if negb ok then ret tt else
     redis_setEx (task_key taskId) CACHE_TTL.TASK (JSON_stringify task))
    (fun error => console_error "Cache set error:" error).

Definition invalidateTaskCache (taskId userId : string) : M unit :=
  try_catch
    (await ok <- ensureConnection in
     if negb ok then ret tt else
     perform promise_all2 (redis_del [task_key taskId])
                          (redis_del [tasks_key userId]) in
     ret tt)
    (fun error => console_error "Cache invalidation error:" error).

End Cache.

(** *** Session management *)

Definition storeSession (userId tokenId token : string) : M unit :=
  try_catch
    (await ok <- ensureConnection in
     if negb ok then ret tt else
     redis_setEx (session_key userId tokenId) CACHE_TTL.SESSION (Some token))
    (fun error => console_error "Session store error:" error).

Definition validateSession (userId tokenId : string) : M bool :=
  try_catch
    (await ok <- ensureConnection in
     if negb ok then ret true else
     await exists_ <- redis_exists (session_key userId tokenId) in
     ret (exists_ =? 1))
    (fun error => perform console_error "Session validation error:" error in ret true).

Definition revokeSession (userId tokenId : string) : M unit :=
  try_catch
    (await ok <- ensureConnection in
     if negb ok then ret tt else
     perform redis_del [session_key userId tokenId] in ret tt)
    (fun error => console_error "Session revocation error:" error).

Definition revokeAllUserSessions (userId : string) : M unit :=
  try_catch
    (await ok <- ensureConnection in
     if negb ok then ret tt else
     await keys <- redis_keys ("session:" +:+ userId +:+ ":*") in
     if (0 <? Z.of_nat (length keys))
     then perform redis_del keys in ret tt
     else ret tt)
    (fun error => console_error "Session revocation error:" error).

(** *** Rate limiting *)

Record RateLimit : Type := mkRateLimit { allowed : bool; remaining : Z }.

(** The JavaScript number nearest to an integer.  Integers up to 2^53 in
    absolute value are numbers themselves; a larger one is rounded to 53
    significant bits, ties to even.  (The integers that occur below are far
    from the range where a number overflows.) *)
Definition Number_of_Z (n : Z) : Z :=
  let a := Z.abs n in
  if a <=? 2 ^ 53 then n
  else
    let e := Z.log2 a - 52 in
    let q := Z.shiftr a e in
    let r := a - Z.shiftl q e in
    let half := Z.shiftl 1 (e - 1) in
    let q' := if r <? half then q
              else if half <? r then q + 1
              else if Z.even q then q else q + 1 in
    Z.sgn n * Z.shiftl q' e.

(** [maxRequests] is a number with an integer value.  The client hands the
    reply of INCR to the caller as a number, and [maxRequests - current] is
    a subtraction of numbers. *)
Definition checkRateLimit (userId endpoint : string) (maxRequests : Z) : M RateLimit :=
  try_catch
    (await ok <- ensureConnection in
     if negb ok then ret (mkRateLimit true maxRequests) else
     let key := ratelimit_key userId endpoint in
     await reply <- redis_incr key in
     let current := Number_of_Z reply in
     perform (if current =? 1 then perform redis_expire key 60 in ret tt else ret tt) in
     ret (mkRateLimit (current <=? maxRequests)
                      (Z.max 0 (Number_of_Z (maxRequests - current)))))
    (fun error =>
       perform console_error "Rate limit error:" error in
       ret (mkRateLimit true maxRequests)).

(** *** Cache statistics *)

Record CacheStats : Type := mkCacheStats {
  connected : bool;
  dbSize : option Z;
  info : option string;
  error_text : option string
}.

(** [String(error)] *)
Definition String_of_error (e : error) : string :=
  match e with
  | ClientClosedError => "Error: The client is closed"
  | ConnectionError => "Error: Connection failed"
  | ReplyError msg => "Error: " +:+ msg
  | TypeError => "TypeError: Invalid argument type"
  | SyntaxError => "SyntaxError: Unexpected token"
  end.

Definition getCacheStats : M CacheStats :=
  try_catch
    (await ok <- ensureConnection in
     if negb ok then ret (mkCacheStats false None None None) else
     await info <- redis_info "stats" in
     await dbSize <- redis_dbSize in
     ret (mkCacheStats true (Some dbSize) (Some info) None))
    (fun error =>
       perform console_error "Cache stats error:" error in
       ret (mkCacheStats false None None (Some (String_of_error error)))).

(** ** The JSON codec *)

(** [JSON.stringify(value)] without replacer or indentation, and
    [JSON.parse(text)] on texts without insignificant white space and with
    integer number literals, which is all that [JSON.stringify] writes for
    the values above.  Characters are single code units below 256. *)
Module Json.

Definition dquote : ascii := "034"%char.

Definition hex_digit (n : N) : ascii :=
  (if n <? 10 then ascii_of_N (48 + n) else ascii_of_N (87 + n))%N.

(** QuoteJSONString, one code unit. *)
Definition escape_char (c : ascii) : string :=
  if Ascii.eqb c dquote then String "\" (String dquote EmptyString)
  else if Ascii.eqb c "\" then "\\"
  else if Ascii.eqb c "008" then "\b"
  else if Ascii.eqb c "009" then "\t"
  else if Ascii.eqb c "010" then "\n"
  else if Ascii.eqb c "012" then "\f"
  else if Ascii.eqb c "013" then "\r"
  else if (N_of_ascii c <? 32)%N then
    "\u00" +:+ String (hex_digit (N_of_ascii c / 16)) (String (hex_digit (N_of_ascii c mod 16)) EmptyString)
  else String c EmptyString.

Fixpoint escape (s : string) : string :=
  match s with
  | EmptyString => EmptyString
  | String c s' => escape_char c +:+ escape s'
  end.

Definition quote (s : string) : string :=
  String dquote (escape s +:+ String dquote EmptyString).

Fixpoint join (sep : string) (parts : list string) : string :=
  match parts with
  | [] => EmptyString
  | [x] => x
  | x :: rest => x +:+ sep +:+ join sep rest
  end.

(** SerializeJSONProperty: [None] is [undefined]. *)
Fixpoint serialize (v : jsval) : option string :=
  match v with
  | JUndefined => None
  | JNull => Some "null"
  | JBool true => Some "true"
  | JBool false => Some "false"
  | JNum n => Some (string_of_Z n)
  | JStr s => Some (quote s)
  | JDate iso => Some (quote iso)
  | JArr items =>
      Some ("[" +:+ join "," (map (fun x => default "null" (serialize x)) items) +:+ "]")
  | JObj props =>
      Some ("{" +:+
            join "," (omap (fun kv =>
                              match serialize (snd kv) with
                              | Some t => Some (quote (fst kv) +:+ ":" +:+ t)
                              | None => None
                              end) props) +:+ "}")
  end.

Definition hex_value (c : ascii) : option N :=
  let n := N_of_ascii c in
  (if (48 <=? n) && (n <=? 57) then Some (n - 48)
   else if (97 <=? n) && (n <=? 102) then Some (n - 87)
   else if (65 <=? n) && (n <=? 70) then Some (n - 55)
   else None)%N.

Definition unescape_simple (e : ascii) : option ascii :=
  if Ascii.eqb e dquote then Some dquote
  else if Ascii.eqb e "\" then Some "\"%char
  else if Ascii.eqb e "/" then Some "/"%char
  else if Ascii.eqb e "b" then Some "008"%char
  else if Ascii.eqb e "t" then Some "009"%char
  else if Ascii.eqb e "n" then Some "010"%char
  else if Ascii.eqb e "f" then Some "012"%char
  else if Ascii.eqb e "r" then Some "013"%char
  else None.

Definition unescape_unicode (h1 h2 h3 h4 : ascii) : option ascii :=
  match hex_value h1, hex_value h2, hex_value h3, hex_value h4 with
  | Some a, Some b, Some c, Some d =>
      let code := (((a * 16 + b) * 16 + c) * 16 + d)%N in
      if (code <? 256)%N then Some (ascii_of_N code) else None
  | _, _, _, _ => None
  end.

(** The characters of a string literal after its opening quote, up to
    and including the closing quote; returns the string and what
    follows. *)
Fixpoint parse_chars (s : string) : option (string * string) :=
  match s with
  | EmptyString => None
  | String c rest =>
      if Ascii.eqb c dquote then Some (EmptyString, rest)
      else if Ascii.eqb c "\" then
        match rest with
        | EmptyString => None
        | String e rest' =>
            if Ascii.eqb e "u" then
              match rest' with
              | String h1 (String h2 (String h3 (String h4 rest''))) =>
                  match unescape_unicode h1 h2 h3 h4, parse_chars rest'' with
                  | Some x, Some (str, r) => Some (String x str, r)
                  | _, _ => None
                  end
              | _ => None
              end
            else
              match unescape_simple e, parse_chars rest' with
              | Some x, Some (str, r) => Some (String x str, r)
              | _, _ => None
              end
        end
      else if (N_of_ascii c <? 32)%N then None
      else
        match parse_chars rest with
        | Some (str, r) => Some (String c str, r)
        | None => None
        end
  end.

Definition is_numchar (c : ascii) : bool :=
  Ascii.eqb c "-" || ((48 <=? N_of_ascii c) && (N_of_ascii c <=? 57))%N.

(** The longest prefix made of digits and minus signs. *)
Fixpoint span_number (s : string) : string * string :=
  match s with
  | EmptyString => (EmptyString, EmptyString)
  | String c rest =>
      if is_numchar c
      then let (tok, rest') := span_number rest in (String c tok, rest')
      else (EmptyString, s)
  end.

Fixpoint strip_prefix (p s : string) : option string :=
  match p, s with
  | EmptyString, _ => Some s
  | String a p', String b s' => if Ascii.eqb a b then strip_prefix p' s' else None
  | String _ _, EmptyString => None
  end.

(** A later occurrence of a property name overwrites the earlier value
    in place. *)
Fixpoint obj_set (k : string) (v : jsval) (props : list (string * jsval))
  : list (string * jsval) :=
  match props with
  | [] => [(k, v)]
  | (k', v') :: rest =>
      if String.eqb k k' then (k', v) :: rest else (k', v') :: obj_set k v rest
  end.

Definition obj_of_members (members : list (string * jsval)) : list (string * jsval) :=
  fold_left (fun acc kv => obj_set (fst kv) (snd kv) acc) members [].

Fixpoint parse_value (fuel : nat) (s : string) {struct fuel} : option (jsval * string) :=
  match fuel with
  | O => None
  | S fuel' =>
      match s with
      | EmptyString => None
      | String c rest =>
          if Ascii.eqb c "n" then
            match strip_prefix "ull" rest with Some r => Some (JNull, r) | None => None end
          else if Ascii.eqb c "t" then
            match strip_prefix "rue" rest with Some r => Some (JBool true, r) | None => None end
          else if Ascii.eqb c "f" then
            match strip_prefix "alse" rest with Some r => Some (JBool false, r) | None => None end
          else if Ascii.eqb c dquote then
            match parse_chars rest with
            | Some (str, r) => Some (JStr str, r)
            | None => None
            end
          else if Ascii.eqb c "[" then
            match rest with
            | EmptyString => None
            | String c' r =>
                if Ascii.eqb c' "]" then Some (JArr [], r)
                else
                  match parse_elements fuel' rest with
                  | Some (items, r') => Some (JArr items, r')
                  | None => None
                  end
            end
          else if Ascii.eqb c "{" then
            match rest with
            | EmptyString => None
            | String c' r =>
                if Ascii.eqb c' "}" then Some (JObj [], r)
                else
                  match parse_members fuel' rest with
                  | Some (members, r') => Some (JObj (obj_of_members members), r')
                  | None => None
                  end
            end
          else
            let (tok, r) := span_number s in
            match Z_of_string tok with
            | Some n => Some (JNum n, r)
            | None => None
            end
      end
  end
with parse_elements (fuel : nat) (s : string) {struct fuel} : option (list jsval * string) :=
  match fuel with
  | O => None
  | S fuel' =>
      match parse_value fuel' s with
      | Some (v, String c r) =>
          if Ascii.eqb c "," then
            match parse_elements fuel' r with
            | Some (vs, r') => Some (v :: vs, r')
            | None => None
            end
          else if Ascii.eqb c "]" then Some ([v], r)
          else None
      | _ => None
      end
  end
with parse_members (fuel : nat) (s : string) {struct fuel}
     : option (list (string * jsval) * string) :=
  match fuel with
  | O => None
  | S fuel' =>
      match s with
      | EmptyString => None
      | String q rest =>
          if Ascii.eqb q dquote then
            match parse_chars rest with
            | Some (k, String colon r) =>
                if Ascii.eqb colon ":" then
                  match parse_value fuel' r with
                  | Some (v, String c r') =>
                      if Ascii.eqb c "," then
                        match parse_members fuel' r' with
                        | Some (kvs, r'') => Some ((k, v) :: kvs, r'')
                        | None => None
                        end
                      else if Ascii.eqb c "}" then Some ([(k, v)], r')
                      else None
                  | _ => None
                  end
                else None
            | _ => None
            end
          else None
      end
  end.

Definition parse (text : string) : option jsval :=
  match parse_value (String.length text) text with
  | Some (v, EmptyString) => Some v
  | _ => None
  end.

End Json.

#[export] Instance ecma_JSON : JSON :=
  {| JSON_stringify := Json.serialize; JSON_parse := Json.parse |}.

(** ** Values that JSON represents *)

Fixpoint distinct (keys : list string) : bool :=
  match keys with
  | [] => true
  | k :: rest => negb (existsb (String.eqb k) rest) && distinct rest
  end.

(** Null, booleans, integers, strings, and arrays and objects of these
    with distinct property names: no [undefined], no [Date]. *)
Fixpoint json_clean (v : jsval) : bool :=
  match v with
  | JUndefined => false
  | JNull => true
  | JBool _ => true
  | JNum _ => true
  | JStr _ => true
  | JDate _ => false
  | JArr items => forallb json_clean items
  | JObj props =>
      distinct (map fst props) && forallb (fun kv => json_clean (snd kv)) props
  end.

(** The text written for a value inside an array. *)
Definition text_of (v : jsval) : string := default "null" (Json.serialize v).

(** Fuel that parsing the text of a value takes. *)
Fixpoint weight (v : jsval) : nat :=
  match v with
  | JArr items => S (fold_right (fun x acc => S (weight x + acc)) 0%nat items)
  | JObj props => S (fold_right (fun kv acc => S (weight (snd kv) + acc)) 0%nat props)
  | _ => 1%nat
  end.

(** What may follow a number: the end of the text, or a character that
    does not continue the number. *)
Definition delimited (rest : string) : bool :=
  match rest with
  | EmptyString => true
  | String c _ => negb (Json.is_numchar c)
  end.

(** The texts of a non-empty sequence, separated by commas, then the
    closing bracket and whatever follows it. *)
Fixpoint chain (t : string) (ts : list string) (close rest : string) : string :=
  t +:+ match ts with
        | [] => close +:+ rest
        | t' :: ts' => "," +:+ chain t' ts' close rest
        end.

Definition member_text (kv : string * jsval) : string :=
  Json.quote (fst kv) +:+ ":" +:+ text_of (snd kv).

Definition weights (ws : list nat) : nat :=
  fold_right (fun w acc => S (w + acc)) 0%nat ws.

(** Parsing the text of [v] gives [v] back and stops where the text
    ends: the statement proved by induction on the value. *)
Definition reads_back (v : jsval) : Prop :=
  json_clean v = true ->
  forall fuel rest,
    (weight v <= fuel)%nat -> delimited rest = true ->
    Json.parse_value fuel (text_of v +:+ rest) = Some (v, rest).

Fixpoint all_numchars (s : string) : bool :=
  match s with
  | EmptyString => true
  | String c s' => Json.is_numchar c && all_numchars s'
  end.

(** A user projection as the handlers cache it after reading it back from
    JSON, and the same projection as the database layer returns it. *)
Definition sample_user : jsval :=
  JObj [("id", JStr "u1"); ("email", JStr "a@b.c"); ("name", JNull);
        ("role", JStr "USER"); ("createdAt", JStr "2024-02-04T12:00:00.000Z")].

Definition sample_user_row : jsval :=
  JObj [("id", JStr "u1"); ("email", JStr "a@b.c"); ("name", JNull);
        ("role", JStr "USER"); ("createdAt", JDate "2024-02-04T12:00:00.000Z")].


(** * Vocabulary of the properties *)

(** ** One entry point for all fifteen functions *)

Inductive request : Type :=
| GetCachedUser (userId : string)
| SetCachedUser (userId : string) (userData : jsval)
| InvalidateUserCache (userId : string)
| GetCachedTasks (userId : string)
| SetCachedTasks (userId : string) (tasks : jsval)
| InvalidateTasksCache (userId : string)
| GetCachedTask (taskId : string)
| SetCachedTask (taskId : string) (task : jsval)
| InvalidateTaskCache (taskId userId : string)
| StoreSession (userId tokenId token : string)
| ValidateSession (userId tokenId : string)
| RevokeSession (userId tokenId : string)
| RevokeAllUserSessions (userId : string)
| CheckRateLimit (userId endpoint : string) (maxRequests : Z)
| GetCacheStats.

Inductive reply : Type :=
| Value (v : jsval)
| Done
| Verdict (b : bool)
| Limit (r : RateLimit)
| Stats (s : CacheStats).

Definition lift {A} (f : A -> reply) (m : M A) : M reply :=
  fun w => match m w with
           | (Returned a, w') => (Returned (f a), w')
           | (Thrown e, w') => (Thrown e, w')
           end.

Definition handle `{JSON} (r : request) : M reply :=
  match r with
  | GetCachedUser u => lift Value (getCachedUser u)
  | SetCachedUser u v => lift (fun _ => Done) (setCachedUser u v)
  | InvalidateUserCache u => lift (fun _ => Done) (invalidateUserCache u)
  | GetCachedTasks u => lift Value (getCachedTasks u)
  | SetCachedTasks u v => lift (fun _ => Done) (setCachedTasks u v)
  | InvalidateTasksCache u => lift (fun _ => Done) (invalidateTasksCache u)
  | GetCachedTask t => lift Value (getCachedTask t)
  | SetCachedTask t v => lift (fun _ => Done) (setCachedTask t v)
  | InvalidateTaskCache t u => lift (fun _ => Done) (invalidateTaskCache t u)
  | StoreSession u t tok => lift (fun _ => Done) (storeSession u t tok)
  | ValidateSession u t => lift Verdict (validateSession u t)
  | RevokeSession u t => lift (fun _ => Done) (revokeSession u t)
  | RevokeAllUserSessions u => lift (fun _ => Done) (revokeAllUserSessions u)
  | CheckRateLimit u e m => lift Limit (checkRateLimit u e m)
  | GetCacheStats => lift Stats getCacheStats
  end.

(** The degraded result of each function: absent for a get, nothing for a
    set, an invalidation or a revocation, valid for a session check,
    allowed with the full quota for the rate limiter, not connected for the
    statistics. *)
Definition degraded (r : request) (a : reply) : Prop :=
  match r, a with
  | GetCachedUser _, Value v => v = JNull
  | GetCachedTasks _, Value v => v = JNull
  | GetCachedTask _, Value v => v = JNull
  | SetCachedUser _ _, Done => True
  | SetCachedTasks _ _, Done => True
  | SetCachedTask _ _, Done => True
  | InvalidateUserCache _, Done => True
  | InvalidateTasksCache _, Done => True
  | InvalidateTaskCache _ _, Done => True
  | StoreSession _ _ _, Done => True
  | RevokeSession _ _, Done => True
  | RevokeAllUserSessions _, Done => True
  | ValidateSession _ _, Verdict b => b = true
  | CheckRateLimit _ _ m, Limit l => l = mkRateLimit true m
  | GetCacheStats, Stats s => connected s = false
  | _, _ => False
  end.

(** ** States of the store *)

(** Round trip [n] fails, one way or the other. *)
Definition fails (w : World) (n : nat) : bool := faults w n || lost w n.

(** The client is open and no coming round trip fails. *)
Definition ready (w : World) : Prop :=
  isOpen w = true /\ forall n, (tick w <= n)%nat -> fails w n = false.

(** The store is reachable: no coming round trip fails, and the client is
    open or can still be opened by [connectRedis]. *)
Definition reachable (w : World) : Prop :=
  (forall n, (tick w <= n)%nat -> fails w n = false) /\
  (isOpen w = false -> isConnected w = false).

(** The world once [ensureConnection] has returned in a reachable store. *)
Definition settle (w : World) : World :=
  if isOpen w then w else set_isConnected true (set_isOpen true (next_tick w)).

(** The store is unreachable: no coming round trip reaches the server. *)
Definition outage (w : World) : Prop :=
  forall n, (tick w <= n)%nat -> faults w n = true.

(** The store of a process that has just started: nothing cached, the
    client not yet opened, no failure ahead. *)
Definition fresh_world : World :=
  mkWorld false false ∅ 0 (fun _ => false) 0 0 [] "# Stats" (fun _ => false).

(** A process that starts while the server is down. *)
Definition down_world : World :=
  mkWorld false false ∅ 0 (fun _ => true) 0 0 [] "# Stats" (fun _ => false).

(** ** The three shapes of cache function, by key *)

Section Shapes.
Context `{JSON}.

(** What a [get*] returns for the payload found at its key. *)
Definition decode (cached : option string) : jsval :=
  match cached with
  | None => JNull
  | Some EmptyString => JNull
  | Some text => default JNull (JSON_parse text)
  end.

Definition get_at (key : string) : M jsval :=
  try_catch
    (await ok <- ensureConnection in
     if negb ok then ret JNull else
     await cached <- redis_get key in
     parse_if_truthy cached)
    (fun error => perform console_error "Cache get error:" error in ret JNull).

Definition set_at (key : string) (ttl : Z) (value : jsval) : M unit :=
  try_catch
    (await ok <- ensureConnection in
     if negb ok then ret tt else
     redis_setEx key ttl (JSON_stringify value))
    (fun error => console_error "Cache set error:" error).

Definition del_at (label : string) (key : string) : M unit :=
  try_catch
    (await ok <- ensureConnection in
     if negb ok then ret tt else
     perform redis_del [key] in ret tt)
    (fun error => console_error label error).

End Shapes.

(** ** Counters *)

(** The counter a key holds: an absent or expired key counts as 0. *)
Definition count_at (w : World) (key : string) : option Z :=
  match live w key with
  | None => Some 0
  | Some (v, _) => Z_of_string v
  end.

(** The integers that a JavaScript number holds exactly; the client
    hands the reply of INCR to the caller as a number. *)
Definition MAX_SAFE_INTEGER : Z := 9007199254740991.

Definition safe_integer (n : Z) : Prop :=
  - MAX_SAFE_INTEGER <= n <= MAX_SAFE_INTEGER.

(** The expiry time of a key, if it has one. *)
Definition deadline_at (w : World) (key : string) : option Z :=
  match live w key with
  | Some (_, d) => d
  | None => None
  end.

(** ** How a computation treats rejections *)

(** A computation that returns has seen no call reject. *)
Definition clean {A} (m : M A) : Prop :=
  forall w a w', m w = (Returned a, w') -> rejected w' = rejected w.

(** On a closed client the computation throws and changes no key. *)
Definition closed_throws {A} (m : M A) : Prop :=
  forall w, isOpen w = false ->
    exists e w', m w = (Thrown e, w') /\ db w' = db w /\ isOpen w' = false.

(** During an outage the computation throws and changes no key. *)
Definition outage_throws {A} (m : M A) : Prop :=
  forall w, outage w ->
    exists e w', m w = (Thrown e, w') /\ db w' = db w /\ outage w'.

(** No round trip loses its reply: a call that fails has not reached the
    server. *)
Definition lossless (w : World) : Prop := forall n, lost w n = false.

(** A computation that throws has changed no key, when no reply is lost. *)
Definition atomic {A} (m : M A) : Prop :=
  forall w e w', lossless w -> m w = (Thrown e, w') -> db w' = db w.

(** A computation that changes no key at all. *)
Definition readonly {A} (m : M A) : Prop :=
  forall w r w', m w = (r, w') -> db w' = db w.

(** Round trip [n] reaches the server: the client is open and the call is
    not cut on the way. *)
Definition reaches (w : World) (n : nat) : bool := isOpen w && negb (faults w n).

(** The keyspace [m] less the key [key], when [performed]. *)
Definition less (performed : bool) (key : string) (m : gmap string entry)
    : gmap string entry :=
  if performed then delete key m else m.

(** The functions the claim about silent no-ops is about, less the two
    that issue a second call after a first one may have taken effect. *)
Definition single_effect (r : request) : bool :=
  match r with
  | InvalidateTaskCache _ _ => false
  | CheckRateLimit _ _ _ => false
  | _ => true
  end.

(** A reachable store in which the first delete of a pair will be cut:
    round trip 0 opens the client, round trip 1 fails, the rest succeed. *)
Definition flaky_world : World :=
  mkWorld false false
          (<["task:t7" := ("{}", None)]> (<["tasks:u1" := ("[]", None)]> ∅))
          0 (fun n => Nat.eqb n 1) 0 0 [] "# Stats" (fun _ => false).

(** A reachable store in which the reply of the first command will be
    lost: round trip 0 opens the client, round trip 1 is run by the server
    and its reply does not arrive. *)
Definition lossy_world : World :=
  mkWorld false false ∅ 0 (fun _ => false) 0 0 [] "# Stats" (fun n => Nat.eqb n 1).

(** ** The three cached entity types *)

Inductive entity : Type := User | Tasks | Task.

Definition entity_key (t : entity) (id : string) : string :=
  match t with
  | User => user_key id
  | Tasks => tasks_key id
  | Task => task_key id
  end.

Definition entity_ttl (t : entity) : Z :=
  match t with
  | User => CACHE_TTL.USER
  | Tasks => CACHE_TTL.TASKS
  | Task => CACHE_TTL.TASK
  end.

Definition getCached `{JSON} (t : entity) (id : string) : M jsval :=
  match t with
  | User => getCachedUser id
  | Tasks => getCachedTasks id
  | Task => getCachedTask id
  end.

Definition setCached `{JSON} (t : entity) (id : string) (value : jsval) : M unit :=
  match t with
  | User => setCachedUser id value
  | Tasks => setCachedTasks id value
  | Task => setCachedTask id value
  end.

(** A world whose key [user:u1] holds a payload that is not JSON. *)
Definition corrupt_world : World :=
  mkWorld false false (<["user:u1" := ("{oops", None)]> ∅)
          0 (fun _ => false) 0 0 [] "# Stats" (fun _ => false).

(** A world whose key [user:u1] holds the empty string. *)
Definition blank_world : World :=
  mkWorld false false (<["user:u1" := (EmptyString, None)]> ∅)
          0 (fun _ => false) 0 0 [] "# Stats" (fun _ => false).

(** ** Histories *)

(** What happens between a set and a later lookup: calls to the layer, and
    time passing. *)
Inductive event : Type :=
| Call (r : request)
| Wait (seconds : Z).

Fixpoint run `{JSON} (events : list event) (w : World) : World :=
  match events with
  | [] => w
  | Call r :: rest => run rest (snd (handle r w))
  | Wait seconds :: rest => run rest (elapse seconds w)
  end.

(** The key a request sets with a fresh TTL, if it sets one. *)
Definition sets (r : request) : option string :=
  match r with
  | SetCachedUser u _ => Some (user_key u)
  | SetCachedTasks u _ => Some (tasks_key u)
  | SetCachedTask t _ => Some (task_key t)
  | StoreSession u t _ => Some (session_key u t)
  | _ => None
  end.

Definition no_reset (key : string) (events : list event) : Prop :=
  Forall (fun e => match e with
                   | Call r => sets r <> Some key
                   | Wait _ => True
                   end) events.

(** The entry at [key] is unchanged or gone. *)
Definition keeps (key : string) (w w' : World) : Prop :=
  db w' !! key = db w !! key \/ db w' !! key = None.

Definition fades {A} (key : string) (m : M A) : Prop :=
  forall w r w', m w = (r, w') -> keeps key w w'.

(** The entry at [key], if any, expires at [bound] at the latest. *)
Definition expires_by (key : string) (bound : Z) (w : World) : Prop :=
  match db w !! key with
  | Some (_, Some d) => d <= bound
  | Some (_, None) => False
  | None => True
  end.

(** An hour of traffic that never sets [user:u1] or a session of [u1]
    again, and a week of it. *)
Definition quiet_hour : list event :=
  [Call (GetCachedUser "u1"); Wait 1800; Call (CheckRateLimit "u1" "/api/tasks" 100);
   Call (SetCachedTasks "u1" (JArr [])); Call (InvalidateUserCache "u2"); Wait 1801].

Definition quiet_week : list event :=
  [Call (ValidateSession "u1" "t1"); Wait 302400; Call (StoreSession "u1" "t2" "jwt");
   Call (RevokeSession "u2" "t1"); Wait 302401].

(** A week of traffic, all of it failing when the store is down, that never
    stores the session [t1] of [u1] again. *)
Definition outage_week : list event :=
  [Call (ValidateSession "u1" "t1"); Call (SetCachedUser "u1" JNull); Wait 302400;
   Call (RevokeSession "u1" "t1"); Call (InvalidateTaskCache "t7" "u1"); Wait 302401].

(** A store that answers the first two round trips (opening the client,
    one command) and is unreachable from then on. *)
Definition fading_world : World :=
  mkWorld false false ∅ 0 (fun n => Nat.leb 2 n) 0 0 [] "# Stats" (fun _ => false).

(** ** Identifiers *)

(** No character of [s] is special in a glob pattern outside a class. *)
Fixpoint glob_literal (s : string) : bool :=
  match s with
  | EmptyString => true
  | String c s' =>
      negb (Ascii.eqb c "*") && negb (Ascii.eqb c "?") &&
      negb (Ascii.eqb c "[") && negb (Ascii.eqb c "\") && glob_literal s'
  end.

(** [s] does not contain the separator of key segments. *)
Fixpoint no_colon (s : string) : bool :=
  match s with
  | EmptyString => true
  | String c s' => negb (Ascii.eqb c ":") && no_colon s'
  end.

(** The keys [revokeAllUserSessions] asks the server to list and delete. *)
Definition listed_sessions (userId : string) (w : World) : list string :=
  filter (fun k => glob ("session:" +:+ userId +:+ ":*") k = true /\ is_live w k = true)
         (map fst (map_to_list (db w))).

(** A reachable store holding one session of user [bob] and one of the
    user whose identifier is [a:b]. *)
Definition bob_world : World :=
  mkWorld false false
          (<["session:bob:t1" := ("jwt", None)]> (<["session:a:b:t2" := ("jwt", None)]> ∅))
          0 (fun _ => false) 0 0 [] "# Stats" (fun _ => false).

(** ** Identifiers of the application *)

(** The identifiers of users and tasks are UUIDs: 36 characters, which are
    hexadecimal digits except for the hyphens at positions 8, 13, 18 and
    23. *)
Definition is_hex_digit (c : ascii) : bool :=
  in_range "0" "9" c || in_range "a" "f" c || in_range "A" "F" c.

Fixpoint uuid_from (position : nat) (s : string) : bool :=
  match s with
  | EmptyString => Nat.eqb position 36
  | String c s' =>
      (if Nat.eqb position 8 || Nat.eqb position 13 || Nat.eqb position 18
          || Nat.eqb position 23
       then Ascii.eqb c "-"
       else is_hex_digit c)
      && uuid_from (S position) s'
  end.

Definition is_uuid (s : string) : bool := uuid_from 0 s.

(** A reachable store holding two sessions of one user and one session of
    another. *)
Definition two_users_world : World :=
  mkWorld false false
          (<["session:3f2504e0-4f89-41d3-9a0c-0305e82c3301:t1" := ("jwt", None)]>
             (<["session:3f2504e0-4f89-41d3-9a0c-0305e82c3301:t2" := ("jwt", None)]>
                (<["session:7c9e6679-7425-40de-944b-e07fc1f90ae7:t1" := ("jwt", None)]> ∅)))
          0 (fun _ => false) 0 0 [] "# Stats" (fun _ => false).

(** * Further vocabulary *)

(** ** Frames *)

(** Every run of [m] relates the world before to the world after by [R]. *)
Definition within (R : World -> World -> Prop) {A} (m : M A) : Prop :=
  forall w r w', m w = (r, w') -> R w w'.

(** The keyspace is the same. *)
Definition same_db (w w' : World) : Prop := db w' = db w.

(** The entry at [key] is the same. *)
Definition same_at (key : string) (w w' : World) : Prop :=
  db w' !! key = db w !! key.

(** A computation started in a reachable store leaves it reachable, and
    does not move the clock. *)
Definition steady {A} (m : M A) : Prop :=
  forall w r w', reachable w -> m w = (r, w') -> reachable w' /\ now w' = now w.

(** The keys a request deletes by name. *)
Definition clears (r : request) : list string :=
  match r with
  | InvalidateUserCache u => [user_key u]
  | InvalidateTasksCache u => [tasks_key u]
  | InvalidateTaskCache t u => [task_key t; tasks_key u]
  | RevokeSession u t => [session_key u t]
  | _ => []
  end.

(** Traffic that neither sets nor deletes [key]. *)
Definition undisturbed (key : string) (events : list event) : Prop :=
  Forall (fun e => match e with
                   | Call r => sets r <> Some key /\ key ∉ clears r
                   | Wait _ => True
                   end) events.

(** An hour of traffic around [user:u1] that never sets or invalidates
    it: other users, the task caches of [u1], sessions, the rate limiter. *)
Definition busy_half_hour : list event :=
  [Call (GetCachedUser "u1"); Wait 900; Call (SetCachedUser "u2" JNull);
   Call (InvalidateUserCache "u2"); Call (SetCachedTasks "u1" (JArr []));
   Call (InvalidateTaskCache "t7" "u1"); Call (StoreSession "u1" "t1" "jwt");
   Call (RevokeAllUserSessions "u1"); Call (CheckRateLimit "u1" "/api/auth/me" 100);
   Call GetCacheStats; Wait 900].

(** ** Successive calls of the rate limiter *)

(** The world after one more call for each wait of the list, each call
    made once its wait has passed. *)
Fixpoint calls_after_waits (waits : list Z) (userId endpoint : string)
         (maxRequests : Z) (w : World) : World :=
  match waits with
  | [] => w
  | d :: rest =>
      calls_after_waits rest userId endpoint maxRequests
        (snd (checkRateLimit userId endpoint maxRequests (elapse d w)))
  end.

Definition total (waits : list Z) : Z := fold_right Z.add 0 waits.

(** The client is open, the next round trip goes through, the one after
    it is cut, and no later one fails. *)
Definition second_call_cut (w : World) : Prop :=
  isOpen w = true /\
  fails w (tick w) = false /\
  faults w (S (tick w)) = true /\
  forall n, (S (S (tick w)) <= n)%nat -> fails w n = false.

(** An open client whose second round trip from now will be cut. *)
Definition hiccup_world : World :=
  mkWorld true true ∅ 1000 (fun n => Nat.eqb n 1) 0 0 [] "# Stats" (fun _ => false).

(** ** Connection attempts *)

(** The client has never been opened, the attempt that the next call will
    make fails, and no round trip after it does. *)
Definition first_attempt_fails (w : World) : Prop :=
  isOpen w = false /\ isConnected w = false /\
  faults w (tick w) = true /\
  forall n, (S (tick w) <= n)%nat -> fails w n = false.

(** On a closed client the computation throws without a round trip, and
    changes nothing but the count of rejections. *)
Definition closed_inert {A} (m : M A) : Prop :=
  forall w, isOpen w = false ->
    exists e w', m w = (Thrown e, w') /\ db w' = db w /\ now w' = now w /\
                 isOpen w' = false /\ isConnected w' = isConnected w /\
                 faults w' = faults w /\ lost w' = lost w /\ tick w' = tick w.

(** A process that starts during a failure that is over one round trip
    later. *)
Definition rebooting_world : World :=
  mkWorld false false (<["user:u1" := ("{}", None)]> ∅)
          0 (fun n => Nat.eqb n 0) 0 0 [] "# Stats" (fun _ => false).

(** * Callers of the cache layer *)

(** ** JavaScript operators the handlers apply to values *)

(** ToBoolean, as [if (x)], [!x] and [x || y] apply it. *)
Definition truthy (v : jsval) : bool :=
  match v with
  | JUndefined => false
  | JNull => false
  | JBool b => b
  | JNum n => negb (n =? 0)
  | JStr s => negb (String.eqb s EmptyString)
  | JDate _ => true
  | JArr _ => true
  | JObj _ => true
  end.

Fixpoint lookup_prop (name : string) (props : list (string * jsval)) : jsval :=
  match props with
  | [] => JUndefined
  | (k, v) :: rest => if String.eqb k name then v else lookup_prop name rest
  end.

(** [v.name] on a value that is neither null nor undefined, for a name
    that no built-in prototype defines ([userId], [title], [description],
    [status], [email], [role], [name]). *)
Definition prop (v : jsval) (name : string) : jsval :=
  match v with
  | JObj props => lookup_prop name props
  | _ => JUndefined
  end.

(** [const { ... } = v] throws on null and undefined. *)
Definition destructurable (v : jsval) : M unit :=
  match v with
  | JUndefined => throw TypeError
  | JNull => throw TypeError
  | _ => ret tt
  end.

(** [v === s] for a string [s]. *)
Definition is_string (v : jsval) (s : string) : bool :=
  match v with
  | JStr s' => String.eqb s' s
  | _ => false
  end.

(** [v === undefined] *)
Definition is_undefined (v : jsval) : bool :=
  match v with
  | JUndefined => true
  | _ => false
  end.

(** [a === b] for two values that share no object: one comes from the
    request body and the other from a database row, so a [Date], an array
    or an object on one side is never identical to the other side. *)
Definition strict_equal (a b : jsval) : bool :=
  match a, b with
  | JUndefined, JUndefined => true
  | JNull, JNull => true
  | JBool x, JBool y => Bool.eqb x y
  | JNum x, JNum y => x =? y
  | JStr x, JStr y => String.eqb x y
  | _, _ => false
  end.

(** [a || b] *)
Definition or_else (a b : jsval) : jsval := if truthy a then a else b.

(** [...(v !== undefined && { name: v })] inside an object literal. *)
Definition spread_if_defined (name : string) (v : jsval) : list (string * jsval) :=
  if is_undefined v then [] else [(name, v)].





(** ** Requests and responses (next/server) *)

Module Next.

(** What the handlers read of a request: the [authorization] header as
    [headers.get] returns it, and the outcome of [request.json()]. *)
Record NextRequest : Type := mkNextRequest {
  authorization : option string;
  json : outcome jsval
}.

Record NextResponse : Type := mkNextResponse {
  status : Z;
  body : jsval
}.

End Next.

(** [NextResponse.json(body, { status })], and [NextResponse.json(body)],
    whose status is 200. *)
Definition NextResponse_json (body : jsval) (status : Z) : Next.NextResponse :=
  Next.mkNextResponse status body.

Definition error_body (message : string) : jsval := JObj [("error", JStr message)].

(** [request.json()] *)
Definition request_json (request : Next.NextRequest) : M jsval :=
  fun w => (Next.json request, w).

(** ** src/lib/auth.ts *)

Module Auth.

Record JWTPayload : Type := mkJWTPayload {
  userId : string;
  email : string;
  role : string
}.

End Auth.

(** [bcrypt.hash(data, rounds)] of the bcrypt package, awaited: the hash,
    or the error that the promise rejects with. *)
Class Bcrypt := {
  bcrypt_hash : jsval -> Z -> outcome string
}.

Definition hashPassword `{Bcrypt} (password : jsval) : M string :=
  fun w => (bcrypt_hash password 10, w).

(** [jwt.verify(token, JWT_SECRET)] of the jsonwebtoken package: the
    decoded payload, or [None] when it throws (bad signature, malformed or
    expired token). *)
Class JWT := {
  jwt_verify : string -> option Auth.JWTPayload
}.

Definition verifyToken `{JWT} (token : string) : option Auth.JWTPayload :=
  match jwt_verify token with
  | Some decoded => Some decoded
  | None => None
  end.

(** ** src/lib/middleware.ts *)

(** [s.substring(n)] *)
Fixpoint substring_from (n : nat) (s : string) : string :=
  match n, s with
  | O, _ => s
  | S n', String _ s' => substring_from n' s'
  | S _, EmptyString => EmptyString
  end.

Definition getAuthToken (request : Next.NextRequest) : option string :=
  match Next.authorization request with
  | Some authHeader =>
      if String.prefix "Bearer " authHeader
      then Some (substring_from 7 authHeader)
      else None
  | None => None
  end.

(** A route handler, with the context that the router passes along (for
    the routes below, the [id] segment of the path, or nothing). *)
Definition Handler (C : Type) : Type :=
  Next.NextRequest -> Auth.JWTPayload -> C -> M Next.NextResponse.

Definition requireAuth `{JWT} {C} (handler : Handler C)
    (request : Next.NextRequest) (context : C) : M Next.NextResponse :=
  match getAuthToken request with
  | None => ret (NextResponse_json (error_body "Authentication required") 401)
  | Some EmptyString => ret (NextResponse_json (error_body "Authentication required") 401)
  | Some token =>
      match verifyToken token with
      | None => ret (NextResponse_json (error_body "Invalid or expired token") 401)
      | Some user => handler request user context
      end
  end.

Definition requireAdmin `{JWT} {C} (handler : Handler C)
    : Next.NextRequest -> C -> M Next.NextResponse :=
  requireAuth (fun request user context =>
    if negb (String.eqb (Auth.role user) "ADMIN")
    then ret (NextResponse_json (error_body "Admin access required") 403)
    else handler request user context).

(** ** The database client (src/lib/prisma.ts) *)

(** The calls the handlers make on the Prisma client.  Each takes the
    argument object of the call and gives what the awaited call does:
    return a row, a list of rows or null, or throw.  Which error a call
    throws plays no role, since the handlers catch every error alike. *)
Class Prisma := {
  prisma_user_findUnique : jsval -> outcome jsval;
  prisma_user_update : jsval -> outcome jsval;
  prisma_user_delete : jsval -> outcome jsval;
  prisma_task_findUnique : jsval -> outcome jsval;
  prisma_task_findMany : jsval -> outcome jsval;
  prisma_task_create : jsval -> outcome jsval;
  prisma_task_update : jsval -> outcome jsval;
  prisma_task_delete : jsval -> outcome jsval;
  prisma_queryRaw : string -> outcome jsval
}.

(** Awaiting a database call: it does not touch the store. *)
Definition query {A} (answer : outcome A) : M A := fun w => (answer, w).

Definition where_id (id : string) : (string * jsval) :=
  ("where", JObj [("id", JStr id)]).

(** ** src/app/api/cache/stats/route.ts *)

(** The object that [getCacheStats] returns, as [NextResponse.json]
    receives it. *)
Definition stats_object (stats : CacheStats) : jsval :=
  JObj ([("connected", JBool (connected stats))]
        ++ match dbSize stats with Some n => [("dbSize", JNum n)] | None => [] end
        ++ match info stats with Some text => [("info", JStr text)] | None => [] end
        ++ match error_text stats with Some text => [("error", JStr text)] | None => [] end)%list.

Definition cache_stats_GET `{JWT} : Next.NextRequest -> unit -> M Next.NextResponse :=
  requireAuth (fun request user _ =>
    try_catch
      (if negb (String.eqb (Auth.role user) "ADMIN")
       then ret (NextResponse_json (error_body "Unauthorized - Admin access required") 403)
       else
         await stats <- getCacheStats in
         ret (NextResponse_json (stats_object stats) 200))
      (fun error =>
         perform console_error "Cache stats error:" error in
         ret (NextResponse_json (error_body "Internal server error") 500))).

(** ** The health route (GET /api/health) *)

(** [redisClient.ping()] *)
Definition redis_ping : M string :=
  send (fun w => (Returned "PONG", w)).

(** [timestamp] is [new Date().toISOString()], read from the clock of the
    process when the handler starts. *)
Definition health_GET `{Prisma} (timestamp : string) : M Next.NextResponse :=
  await database <-
    try_catch
      (perform query (prisma_queryRaw "SELECT 1") in ret ("healthy", "ok"))
      (fun error => ret ("unhealthy", "degraded")) in
  await redis <-
    try_catch
      (perform connectRedis in
       perform redis_ping in
       ret "healthy")
      (fun error => ret "unhealthy") in
  let statusCode := if String.eqb (snd database) "ok" then 200 else 503 in
  ret (NextResponse_json
         (JObj [("status", JStr (snd database));
                ("timestamp", JStr timestamp);
                ("services", JObj [("database", JStr (fst database));
                                   ("redis", JStr redis)])])
         statusCode).

Section Routes.
Context `{JSON} `{JWT} `{Prisma}.

(** ** src/app/api/auth/me/route.ts *)

Definition me_GET : Next.NextRequest -> unit -> M Next.NextResponse :=
  requireAuth (fun request user _ =>
    try_catch
      (await cachedUser <- getCachedUser (Auth.userId user) in
       if truthy cachedUser
       then ret (NextResponse_json (JObj [("user", cachedUser); ("cached", JBool true)]) 200)
       else
         await userData <-
           query (prisma_user_findUnique
                    (JObj [where_id (Auth.userId user);
                           ("select", JObj [("id", JBool true); ("email", JBool true);
                                            ("name", JBool true); ("role", JBool true);
                                            ("createdAt", JBool true)])])) in
         if negb (truthy userData)
         then ret (NextResponse_json (error_body "User not found") 404)
         else
           perform setCachedUser (Auth.userId user) userData in
           ret (NextResponse_json (JObj [("user", userData); ("cached", JBool false)]) 200))
      (fun error =>
         perform console_error "Get user error:" error in
         ret (NextResponse_json (error_body "Internal server error") 500))).

(** ** The task list route (GET and POST /api/tasks) *)

Definition tasks_GET : Next.NextRequest -> unit -> M Next.NextResponse :=
  requireAuth (fun request user _ =>
    try_catch
      (await cachedTasks <- getCachedTasks (Auth.userId user) in
       if truthy cachedTasks
       then ret (NextResponse_json (JObj [("tasks", cachedTasks); ("cached", JBool true)]) 200)
       else
         await tasks <-
           query (prisma_task_findMany
                    (JObj [("where", JObj [("userId", JStr (Auth.userId user))]);
                           ("orderBy", JObj [("createdAt", JStr "desc")])])) in
         perform setCachedTasks (Auth.userId user) tasks in
         ret (NextResponse_json (JObj [("tasks", tasks); ("cached", JBool false)]) 200))
      (fun error =>
         perform console_error "Get tasks error:" error in
         ret (NextResponse_json (error_body "Internal server error") 500))).

Definition tasks_POST : Next.NextRequest -> unit -> M Next.NextResponse :=
  requireAuth (fun request user _ =>
    try_catch
      (await body <- request_json request in
       perform destructurable body in
       let title := prop body "title" in
       let description := prop body "description" in
       let status := prop body "status" in
       if negb (truthy title)
       then ret (NextResponse_json (error_body "Title is required") 400)
       else
         await task <-
           query (prisma_task_create
                    (JObj [("data", JObj [("title", title);
                                          ("description", or_else description JNull);
                                          ("status", or_else status (JStr "OPEN"));
                                          ("userId", JStr (Auth.userId user))])])) in
         perform invalidateTasksCache (Auth.userId user) in
         ret (NextResponse_json (JObj [("task", task)]) 201))
      (fun error =>
         perform console_error "Create task error:" error in
         ret (NextResponse_json (error_body "Internal server error") 500))).

(** ** src/app/api/tasks/[id]/route.ts *)

Definition task_GET : Next.NextRequest -> string -> M Next.NextResponse :=
  requireAuth (fun request user id =>
    try_catch
      (await cachedTask <- getCachedTask id in
       if truthy cachedTask
       then
         if negb (is_string (prop cachedTask "userId") (Auth.userId user))
         then ret (NextResponse_json (error_body "Unauthorized") 403)
         else ret (NextResponse_json (JObj [("task", cachedTask); ("cached", JBool true)]) 200)
       else
         await task <- query (prisma_task_findUnique (JObj [where_id id])) in
         if negb (truthy task)
         then ret (NextResponse_json (error_body "Task not found") 404)
         else if negb (is_string (prop task "userId") (Auth.userId user))
         then ret (NextResponse_json (error_body "Unauthorized") 403)
         else
           perform setCachedTask id task in
           ret (NextResponse_json (JObj [("task", task); ("cached", JBool false)]) 200))
      (fun error =>
         perform console_error "Get task error:" error in
         ret (NextResponse_json (error_body "Internal server error") 500))).

Definition task_PATCH : Next.NextRequest -> string -> M Next.NextResponse :=
  requireAuth (fun request user id =>
    try_catch
      (await body <- request_json request in
       perform destructurable body in
       let title := prop body "title" in
       let description := prop body "description" in
       let status := prop body "status" in
       await task <- query (prisma_task_findUnique (JObj [where_id id])) in
       if negb (truthy task)
       then ret (NextResponse_json (error_body "Task not found") 404)
       else if negb (is_string (prop task "userId") (Auth.userId user))
       then ret (NextResponse_json (error_body "Unauthorized") 403)
       else
         await updatedTask <-
           query (prisma_task_update
                    (JObj [where_id id;
                           ("data", JObj (spread_if_defined "title" title
                                          ++ spread_if_defined "description" description
                                          ++ spread_if_defined "status" status)%list)])) in
         perform invalidateTaskCache id (Auth.userId user) in
         ret (NextResponse_json (JObj [("task", updatedTask)]) 200))
      (fun error =>
         perform console_error "Update task error:" error in
         ret (NextResponse_json (error_body "Internal server error") 500))).

Definition task_DELETE : Next.NextRequest -> string -> M Next.NextResponse :=
  requireAuth (fun request user id =>
    try_catch
      (await task <- query (prisma_task_findUnique (JObj [where_id id])) in
       if negb (truthy task)
       then ret (NextResponse_json (error_body "Task not found") 404)
       else if negb (is_string (prop task "userId") (Auth.userId user))
       then ret (NextResponse_json (error_body "Unauthorized") 403)
       else
         perform query (prisma_task_delete (JObj [where_id id])) in
         perform invalidateTaskCache id (Auth.userId user) in
         ret (NextResponse_json (JObj [("message", JStr "Task deleted successfully")]) 200))
      (fun error =>
         perform console_error "Delete task error:" error in
         ret (NextResponse_json (error_body "Internal server error") 500))).

(** ** src/app/api/admin/users/[id]/route.ts *)

Definition admin_user_DELETE : Next.NextRequest -> string -> M Next.NextResponse :=
  requireAdmin (fun request user id =>
    try_catch
      (if String.eqb id (Auth.userId user)
       then ret (NextResponse_json (error_body "Cannot delete yourself") 400)
       else
         await existingUser <- query (prisma_user_findUnique (JObj [where_id id])) in
         if negb (truthy existingUser)
         then ret (NextResponse_json (error_body "User not found") 404)
         else
           perform query (prisma_user_delete (JObj [where_id id])) in
           perform invalidateUserCache id in
           perform revokeAllUserSessions id in
           ret (NextResponse_json (JObj [("message", JStr "User deleted successfully")]) 200))
      (fun error =>
         perform console_error "Delete user error:" error in
         ret (NextResponse_json (error_body "Internal server error") 500))).

Definition admin_user_PATCH : Next.NextRequest -> string -> M Next.NextResponse :=
  requireAdmin (fun request user id =>
    try_catch
      (await body <- request_json request in
       perform destructurable body in
       let name := prop body "name" in
       let role := prop body "role" in
       let email := prop body "email" in
       if String.eqb id (Auth.userId user) && is_string role "USER"
       then ret (NextResponse_json (error_body "Cannot demote yourself from admin") 400)
       else
         await existingUser <- query (prisma_user_findUnique (JObj [where_id id])) in
         if negb (truthy existingUser)
         then ret (NextResponse_json (error_body "User not found") 404)
         else
           let update :=
             await updatedUser <-
               query (prisma_user_update
                        (JObj [where_id id;
                               ("data", JObj (spread_if_defined "name" name
                                              ++ spread_if_defined "role" role
                                              ++ spread_if_defined "email" email)%list);
                               ("select", JObj [("id", JBool true); ("email", JBool true);
                                                ("name", JBool true); ("role", JBool true);
                                                ("createdAt", JBool true)])])) in
             perform invalidateUserCache id in
             perform (if negb (is_undefined role)
                         && negb (strict_equal role (prop existingUser "role"))
                      then revokeAllUserSessions id
                      else ret tt) in
             ret (NextResponse_json
                    (JObj [("message", JStr "User updated successfully");
                           ("user", updatedUser)]) 200) in
           if truthy email && negb (strict_equal email (prop existingUser "email"))
           then
             await emailTaken <-
               query (prisma_user_findUnique (JObj [("where", JObj [("email", email)])])) in
             if truthy emailTaken
             then ret (NextResponse_json (error_body "Email already in use") 409)
             else update
           else update)
      (fun error =>
         perform console_error "Update user error:" error in
         ret (NextResponse_json (error_body "Internal server error") 500))).

(** ** src/app/api/admin/users/[id]/password/route.ts *)

Context `{Relational} `{Bcrypt}.


End Routes.

(** ** The routes that go through the cache layer, as one entry point *)





(** The body of the request is JSON text for something other than null. *)
Definition body_ok (request : Next.NextRequest) : Prop :=
  exists v, Next.json request = Returned v /\ v <> JNull /\ v <> JUndefined.



(** ** Sample tokens, requests and database answers *)

Definition alice : Auth.JWTPayload := Auth.mkJWTPayload "u1" "a@b.c" "USER".
Definition root : Auth.JWTPayload := Auth.mkJWTPayload "u0" "root@b.c" "ADMIN".

(** A verifier that accepts one token of [alice] and one of [root]. *)
Definition sample_jwt : JWT :=
  {| jwt_verify token :=
       if String.eqb token "token-of-alice" then Some alice
       else if String.eqb token "token-of-root" then Some root
       else None |}.

(** A reachable store that holds one session of [alice]. *)
Definition alice_world : World :=
  mkWorld false false
          (<["session:u1:s1" := ("token-of-alice", Some 604800)]> ∅)
          0 (fun _ => false) 0 0 [] "# Stats" (fun _ => false).

(** A request without a body that carries [token]. *)
Definition request_with (token : string) : Next.NextRequest :=
  Next.mkNextRequest (Some ("Bearer " +:+ token)) (Thrown SyntaxError).

(** A request that carries [token] and the JSON value [body]. *)
Definition request_with_body (token : string) (body : jsval) : Next.NextRequest :=
  Next.mkNextRequest (Some ("Bearer " +:+ token)) (Returned body).

Definition sample_task : jsval :=
  JObj [("id", JStr "t7"); ("title", JStr "Write tests"); ("description", JNull);
        ("status", JStr "OPEN"); ("userId", JStr "u1")].

(** A database that holds the user [u1] and her task [t7], and answers
    every write with the row written. *)
Definition sample_prisma : Prisma :=
  {| prisma_user_findUnique := fun _ => Returned sample_user_row;
     prisma_user_update := fun _ => Returned sample_user_row;
     prisma_user_delete := fun _ => Returned sample_user_row;
     prisma_task_findUnique := fun _ => Returned sample_task;
     prisma_task_findMany := fun _ => Returned (JArr [sample_task]);
     prisma_task_create := fun _ => Returned sample_task;
     prisma_task_update := fun _ => Returned sample_task;
     prisma_task_delete := fun _ => Returned sample_task;
     prisma_queryRaw := fun _ => Returned (JArr [JObj [("?column?", JNum 1)]]) |}.



(** A database that is down: every call throws. *)
Definition broken_prisma : Prisma :=
  {| prisma_user_findUnique := fun _ => Thrown ConnectionError;
     prisma_user_update := fun _ => Thrown ConnectionError;
     prisma_user_delete := fun _ => Thrown ConnectionError;
     prisma_task_findUnique := fun _ => Thrown ConnectionError;
     prisma_task_findMany := fun _ => Thrown ConnectionError;
     prisma_task_create := fun _ => Thrown ConnectionError;
     prisma_task_update := fun _ => Thrown ConnectionError;
     prisma_task_delete := fun _ => Thrown ConnectionError;
     prisma_queryRaw := fun _ => Thrown ConnectionError |}.

(** A reachable store in which the user [u1], her task list and her task
    [t7] are cached and one session of hers is registered. *)
Definition warm_world : World :=
  mkWorld false false
          (<["user:u1" := (text_of sample_user, Some 3600)]>
             (<["tasks:u1" := (text_of (JArr [sample_task]), Some 300)]>
                (<["task:t7" := (text_of sample_task, Some 600)]>
                   (<["session:u1:s1" := ("token-of-alice", Some 604800)]> ∅))))
          0 (fun _ => false) 0 0 [] "# Stats" (fun _ => false).

(** The same store during an outage, with the client open. *)
Definition stale_world : World :=
  mkWorld true true (db warm_world) 0 (fun _ => true) 0 0 [] "# Stats" (fun _ => false).

(** * Properties *)

(** ** Reachable stores *)


Lemma fails_false w n : fails w n = false -> faults w n = false /\ lost w n = false.
Proof. apply orb_false_elim. Qed.

Lemma ready_reachable w : ready w -> reachable w.
Proof. intros [Ho Hf]. split; [exact Hf | congruence]. Qed.

Lemma ready_next_tick w : ready w -> ready (next_tick w).
Proof. intros [Ho Hf]. split; [exact Ho | intros n Hn; apply Hf; simpl in Hn; lia]. Qed.

Lemma ready_set_db m w : ready w -> ready (set_db m w).
Proof. intros [Ho Hf]. split; assumption. Qed.

Lemma ready_elapse d w : ready w -> ready (elapse d w).
Proof. intros [Ho Hf]. split; assumption. Qed.

Lemma settle_ready w : reachable w -> ready (settle w).
Proof.
  intros [Hf Hc]. unfold settle. destruct (isOpen w) eqn:Ho.
  - split; assumption.
  - split; [reflexivity | intros n Hn; apply Hf; simpl in Hn; lia].
Qed.

Lemma settle_open w : isOpen w = true -> settle w = w.
Proof. intros Ho. unfold settle. now rewrite Ho. Qed.

Lemma db_settle w : db (settle w) = db w.
Proof. unfold settle. now destruct (isOpen w). Qed.

Lemma now_settle w : now (settle w) = now w.
Proof. unfold settle. now destruct (isOpen w). Qed.

Lemma live_settle w k : live (settle w) k = live w k.
Proof. unfold live. now rewrite db_settle, now_settle. Qed.

Lemma ensureConnection_reachable w :
  reachable w -> ensureConnection w = (Returned true, settle w).
Proof.
  intros [Hf Hc]. unfold ensureConnection, try_catch, bind, connectRedis, settle.
  destruct (isOpen w) eqn:Ho.
  - rewrite andb_false_r. reflexivity.
  - rewrite (Hc eq_refl). simpl.
    destruct (fails_false w (tick w) (Hf (tick w) (le_n _))) as [Hcut _].
    unfold try_catch, bind, redis_connect. rewrite Ho, Hcut.
    reflexivity.
Qed.

Lemma send_ready {A} (cmd : M A) w :
  ready w -> send cmd w = cmd (next_tick w).
Proof.
  intros [Ho Hf]. unfold send.
  destruct (fails_false w (tick w) (Hf (tick w) (le_n _))) as [Hcut Hlost].
  now rewrite Ho, Hcut, Hlost.
Qed.

(** ** Reading the keyspace *)

Lemma live_next_tick w k : live (next_tick w) k = live w k.
Proof. reflexivity. Qed.

Lemma live_insert_eq w k v d :
  expired (Some d) (now w) = false ->
  live (set_db (<[k := (v, Some d)]> (db w)) w) k = Some (v, Some d).
Proof.
  intros He. unfold live. cbn [db set_db now]. rewrite lookup_insert_eq.
  change (now (set_db _ w)) with (now w). now rewrite He.
Qed.

Lemma live_insert_ne w k k' e :
  k <> k' -> live (set_db (<[k := e]> (db w)) w) k' = live w k'.
Proof.
  intros Hne. unfold live. cbn [db set_db now]. now rewrite lookup_insert_ne.
Qed.

Lemma live_delete_eq w k : live (set_db (delete k (db w)) w) k = None.
Proof. unfold live. cbn [db set_db]. now rewrite lookup_delete_eq. Qed.

Lemma live_delete_ne w k k' :
  k <> k' -> live (set_db (delete k (db w)) w) k' = live w k'.
Proof. intros Hne. unfold live. cbn [db set_db now]. now rewrite lookup_delete_ne. Qed.

Lemma live_ext w w' k : db w' = db w -> now w' = now w -> live w' k = live w k.
Proof. intros Hd Hn. unfold live. now rewrite Hd, Hn. Qed.

Lemma is_live_ext w w' k : db w' = db w -> now w' = now w -> is_live w' k = is_live w k.
Proof. intros Hd Hn. unfold is_live. now rewrite (live_ext w w' k). Qed.

Lemma ready_print_error line w : ready w -> ready (print_error line w).
Proof. intros [Ho Hf]. split; assumption. Qed.

Create HintDb cache.
#[local] Hint Resolve ready_reachable ready_next_tick ready_set_db ready_elapse
  settle_ready ready_print_error : cache.

(** Closes the frame conditions left once a run has been computed. *)
Ltac frame :=
  repeat match goal with |- _ /\ _ => split end;
  cbn [now db set_db next_tick print_error isOpen faults tick foldr];
  rewrite ?db_settle, ?now_settle;
  auto with cache.

(** ** The three shapes of cache function, by key *)

Section Shapes.
Context `{JSON}.


Lemma getCachedUser_shape id : getCachedUser id = get_at (user_key id).
Proof. reflexivity. Qed.
Lemma getCachedTasks_shape id : getCachedTasks id = get_at (tasks_key id).
Proof. reflexivity. Qed.
Lemma getCachedTask_shape id : getCachedTask id = get_at (task_key id).
Proof. reflexivity. Qed.
Lemma setCachedUser_shape id v : setCachedUser id v = set_at (user_key id) CACHE_TTL.USER v.
Proof. reflexivity. Qed.
Lemma setCachedTasks_shape id v : setCachedTasks id v = set_at (tasks_key id) CACHE_TTL.TASKS v.
Proof. reflexivity. Qed.
Lemma setCachedTask_shape id v : setCachedTask id v = set_at (task_key id) CACHE_TTL.TASK v.
Proof. reflexivity. Qed.
Lemma invalidateUserCache_shape id :
  invalidateUserCache id = del_at "Cache invalidation error:" (user_key id).
Proof. reflexivity. Qed.
Lemma invalidateTasksCache_shape id :
  invalidateTasksCache id = del_at "Cache invalidation error:" (tasks_key id).
Proof. reflexivity. Qed.

Lemma get_at_reachable key w :
  reachable w ->
  exists w', get_at key w = (Returned (decode (fst <$> live w key)), w') /\
             ready w' /\ db w' = db w /\ now w' = now w.
Proof.
  intros Hr. pose proof (settle_ready w Hr) as Hs.
  unfold get_at, try_catch, bind. rewrite (ensureConnection_reachable w Hr).
  cbn [negb]. unfold redis_get. rewrite (send_ready _ _ Hs).
  rewrite live_next_tick, live_settle.
  destruct (live w key) as [[text d]|]; cbn [fmap option_fmap option_map fst parse_if_truthy decode].
  - destruct text as [|c text].
    + eexists; split; [reflexivity|]. frame.
    + destruct (JSON_parse (String c text)); cbn.
      * eexists; split; [reflexivity|]. frame.
      * eexists; split; [reflexivity|]. frame.
  - eexists; split; [reflexivity|]. frame.
Qed.

Lemma set_at_reachable key ttl v text w :
  reachable w -> 0 < ttl -> JSON_stringify v = Some text ->
  exists w', set_at key ttl v w = (Returned tt, w') /\
             ready w' /\ now w' = now w /\
             db w' = <[key := (text, Some (now w + ttl))]> (db w).
Proof.
  intros Hr Httl Hv. pose proof (settle_ready w Hr) as Hs.
  unfold set_at, try_catch, bind. rewrite (ensureConnection_reachable w Hr).
  cbn [negb]. rewrite Hv. unfold redis_setEx. rewrite (send_ready _ _ Hs).
  destruct (Z.leb_spec ttl 0) as [Hle|_]; [lia|].
  eexists; split; [reflexivity|]. frame.
Qed.

Lemma del_at_reachable label key w :
  reachable w ->
  exists w', del_at label key w = (Returned tt, w') /\
             ready w' /\ now w' = now w /\ db w' = delete key (db w).
Proof.
  intros Hr. pose proof (settle_ready w Hr) as Hs.
  unfold del_at, try_catch, bind. rewrite (ensureConnection_reachable w Hr).
  cbn [negb]. unfold redis_del. rewrite (send_ready _ _ Hs).
  eexists; split; [reflexivity|]. frame.
Qed.

End Shapes.

(** ** Decimal texts *)

Lemma Z_of_string_of_Z n : Z_of_string (string_of_Z n) = Some n.
Proof.
  unfold Z_of_string, string_of_Z.
  rewrite NilZero.isi.
  - rewrite DecimalZ.of_to. now rewrite String.eqb_refl.
  - destruct n; simpl; try discriminate.
    intros [= E]. now apply DecimalPos.Unsigned.to_uint_nonnil in E.
  - destruct n; simpl; try discriminate.
    intros [= E]. now apply DecimalPos.Unsigned.to_uint_nonnil in E.
Qed.

(** ** Sessions and the rate limiter in a reachable store *)

Lemma revokeSession_shape userId tokenId :
  revokeSession userId tokenId = del_at "Session revocation error:" (session_key userId tokenId).
Proof. reflexivity. Qed.

Lemma storeSession_reachable userId tokenId token w :
  reachable w ->
  exists w', storeSession userId tokenId token w = (Returned tt, w') /\
             ready w' /\ now w' = now w /\
             db w' = <[session_key userId tokenId := (token, Some (now w + CACHE_TTL.SESSION))]> (db w).
Proof.
  intros Hr. pose proof (settle_ready w Hr) as Hs.
  unfold storeSession, try_catch, bind. rewrite (ensureConnection_reachable w Hr).
  cbn [negb]. unfold redis_setEx. rewrite (send_ready _ _ Hs).
  change (CACHE_TTL.SESSION <=? 0) with false. cbv iota.
  eexists; split; [reflexivity|]. frame.
Qed.

Lemma validateSession_reachable userId tokenId w :
  reachable w ->
  exists w', validateSession userId tokenId w
               = (Returned (is_live w (session_key userId tokenId)), w') /\
             ready w' /\ now w' = now w /\ db w' = db w.
Proof.
  intros Hr. pose proof (settle_ready w Hr) as Hs.
  unfold validateSession, try_catch, bind. rewrite (ensureConnection_reachable w Hr).
  cbn [negb]. unfold redis_exists. rewrite (send_ready _ _ Hs).
  unfold ret.
  rewrite (is_live_ext w (next_tick (settle w))) by (cbn; auto using db_settle, now_settle).
  destruct (is_live w _); (eexists; split; [reflexivity|]; frame).
Qed.

Lemma invalidateTaskCache_reachable `{JSON} taskId userId w :
  reachable w ->
  exists w', invalidateTaskCache taskId userId w = (Returned tt, w') /\
             ready w' /\ now w' = now w /\
             db w' = delete (tasks_key userId) (delete (task_key taskId) (db w)).
Proof.
  intros Hr. pose proof (settle_ready w Hr) as Hs.
  unfold invalidateTaskCache, try_catch, bind. rewrite (ensureConnection_reachable w Hr).
  cbn [negb]. unfold promise_all2, redis_del. rewrite (send_ready _ _ Hs).
  rewrite send_ready by auto with cache.
  eexists; split; [reflexivity|]. frame.
Qed.

Lemma live_None w k : db w !! k = None -> live w k = None.
Proof. intros E. unfold live. now rewrite E. Qed.

Lemma is_live_None w k : db w !! k = None -> is_live w k = false.
Proof. intros E. unfold is_live. now rewrite live_None. Qed.

Lemma is_live_fresh w k v ttl :
  0 < ttl -> db w !! k = Some (v, Some (now w + ttl)) -> is_live w k = true.
Proof.
  intros Httl E. unfold is_live, live. rewrite E. unfold expired.
  destruct (Z.leb_spec (now w + ttl) (now w)); [lia | reflexivity].
Qed.

(** ** Sessions *)

(** C7. In a reachable store, [validateSession] answers true right after
    [storeSession] for the same user and token identifier, whatever the
    token, and false right after [revokeSession] for that pair. *)
Theorem validateSession_after_store_and_revoke :
  forall (userId tokenId token : string) (w : World),
    reachable w ->
    fst (validateSession userId tokenId (snd (storeSession userId tokenId token w)))
      = Returned true /\
    fst (validateSession userId tokenId (snd (revokeSession userId tokenId w)))
      = Returned false.
Proof.
  intros u t tok w Hr. split.
  - destruct (storeSession_reachable u t tok w Hr) as (w1 & -> & Hr1 & Hn1 & Hd1).
    cbn [snd].
    destruct (validateSession_reachable u t w1 (ready_reachable _ Hr1)) as (w2 & -> & _).
    cbn [fst]. f_equal. apply (is_live_fresh _ _ tok CACHE_TTL.SESSION); [reflexivity|].
    rewrite Hd1, Hn1. apply lookup_insert_eq.
  - rewrite revokeSession_shape.
    destruct (del_at_reachable "Session revocation error:" (session_key u t) w Hr)
      as (w1 & -> & Hr1 & Hn1 & Hd1).
    cbn [snd].
    destruct (validateSession_reachable u t w1 (ready_reachable _ Hr1)) as (w2 & -> & _).
    cbn [fst]. f_equal. apply is_live_None. rewrite Hd1. apply lookup_delete_eq.
Qed.


Lemma fresh_world_reachable : reachable fresh_world.
Proof. split; [reflexivity | reflexivity]. Qed.

Lemma validateSession_after_store_and_revoke_witness :
  fst (validateSession "u1" "t1" (snd (storeSession "u1" "t1" "jwt" fresh_world)))
    = Returned true /\
  fst (validateSession "u1" "t1" (snd (revokeSession "u1" "t1" fresh_world)))
    = Returned false.
Proof.
  apply (validateSession_after_store_and_revoke "u1" "t1" "jwt" fresh_world).
  exact fresh_world_reachable.
Defined.

(** ** Paired invalidation *)

(** C5. In a reachable store, [invalidateTaskCache taskId userId] deletes
    both [task:taskId] and [tasks:userId]; [getCachedTask taskId] and
    [getCachedTasks userId] afterwards, in either order or one after the
    other, both return null. *)
Theorem invalidateTaskCache_clears_both `{JSON} :
  forall (taskId userId : string) (w : World),
    reachable w ->
    let w' := snd (invalidateTaskCache taskId userId w) in
    fst (invalidateTaskCache taskId userId w) = Returned tt /\
    db w' !! task_key taskId = None /\
    db w' !! tasks_key userId = None /\
    fst (getCachedTask taskId w') = Returned JNull /\
    fst (getCachedTasks userId w') = Returned JNull /\
    fst (getCachedTasks userId (snd (getCachedTask taskId w'))) = Returned JNull.
Proof.
  intros t u w Hr.
  destruct (invalidateTaskCache_reachable t u w Hr) as (w1 & E & Hr1 & Hn1 & Hd1).
  rewrite E. cbn [fst snd].
  assert (Ht : db w1 !! task_key t = None).
  { rewrite Hd1. destruct (decide (tasks_key u = task_key t)) as [->|Hne].
    - apply lookup_delete_eq.
    - rewrite lookup_delete_ne by exact Hne. apply lookup_delete_eq. }
  assert (Hu : db w1 !! tasks_key u = None).
  { rewrite Hd1. apply lookup_delete_eq. }
  split; [reflexivity|]. split; [exact Ht|]. split; [exact Hu|].
  rewrite getCachedTask_shape, getCachedTasks_shape.
  destruct (get_at_reachable (task_key t) w1 (ready_reachable _ Hr1))
    as (w2 & E2 & Hr2 & Hd2 & Hn2).
  destruct (get_at_reachable (tasks_key u) w1 (ready_reachable _ Hr1))
    as (w3 & E3 & _).
  destruct (get_at_reachable (tasks_key u) w2 (ready_reachable _ Hr2))
    as (w4 & E4 & _).
  rewrite E2, E3. cbn [fst snd]. rewrite E4. cbn [fst].
  rewrite (live_ext w1 w2) in E4 |- * by assumption.
  rewrite (live_None w1 _ Ht), (live_None w1 _ Hu). repeat split; reflexivity.
Qed.

Lemma invalidateTaskCache_clears_both_witness :
  let w' := snd (invalidateTaskCache "t7" "u1" fresh_world) in
  fst (invalidateTaskCache "t7" "u1" fresh_world) = Returned tt /\
  db w' !! task_key "t7" = None /\
  db w' !! tasks_key "u1" = None /\
  fst (getCachedTask "t7" w') = Returned JNull /\
  fst (getCachedTasks "u1" w') = Returned JNull /\
  fst (getCachedTasks "u1" (snd (getCachedTask "t7" w'))) = Returned JNull.
Proof.
  apply (invalidateTaskCache_clears_both "t7" "u1" fresh_world).
  exact fresh_world_reachable.
Defined.

(** ** The rate limiter *)


Lemma live_Some w k v d :
  live w k = Some (v, d) -> db w !! k = Some (v, d) /\ expired d (now w) = false.
Proof.
  unfold live. destruct (db w !! k) as [[v' d']|]; [|discriminate].
  destruct (expired d' (now w)) eqn:E; [discriminate|].
  intros [= -> ->]. now split.
Qed.

Lemma live_lookup w k v d :
  db w !! k = Some (v, d) -> expired d (now w) = false -> live w k = Some (v, d).
Proof. intros E1 E2. unfold live. now rewrite E1, E2. Qed.

Lemma expired_later t d : 0 < d -> expired (Some (t + d)) t = false.
Proof. intros Hd. unfold expired. destruct (Z.leb_spec (t + d) t); [lia | reflexivity]. Qed.

(** ** Numbers *)

Lemma Number_of_Z_exact n : - 2 ^ 53 <= n <= 2 ^ 53 -> Number_of_Z n = n.
Proof.
  intros Hn. unfold Number_of_Z.
  destruct (Z.leb_spec (Z.abs n) (2 ^ 53)) as [_|Hgt]; [reflexivity | lia].
Qed.

Lemma Number_of_Z_safe n : safe_integer n -> Number_of_Z n = n.
Proof.
  intros Hn. apply Number_of_Z_exact.
  unfold safe_integer, MAX_SAFE_INTEGER in Hn. lia.
Qed.

Lemma Number_of_Z_negative n : n < 0 -> Number_of_Z n <= 0.
Proof.
  intros Hn. unfold Number_of_Z.
  destruct (Z.leb_spec (Z.abs n) (2 ^ 53)) as [_|Hgt]; [lia|].
  cbv zeta. rewrite (Z.sgn_neg n Hn).
  set (e := Z.log2 (Z.abs n) - 52).
  set (q := Z.shiftr (Z.abs n) e).
  assert (Hq : 0 <= q) by (apply Z.shiftr_nonneg; lia).
  match goal with
  | |- -1 * Z.shiftl ?q' e <= 0 =>
      assert (Hq' : 0 <= q') by (repeat match goal with
                                         | |- context [if ?b then _ else _] => destruct b
                                         end; lia);
      pose proof (proj2 (Z.shiftl_nonneg q' e) Hq')
  end.
  lia.
Qed.

(** What is left of a quota that a number holds exactly is computed
    exactly, for every count that is not negative. *)
Lemma remaining_exact m k :
  safe_integer m -> 0 <= k ->
  Z.max 0 (Number_of_Z (m - k)) = Z.max 0 (m - k).
Proof.
  intros Hm Hk. unfold safe_integer, MAX_SAFE_INTEGER in Hm.
  destruct (Z.le_gt_cases (- 2 ^ 53) (m - k)) as [Hge|Hlt].
  - rewrite Number_of_Z_exact by lia. reflexivity.
  - pose proof (Number_of_Z_negative (m - k)) as Hneg. lia.
Qed.

(** Beyond the safe integers a number rounds to the nearest one it can
    hold, ties to even. *)
Lemma Number_of_Z_rounds :
  Number_of_Z (2 ^ 53 + 1) = 2 ^ 53 /\
  Number_of_Z (2 ^ 53 + 3) = 2 ^ 53 + 4 /\
  Number_of_Z (2 ^ 60 - 1) = 2 ^ 60 /\
  Number_of_Z (- (2 ^ 60 - 1)) = - 2 ^ 60.
Proof. repeat split; vm_compute; reflexivity. Qed.

(** With a limit beyond the safe integers the subtraction is rounded like
    any number: the first call under a limit of [2 ^ 60] leaves [2 ^ 60],
    the number nearest to [2 ^ 60 - 1]. *)
Lemma checkRateLimit_beyond_safe_integers :
  fst (checkRateLimit "u1" "/api/tasks" (2 ^ 60) fresh_world)
  = Returned (mkRateLimit true (2 ^ 60)).
Proof. vm_compute. reflexivity. Qed.

Lemma checkRateLimit_step userId endpoint maxRequests w c :
  reachable w ->
  count_at w (ratelimit_key userId endpoint) = Some c ->
  0 <= c -> safe_integer (c + 1) -> safe_integer maxRequests ->
  exists w',
    checkRateLimit userId endpoint maxRequests w
      = (Returned (mkRateLimit (c + 1 <=? maxRequests) (Z.max 0 (maxRequests - (c + 1)))), w') /\
    ready w' /\ now w' = now w /\
    db w' = <[ratelimit_key userId endpoint :=
                (string_of_Z (c + 1),
                 if c + 1 =? 1 then Some (now w + 60)
                 else deadline_at w (ratelimit_key userId endpoint))]> (db w).
Proof.
  intros Hr Hc Hpos Hsafe Hmax.
  assert (Hb : int64_min <= c < int64_max)
    by (unfold safe_integer, MAX_SAFE_INTEGER, int64_min, int64_max in *; lia).
  pose proof (settle_ready w Hr) as Hs.
  set (key := ratelimit_key userId endpoint) in *.
  unfold checkRateLimit, try_catch, bind. rewrite (ensureConnection_reachable w Hr).
  cbn [negb]. fold key. unfold redis_incr. rewrite (send_ready _ _ Hs).
  rewrite live_next_tick, live_settle.
  unfold count_at, deadline_at in *.
  destruct (live w key) as [[v d]|] eqn:Hl.
  - rewrite Hc.
    destruct (Z.leb_spec int64_min c); [|lia].
    destruct (Z.ltb_spec c int64_max); [|lia]. cbn [andb]. cbv zeta.
    rewrite (Number_of_Z_safe (c + 1) Hsafe), (remaining_exact maxRequests (c + 1) Hmax) by lia.
    apply live_Some in Hl as [Hdb Hexp].
    destruct (c + 1 =? 1) eqn:E1.
    + unfold redis_expire. rewrite send_ready by auto with cache.
      rewrite live_next_tick.
      rewrite (live_lookup _ key (string_of_Z (c + 1)) d);
        [| cbn [db set_db]; apply lookup_insert_eq | cbn; now rewrite now_settle].
      change (60 <=? 0) with false. cbv iota. unfold ret.
      eexists; split; [reflexivity|]. frame.
      now rewrite insert_insert_eq.
    + unfold ret. eexists; split; [reflexivity|]. frame.
  - injection Hc as <-. cbv zeta.
    change (0 + 1) with 1.
    rewrite (Number_of_Z_safe 1 Hsafe), (remaining_exact maxRequests 1 Hmax) by lia.
    change (0 + 1) with 1. change (1 =? 1) with true. cbv iota.
    unfold redis_expire. rewrite send_ready by auto with cache.
    rewrite live_next_tick.
    rewrite (live_lookup _ key (string_of_Z 1) None);
      [| cbn [db set_db]; apply lookup_insert_eq | reflexivity].
    change (60 <=? 0) with false. cbv iota. unfold ret.
    eexists; split; [reflexivity|]. frame.
    now rewrite insert_insert_eq.
Qed.

Lemma checkRateLimit_step_count userId endpoint maxRequests w c :
  reachable w ->
  count_at w (ratelimit_key userId endpoint) = Some c ->
  0 <= c -> safe_integer (c + 1) -> safe_integer maxRequests ->
  exists w',
    checkRateLimit userId endpoint maxRequests w
      = (Returned (mkRateLimit (c + 1 <=? maxRequests) (Z.max 0 (maxRequests - (c + 1)))), w') /\
    reachable w' /\
    count_at w' (ratelimit_key userId endpoint) = Some (c + 1) /\
    deadline_at w' (ratelimit_key userId endpoint)
      = (if c + 1 =? 1 then Some (now w + 60)
         else deadline_at w (ratelimit_key userId endpoint)) /\
    (forall k, k <> ratelimit_key userId endpoint -> db w' !! k = db w !! k).
Proof.
  intros Hr Hc Hpos Hsafe Hmax.
  destruct (checkRateLimit_step userId endpoint maxRequests w c Hr Hc Hpos Hsafe Hmax)
    as (w' & E & Hr' & Hn & Hd).
  exists w'. split; [exact E|]. split; [auto with cache|].
  set (key := ratelimit_key userId endpoint) in *.
  assert (Hlive : live w' key
                  = Some (string_of_Z (c + 1),
                          if c + 1 =? 1 then Some (now w + 60) else deadline_at w key)).
  { apply live_lookup; [rewrite Hd; apply lookup_insert_eq|]. rewrite Hn.
    destruct (c + 1 =? 1) eqn:E1; [apply expired_later; lia|].
    unfold deadline_at, count_at in *.
    destruct (live w key) as [[v d]|] eqn:Hl.
    - now apply live_Some in Hl.
    - reflexivity. }
  split; [|split].
  - unfold count_at. rewrite Hlive. apply Z_of_string_of_Z.
  - unfold deadline_at at 1. now rewrite Hlive.
  - intros k Hk. rewrite Hd. now apply lookup_insert_ne.
Qed.



(** ** The connection guard *)

Lemma ensureConnection_returns_true w : fst (ensureConnection w) = Returned true.
Proof.
  unfold ensureConnection, try_catch, bind, connectRedis.
  destruct (isConnected w), (isOpen w) eqn:Ho; cbn [negb andb]; try reflexivity.
  unfold try_catch, bind, redis_connect. rewrite Ho.
  destruct (faults w (tick w)); reflexivity.
Qed.

Lemma ensureConnection_facts w :
  exists w1, ensureConnection w = (Returned true, w1) /\
             db w1 = db w /\ now w1 = now w /\
             (rejected w1 = rejected w \/ isOpen w1 = false) /\
             (outage w -> outage w1).
Proof.
  unfold ensureConnection, try_catch, bind, connectRedis.
  destruct (isConnected w), (isOpen w) eqn:Ho; cbn [negb andb];
    try (exists w; repeat split; auto; fail).
  unfold try_catch, bind, redis_connect. rewrite Ho.
  destruct (faults w (tick w)) eqn:Hf.
  - eexists; split; [reflexivity|]. repeat split; auto.
    intros Hout n Hn. apply Hout. cbn in Hn. lia.
  - eexists; split; [reflexivity|]. repeat split; auto.
    intros Hout. specialize (Hout (tick w) (le_n _)). congruence.
Qed.

Lemma ensureConnection_lost w : lost (snd (ensureConnection w)) = lost w.
Proof.
  unfold ensureConnection, try_catch, bind, connectRedis.
  destruct (isConnected w), (isOpen w) eqn:Ho; cbn [negb andb]; try reflexivity.
  unfold try_catch, bind, redis_connect. rewrite Ho.
  destruct (faults w (tick w)); reflexivity.
Qed.

(** C2. Evaluated in a process that starts while the server is down:
    [redisClient.connect()] rejects, [connectRedis] catches the rejection
    itself, and [ensureConnection] returns true although no connection
    exists; its own [catch], which would return false, is never entered. *)
Theorem ensureConnection_true_when_connect_fails :
  fst (redis_connect down_world) = Thrown ConnectionError /\
  fst (ensureConnection down_world) = Returned true /\
  isOpen (snd (ensureConnection down_world)) = false /\
  stderr (snd (ensureConnection down_world)) = ["Failed to connect to Redis:"].
Proof. repeat split; reflexivity. Qed.

(** ** Rejections are absorbed *)

Lemma clean_ret {A} (a : A) : clean (ret a).
Proof. intros w a' w' [= _ <-]. reflexivity. Qed.

Lemma clean_reject {A} (e : error) : clean (@reject A e).
Proof. intros w a w' [=]. Qed.

Lemma clean_bind {A B} (m : M A) (k : A -> M B) :
  clean m -> (forall a, clean (k a)) -> clean (bind m k).
Proof.
  intros Hm Hk w b w'. unfold bind.
  destruct (m w) as [[a|e] w1] eqn:Em; [|discriminate].
  intros Ek. rewrite (Hk a _ _ _ Ek). eapply Hm, Em.
Qed.

Lemma clean_send {A} (cmd : M A) : clean cmd -> clean (send cmd).
Proof.
  intros Hc w a w'. unfold send.
  destruct (isOpen w); [|discriminate].
  destruct (faults w (tick w)); [discriminate|].
  destruct (lost w (tick w)); [discriminate|].
  intros E. apply Hc in E. exact E.
Qed.

Lemma clean_promise_all2 {A B} (p : M A) (q : M B) :
  clean p -> clean q -> clean (promise_all2 p q).
Proof.
  intros Hp Hq w ab w'. unfold promise_all2.
  destruct (p w) as [ra w1] eqn:Ep. destruct (q w1) as [rb w2] eqn:Eq.
  destruct ra as [a|e]; [|discriminate]. destruct rb as [b|e]; [|discriminate].
  intros [= _ <-]. rewrite (Hq _ _ _ Eq). eapply Hp, Ep.
Qed.

Lemma closed_send {A} (cmd : M A) : closed_throws (send cmd).
Proof.
  intros w Ho. unfold send. rewrite Ho. eexists _, _. repeat split. exact Ho.
Qed.

Lemma closed_reject {A} (e : error) : closed_throws (@reject A e).
Proof. intros w Ho. eexists _, _. repeat split. exact Ho. Qed.

Lemma closed_bind {A B} (m : M A) (k : A -> M B) :
  closed_throws m -> closed_throws (bind m k).
Proof.
  intros Hm w Ho. destruct (Hm w Ho) as (e & w' & E & Hd & Ho').
  exists e, w'. unfold bind. rewrite E. auto.
Qed.

Lemma closed_promise_all2 {A B} (p : M A) (q : M B) :
  closed_throws p -> closed_throws q -> closed_throws (promise_all2 p q).
Proof.
  intros Hp Hq w Ho. destruct (Hp w Ho) as (e & w1 & Ep & Hd1 & Ho1).
  destruct (Hq w1 Ho1) as (e' & w2 & Eq & Hd2 & Ho2).
  exists e, w2. unfold promise_all2. rewrite Ep, Eq. repeat split; congruence.
Qed.

Lemma outage_next_tick w : outage w -> outage (next_tick w).
Proof. intros Hout n Hn. apply Hout. cbn in Hn. lia. Qed.

Lemma outage_send {A} (cmd : M A) : outage_throws (send cmd).
Proof.
  intros w Hout. unfold send. destruct (isOpen w).
  - rewrite (Hout (tick w) (le_n _)). eexists _, _. repeat split.
    apply (outage_next_tick w Hout).
  - eexists _, _. repeat split. exact Hout.
Qed.

Lemma outage_reject {A} (e : error) : outage_throws (@reject A e).
Proof. intros w Hout. eexists _, _. repeat split. exact Hout. Qed.

Lemma outage_bind {A B} (m : M A) (k : A -> M B) :
  outage_throws m -> outage_throws (bind m k).
Proof.
  intros Hm w Hout. destruct (Hm w Hout) as (e & w' & E & Hd & Hout').
  exists e, w'. unfold bind. rewrite E. auto.
Qed.

Lemma outage_promise_all2 {A B} (p : M A) (q : M B) :
  outage_throws p -> outage_throws q -> outage_throws (promise_all2 p q).
Proof.
  intros Hp Hq w Hout. destruct (Hp w Hout) as (e & w1 & Ep & Hd1 & Ho1).
  destruct (Hq w1 Ho1) as (e' & w2 & Eq & Hd2 & Ho2).
  exists e, w2. unfold promise_all2. rewrite Ep, Eq. repeat split; [congruence | exact Ho2].
Qed.

Lemma atomic_ret {A} (a : A) : atomic (ret a).
Proof. intros w e w' _ [=]. Qed.

Lemma atomic_reject {A} (e : error) : atomic (@reject A e).
Proof. intros w e' w' _ [= _ <-]. reflexivity. Qed.

Lemma atomic_send {A} (cmd : M A) : atomic cmd -> atomic (send cmd).
Proof.
  intros Hc w e w' Hl. unfold send.
  destruct (isOpen w); [|intros [= _ <-]; reflexivity].
  destruct (faults w (tick w)); [intros [= _ <-]; reflexivity|].
  rewrite (Hl (tick w)).
  intros E. apply Hc in E; [exact E | exact Hl].
Qed.

Lemma atomic_then_ret {A B} (m : M A) (b : B) :
  atomic m -> atomic (bind m (fun _ => ret b)).
Proof.
  intros Hm w e w' Hl. unfold bind, ret.
  destruct (m w) as [[a|e'] w1] eqn:Em; [discriminate|].
  intros [= _ <-]. eapply Hm; [exact Hl | exact Em].
Qed.

Lemma readonly_atomic {A} (m : M A) : readonly m -> atomic m.
Proof. intros Hm w e w' _ E. eapply Hm, E. Qed.

Lemma atomic_after_query {A B} (f : World -> A) (k : A -> M B) :
  (forall a, atomic (k a)) ->
  atomic (bind (send (fun w => (Returned (f w), w))) k).
Proof.
  intros Hk w e w' Hl. unfold bind, send.
  destruct (isOpen w); [|intros [= _ <-]; reflexivity].
  destruct (faults w (tick w)); [intros [= _ <-]; reflexivity|].
  rewrite (Hl (tick w)).
  intros E. apply (Hk _ (next_tick w)) in E; [exact E | exact Hl].
Qed.

Lemma readonly_send {A} (cmd : M A) : readonly cmd -> readonly (send cmd).
Proof.
  intros Hc w r w'. unfold send.
  destruct (isOpen w); [|intros [= _ <-]; reflexivity].
  destruct (faults w (tick w)); [intros [= _ <-]; reflexivity|].
  destruct (lost w (tick w));
    [intros [= _ <-]; exact (Hc _ _ _ (surjective_pairing _))|].
  intros E. apply Hc in E. exact E.
Qed.

Lemma readonly_bind {A B} (m : M A) (k : A -> M B) :
  readonly m -> (forall a, readonly (k a)) -> readonly (bind m k).
Proof.
  intros Hm Hk w r w'. unfold bind.
  destruct (m w) as [[a|e'] w1] eqn:Em.
  - intros Ek. rewrite (Hk a _ _ _ Ek). eapply Hm, Em.
  - intros [= _ <-]. eapply Hm, Em.
Qed.

(** Every function of the layer has the same outline: guard on
    [ensureConnection], then the store calls, all inside one [try]. *)
Lemma guarded_absorbs {A} (x : A) (K : M A) (handler : error -> M A) (D : A -> Prop) :
  clean K -> closed_throws K -> outage_throws K ->
  (forall e w, exists a w', handler e w = (Returned a, w') /\ D a /\ db w' = db w) ->
  forall w,
  exists a w',
    try_catch (await ok <- ensureConnection in if negb ok then ret x else K) handler w
      = (Returned a, w') /\
    (rejected w' <> rejected w -> D a) /\
    (outage w -> D a /\ db w' = db w) /\
    (atomic K -> lossless w -> rejected w' <> rejected w -> db w' = db w).
Proof.
  intros Hclean Hclosed Hout Hh w.
  destruct (ensureConnection_facts w) as (w1 & E1 & Hd1 & _ & Hr1 & Ho1).
  pose proof (ensureConnection_lost w) as Hlost. rewrite E1 in Hlost. cbn [snd] in Hlost.
  unfold try_catch, bind. rewrite E1. cbn [negb].
  destruct (K w1) as [[a|e] w2] eqn:EK.
  - exists a, w2. split; [reflexivity|].
    assert (Hsame : rejected w2 = rejected w).
    { rewrite (Hclean _ _ _ EK). destruct Hr1 as [Hr1|Hr1]; [exact Hr1|].
      destruct (Hclosed w1 Hr1) as (e & w' & E & _). congruence. }
    split; [intros Hne; contradiction|]. split; [|intros _ _ Hne; contradiction].
    intros Hw. destruct (Hout w1 (Ho1 Hw)) as (e & w' & E & _). congruence.
  - destruct (Hh e w2) as (a & w3 & Eh & HD & Hd3).
    exists a, w3. split; [exact Eh|]. split; [auto|]. split.
    + intros Hw. split; [exact HD|].
      destruct (Hout w1 (Ho1 Hw)) as (e' & w' & E & Hd' & _).
      rewrite EK in E. injection E as _ <-. congruence.
    + intros Hat Hl _. rewrite Hd3, (Hat _ _ _ (fun n => eq_trans (f_equal (fun l => l n) Hlost) (Hl n)) EK).
      exact Hd1.
Qed.

(** Settles what one server command does with the rejection counter and
    the keyspace, by cases on its branches. *)
Ltac by_cases_of E :=
  repeat match type of E with
         | context [match ?x with _ => _ end] => destruct x
         end;
  cbv [reject ret throw] in E;
  try discriminate;
  injection E as <- <-; reflexivity.

Ltac cmd_clean :=
  let E := fresh "E" in
  match goal with
  | |- clean _ => intros ? ? ? E; by_cases_of E
  | |- atomic _ => intros ? ? ? ? E; by_cases_of E
  | |- readonly _ => intros ? ? ? E; by_cases_of E
  end.

Ltac absorb :=
  repeat first
    [ apply clean_ret | apply clean_reject | apply clean_send | apply clean_promise_all2
    | apply clean_bind
    | apply closed_send | apply closed_reject | apply closed_promise_all2 | apply closed_bind
    | apply outage_send | apply outage_reject | apply outage_promise_all2 | apply outage_bind
    | apply atomic_ret | apply atomic_reject | apply atomic_then_ret | apply atomic_send
    | apply readonly_bind | apply readonly_send
    | match goal with
      | |- forall _, clean _ => intro
      | |- forall _, atomic _ => intro
      | |- forall _, readonly _ => intro
      end ];
  try cmd_clean.

Section Absorb.
Context `{JSON}.

Lemma parse_if_truthy_clean cached : clean (parse_if_truthy cached).
Proof. unfold parse_if_truthy. cmd_clean. Qed.

Lemma parse_if_truthy_readonly cached : readonly (parse_if_truthy cached).
Proof. unfold parse_if_truthy. cmd_clean. Qed.

Lemma get_at_absorbs key w :
  exists a w', get_at key w = (Returned a, w') /\
    (rejected w' <> rejected w -> a = JNull) /\
    (outage w -> a = JNull /\ db w' = db w) /\
    (lossless w -> rejected w' <> rejected w -> db w' = db w).
Proof.
  destruct (guarded_absorbs JNull
              (await cached <- redis_get key in parse_if_truthy cached)
              (fun error => perform console_error "Cache get error:" error in ret JNull)
              (fun a => a = JNull)) with (w := w) as (a & w' & E & H1 & H2 & H3).
  - apply clean_bind; [unfold redis_get; absorb | apply parse_if_truthy_clean].
  - unfold redis_get; absorb.
  - unfold redis_get; absorb.
  - intros e w0. eexists _, _. repeat split.
  - exists a, w'. split; [exact E|]. split; [exact H1|]. split; [exact H2|].
    apply H3. apply readonly_atomic, readonly_bind;
      [unfold redis_get; absorb | apply parse_if_truthy_readonly].
Qed.

End Absorb.

Section AbsorbWrites.
Context `{JSON}.

Lemma redis_setEx_clean key ttl value : clean (redis_setEx key ttl value).
Proof. unfold redis_setEx. destruct value; absorb. Qed.

Lemma redis_setEx_closed key ttl value : closed_throws (redis_setEx key ttl value).
Proof. unfold redis_setEx. destruct value; absorb. Qed.

Lemma redis_setEx_outage key ttl value : outage_throws (redis_setEx key ttl value).
Proof. unfold redis_setEx. destruct value; absorb. Qed.

Lemma redis_setEx_atomic key ttl value : atomic (redis_setEx key ttl value).
Proof. unfold redis_setEx. destruct value; absorb. Qed.

Lemma console_error_handles label (D : unit -> Prop) :
  D tt ->
  forall (e : error) (w : World),
    exists a w', console_error label e w = (Returned a, w') /\ D a /\ db w' = db w.
Proof. intros HD e w. exists tt, (print_error label w). repeat split. exact HD. Qed.

Lemma set_at_absorbs key ttl v w :
  exists w', set_at key ttl v w = (Returned tt, w') /\
    (outage w -> db w' = db w) /\
    (lossless w -> rejected w' <> rejected w -> db w' = db w).
Proof.
  destruct (guarded_absorbs tt (redis_setEx key ttl (JSON_stringify v))
              (fun error => console_error "Cache set error:" error)
              (fun _ => True)) with (w := w) as ([] & w' & E & H1 & H2 & H3).
  - apply redis_setEx_clean.
  - apply redis_setEx_closed.
  - apply redis_setEx_outage.
  - now apply console_error_handles.
  - exists w'. split; [exact E|]. split; [intros Hw; now apply H2|].
    apply H3, redis_setEx_atomic.
Qed.

Lemma del_at_absorbs label key w :
  exists w', del_at label key w = (Returned tt, w') /\
    (outage w -> db w' = db w) /\
    (lossless w -> rejected w' <> rejected w -> db w' = db w).
Proof.
  destruct (guarded_absorbs tt (perform redis_del [key] in ret tt)
              (fun error => console_error label error)
              (fun _ => True)) with (w := w) as ([] & w' & E & H1 & H2 & H3).
  - unfold redis_del; absorb.
  - unfold redis_del; absorb.
  - unfold redis_del; absorb.
  - now apply console_error_handles.
  - exists w'. split; [exact E|]. split; [intros Hw; now apply H2|].
    apply H3. unfold redis_del; absorb.
Qed.

Lemma invalidateTaskCache_absorbs taskId userId w :
  exists w', invalidateTaskCache taskId userId w = (Returned tt, w') /\
    (outage w -> db w' = db w).
Proof.
  destruct (guarded_absorbs tt
              (perform promise_all2 (redis_del [task_key taskId])
                                    (redis_del [tasks_key userId]) in ret tt)
              (fun error => console_error "Cache invalidation error:" error)
              (fun _ => True)) with (w := w) as ([] & w' & E & H1 & H2 & H3).
  - unfold redis_del; absorb.
  - unfold redis_del; absorb.
  - unfold redis_del; absorb.
  - now apply console_error_handles.
  - exists w'. split; [exact E|]. intros Hw; now apply H2.
Qed.

End AbsorbWrites.

Lemma storeSession_absorbs userId tokenId token w :
  exists w', storeSession userId tokenId token w = (Returned tt, w') /\
    (outage w -> db w' = db w) /\
    (lossless w -> rejected w' <> rejected w -> db w' = db w).
Proof.
  destruct (guarded_absorbs tt
              (redis_setEx (session_key userId tokenId) CACHE_TTL.SESSION (Some token))
              (fun error => console_error "Session store error:" error)
              (fun _ => True)) with (w := w) as ([] & w' & E & H1 & H2 & H3).
  - apply redis_setEx_clean.
  - apply redis_setEx_closed.
  - apply redis_setEx_outage.
  - now apply console_error_handles.
  - exists w'. split; [exact E|]. split; [intros Hw; now apply H2|].
    apply H3, redis_setEx_atomic.
Qed.

Lemma validateSession_absorbs userId tokenId w :
  exists a w', validateSession userId tokenId w = (Returned a, w') /\
    (rejected w' <> rejected w -> a = true) /\
    (outage w -> a = true /\ db w' = db w) /\
    (lossless w -> rejected w' <> rejected w -> db w' = db w).
Proof.
  destruct (guarded_absorbs true
              (await exists_ <- redis_exists (session_key userId tokenId) in
               ret (exists_ =? 1))
              (fun error => perform console_error "Session validation error:" error in ret true)
              (fun a => a = true)) with (w := w) as (a & w' & E & H1 & H2 & H3).
  - unfold redis_exists; absorb.
  - unfold redis_exists; absorb.
  - unfold redis_exists; absorb.
  - intros e w0. eexists _, _. repeat split.
  - exists a, w'. split; [exact E|]. split; [exact H1|]. split; [exact H2|].
    apply H3. apply readonly_atomic. unfold redis_exists; absorb.
Qed.

Lemma revokeAllUserSessions_absorbs userId w :
  exists w', revokeAllUserSessions userId w = (Returned tt, w') /\
    (outage w -> db w' = db w) /\
    (lossless w -> rejected w' <> rejected w -> db w' = db w).
Proof.
  destruct (guarded_absorbs tt
              (await keys <- redis_keys ("session:" +:+ userId +:+ ":*") in
               if (0 <? Z.of_nat (length keys))
               then perform redis_del keys in ret tt
               else ret tt)
              (fun error => console_error "Session revocation error:" error)
              (fun _ => True)) with (w := w) as ([] & w' & E & H1 & H2 & H3).
  - apply clean_bind; [unfold redis_keys; absorb|].
    intros keys. destruct (0 <? Z.of_nat (length keys)); unfold redis_del; absorb.
  - unfold redis_keys; absorb.
  - unfold redis_keys; absorb.
  - now apply console_error_handles.
  - exists w'. split; [exact E|]. split; [intros Hw; now apply H2|].
    apply H3. unfold redis_keys. apply atomic_after_query.
    intros keys. destruct (0 <? Z.of_nat (length keys)); unfold redis_del; absorb.
Qed.

Lemma checkRateLimit_absorbs userId endpoint maxRequests w :
  exists a w', checkRateLimit userId endpoint maxRequests w = (Returned a, w') /\
    (rejected w' <> rejected w -> a = mkRateLimit true maxRequests) /\
    (outage w -> a = mkRateLimit true maxRequests /\ db w' = db w).
Proof.
  destruct (guarded_absorbs (mkRateLimit true maxRequests)
              (await reply <- redis_incr (ratelimit_key userId endpoint) in
               let current := Number_of_Z reply in
               perform (if current =? 1
                        then perform redis_expire (ratelimit_key userId endpoint) 60 in ret tt
                        else ret tt) in
               ret (mkRateLimit (current <=? maxRequests)
                                (Z.max 0 (Number_of_Z (maxRequests - current)))))
              (fun error =>
                 perform console_error "Rate limit error:" error in
                 ret (mkRateLimit true maxRequests))
              (fun a => a = mkRateLimit true maxRequests)) with (w := w)
    as (a & w' & E & H1 & H2 & H3).
  - apply clean_bind; [unfold redis_incr; absorb|].
    intros reply. cbv zeta. apply clean_bind; [|absorb].
    destruct (Number_of_Z reply =? 1); unfold redis_expire; absorb.
  - unfold redis_incr; absorb.
  - unfold redis_incr; absorb.
  - intros e w0. eexists _, _. repeat split.
  - exists a, w'. split; [exact E|]. split; [exact H1|]. exact H2.
Qed.

Lemma getCacheStats_absorbs w :
  exists a w', getCacheStats w = (Returned a, w') /\
    (rejected w' <> rejected w -> connected a = false) /\
    (outage w -> connected a = false /\ db w' = db w) /\
    (lossless w -> rejected w' <> rejected w -> db w' = db w).
Proof.
  destruct (guarded_absorbs (mkCacheStats false None None None)
              (await info <- redis_info "stats" in
               await dbSize <- redis_dbSize in
               ret (mkCacheStats true (Some dbSize) (Some info) None))
              (fun error =>
                 perform console_error "Cache stats error:" error in
                 ret (mkCacheStats false None None (Some (String_of_error error))))
              (fun a => connected a = false)) with (w := w)
    as (a & w' & E & H1 & H2 & H3).
  - unfold redis_info, redis_dbSize; absorb.
  - unfold redis_info; absorb.
  - unfold redis_info; absorb.
  - intros e w0. eexists _, _. repeat split.
  - exists a, w'. split; [exact E|]. split; [exact H1|]. split; [exact H2|].
    apply H3. apply readonly_atomic. unfold redis_info, redis_dbSize; absorb.
Qed.

(** What [invalidateTaskCache] does in any state: both deletes are sent
    once the connection has been looked after, and each one that reaches
    the server is performed, whatever happens to the other and to the
    replies. *)
Lemma invalidateTaskCache_effect taskId userId w :
  let w1 := snd (ensureConnection w) in
  db (snd (invalidateTaskCache taskId userId w))
  = less (reaches w1 (S (tick w1))) (tasks_key userId)
         (less (reaches w1 (tick w1)) (task_key taskId) (db w)).
Proof.
  cbn zeta.
  destruct (ensureConnection_facts w) as (w1 & E1 & Hd1 & _).
  unfold invalidateTaskCache, try_catch, bind. rewrite E1. cbn [negb snd].
  rewrite <- Hd1. unfold reaches, less, promise_all2, redis_del, send, reject.
  destruct (isOpen w1) eqn:Ho; cbn [andb negb].
  - destruct (faults w1 (tick w1)) eqn:Hf1; [|destruct (lost w1 (tick w1)) eqn:Hl1];
      cbn [negb isOpen faults lost tick next_tick set_db count_rejection snd fst];
      rewrite ?Ho;
      (destruct (faults w1 (S (tick w1))) eqn:Hf2;
       [|destruct (lost w1 (S (tick w1))) eqn:Hl2]);
      reflexivity.
  - cbn [isOpen count_rejection]. rewrite Ho. reflexivity.
Qed.

(** C1, as stated, fails for [invalidateTaskCache]: when the first of its
    two deletes is cut and the second goes through, the function returns
    silently, but it was not a no-op: [tasks:u1] is gone. *)
Lemma invalidateTaskCache_partial_failure_not_noop :
  let w' := snd (invalidateTaskCache "t7" "u1" flaky_world) in
  fst (invalidateTaskCache "t7" "u1" flaky_world) = Returned tt /\
  rejected w' = S (rejected flaky_world) /\
  db flaky_world !! tasks_key "u1" = Some ("[]", None) /\
  db w' !! tasks_key "u1" = None /\
  db w' <> db flaky_world.
Proof.
  cbn zeta. split; [reflexivity|]. split; [reflexivity|].
  split; [reflexivity|]. split; [vm_compute; reflexivity|].
  intros E. apply (f_equal (fun m => m !! tasks_key "u1")) in E.
  vm_compute in E. discriminate E.
Qed.

(** A call whose reply is lost is not a no-op either: the set below is
    run by the server, and the function logs the rejection and returns. *)
Lemma setCachedUser_lost_reply_takes_effect :
  let w' := snd (setCachedUser (H := ecma_JSON) "u1" JNull lossy_world) in
  fst (setCachedUser (H := ecma_JSON) "u1" JNull lossy_world) = Returned tt /\
  rejected w' = S (rejected lossy_world) /\
  db lossy_world !! user_key "u1" = None /\
  db w' !! user_key "u1" = Some ("null", Some 3600).
Proof.
  cbn zeta. split; [reflexivity|]. split; [reflexivity|].
  split; [reflexivity|]. vm_compute. reflexivity.
Qed.

(** C1, amended.  Every function of the layer returns, in every world: no
    error passes its boundary.  Whenever a call on the client rejects
    while it runs, and in particular when the store is unreachable, it
    returns its degraded result: null from a get, nothing from a set, an
    invalidation or a revocation, true from [validateSession],
    [{allowed: true, remaining: maxRequests}] from [checkRateLimit] and
    [connected: false] from [getCacheStats].  It is not always a no-op on
    the store.  When the store is unreachable no key is changed.  When
    calls reject and none has lost its reply, so that a call that failed
    did not reach the server, a function other than [invalidateTaskCache]
    and [checkRateLimit] changes no key.  [invalidateTaskCache] sends its
    two deletes together, and each of them that reaches the server is
    performed, whatever happens to the other: the keyspace afterwards is
    the one before, less [task:t] if the first delete reached the server
    and less [tasks:u] if the second did. *)
Theorem cache_layer_absorbs_failures `{JSON} :
  forall (r : request) (w : World),
  exists (a : reply) (w' : World),
    handle r w = (Returned a, w') /\
    (rejected w' <> rejected w -> degraded r a) /\
    (outage w -> degraded r a /\ db w' = db w) /\
    (single_effect r = true -> lossless w -> rejected w' <> rejected w -> db w' = db w) /\
    (forall taskId userId,
        r = InvalidateTaskCache taskId userId ->
        let w1 := snd (ensureConnection w) in
        db w' = less (reaches w1 (S (tick w1))) (tasks_key userId)
                     (less (reaches w1 (tick w1)) (task_key taskId) (db w))).
Proof.
  intros r w. destruct r; unfold handle, lift, single_effect, degraded.
  - rewrite getCachedUser_shape.
    destruct (get_at_absorbs (user_key userId) w) as (a & w' & -> & H1 & H2 & H3).
    exists (Value a), w'. split; [reflexivity | intuition (auto; discriminate)].
  - rewrite setCachedUser_shape.
    destruct (set_at_absorbs (user_key userId) CACHE_TTL.USER userData w)
      as (w' & -> & H2 & H3).
    exists Done, w'. split; [reflexivity | intuition (auto; discriminate)].
  - rewrite invalidateUserCache_shape.
    destruct (del_at_absorbs "Cache invalidation error:" (user_key userId) w)
      as (w' & -> & H2 & H3).
    exists Done, w'. split; [reflexivity | intuition (auto; discriminate)].
  - rewrite getCachedTasks_shape.
    destruct (get_at_absorbs (tasks_key userId) w) as (a & w' & -> & H1 & H2 & H3).
    exists (Value a), w'. split; [reflexivity | intuition (auto; discriminate)].
  - rewrite setCachedTasks_shape.
    destruct (set_at_absorbs (tasks_key userId) CACHE_TTL.TASKS tasks w)
      as (w' & -> & H2 & H3).
    exists Done, w'. split; [reflexivity | intuition (auto; discriminate)].
  - rewrite invalidateTasksCache_shape.
    destruct (del_at_absorbs "Cache invalidation error:" (tasks_key userId) w)
      as (w' & -> & H2 & H3).
    exists Done, w'. split; [reflexivity | intuition (auto; discriminate)].
  - rewrite getCachedTask_shape.
    destruct (get_at_absorbs (task_key taskId) w) as (a & w' & -> & H1 & H2 & H3).
    exists (Value a), w'. split; [reflexivity | intuition (auto; discriminate)].
  - rewrite setCachedTask_shape.
    destruct (set_at_absorbs (task_key taskId) CACHE_TTL.TASK task w)
      as (w' & -> & H2 & H3).
    exists Done, w'. split; [reflexivity | intuition (auto; discriminate)].
  - pose proof (invalidateTaskCache_effect taskId userId w) as Heffect.
    destruct (invalidateTaskCache_absorbs taskId userId w) as (w' & E & H2).
    rewrite E in Heffect |- *. cbn [snd] in Heffect.
    exists Done, w'. split; [reflexivity|].
    split; [auto|]. split; [auto|]. split; [discriminate|].
    intros t u [= <- <-]. exact Heffect.
  - destruct (storeSession_absorbs userId tokenId token w) as (w' & -> & H2 & H3).
    exists Done, w'. split; [reflexivity | intuition (auto; discriminate)].
  - destruct (validateSession_absorbs userId tokenId w) as (a & w' & -> & H1 & H2 & H3).
    exists (Verdict a), w'. split; [reflexivity | intuition (auto; discriminate)].
  - rewrite revokeSession_shape.
    destruct (del_at_absorbs "Session revocation error:" (session_key userId tokenId) w)
      as (w' & -> & H2 & H3).
    exists Done, w'. split; [reflexivity | intuition (auto; discriminate)].
  - destruct (revokeAllUserSessions_absorbs userId w) as (w' & -> & H2 & H3).
    exists Done, w'. split; [reflexivity | intuition (auto; discriminate)].
  - destruct (checkRateLimit_absorbs userId endpoint maxRequests w)
      as (a & w' & -> & H1 & H2).
    exists (Limit a), w'. split; [reflexivity | intuition (auto; discriminate)].
  - destruct (getCacheStats_absorbs w) as (a & w' & -> & H1 & H2 & H3).
    exists (Stats a), w'. split; [reflexivity | intuition (auto; discriminate)].
Qed.

Lemma outage_down_world : outage down_world.
Proof. intros n _. reflexivity. Qed.

Lemma cache_layer_absorbs_failures_witness :
  exists (a : reply) (w' : World),
    handle (ValidateSession "u1" "t1") down_world = (Returned a, w') /\
    degraded (ValidateSession "u1" "t1") a /\ db w' = db down_world.
Proof.
  destruct (cache_layer_absorbs_failures (ValidateSession "u1" "t1") down_world)
    as (a & w' & E & _ & Hout & _ & _).
  exists a, w'. split; [exact E|]. apply Hout. exact outage_down_world.
Defined.

(** ** What a get can return *)

Lemma getCached_shape `{JSON} t id : getCached t id = get_at (entity_key t id).
Proof. destruct t; reflexivity. Qed.

Lemma setCached_shape `{JSON} t id v :
  setCached t id v = set_at (entity_key t id) (entity_ttl t) v.
Proof. destruct t; reflexivity. Qed.

(** In any world, reachable or not, a get returns: null, or the value that
    the payload stored at its key parses to. *)
Lemma get_at_result `{JSON} key w :
  exists a w', get_at key w = (Returned a, w') /\
    (a = JNull \/
     exists text d, live w key = Some (text, d) /\ db w !! key = Some (text, d) /\
                    text <> EmptyString /\ JSON_parse text = Some a).
Proof.
  destruct (ensureConnection_facts w) as (w1 & E1 & Hd1 & Hn1 & _).
  unfold get_at, try_catch, bind. rewrite E1. cbn [negb].
  unfold redis_get, send.
  destruct (isOpen w1); [|eexists _, _; split; [reflexivity | now left]].
  destruct (faults w1 (tick w1)); [eexists _, _; split; [reflexivity | now left]|].
  destruct (lost w1 (tick w1)); [eexists _, _; split; [reflexivity | now left]|].
  rewrite live_next_tick, (live_ext w w1) by assumption.
  destruct (live w key) as [[text d]|] eqn:Hl;
    cbn [fmap option_fmap option_map fst parse_if_truthy];
    [|eexists _, _; split; [reflexivity | now left]].
  pose proof (live_Some _ _ _ _ Hl) as [Hdb _].
  destruct text as [|c text]; [eexists _, _; split; [reflexivity | now left]|].
  destruct (JSON_parse (String c text)) as [v|] eqn:Hp.
  - eexists _, _; split; [reflexivity|]. right. exists (String c text), d.
    repeat split; [exact Hdb | discriminate | exact Hp].
  - eexists _, _; split; [reflexivity | now left].
Qed.

(** C9. When the payload stored at the key of a user, a task list or a
    task does not parse as JSON, the get returns null and throws nothing,
    which is also what it does when the key is missing. *)
Theorem getCached_corrupt_payload_is_a_miss `{JSON} :
  forall (t : entity) (id payload : string) (deadline : option Z) (w : World),
    db w !! entity_key t id = Some (payload, deadline) ->
    JSON_parse payload = None ->
    fst (getCached t id w) = Returned JNull /\
    forall w0 : World,
      db w0 !! entity_key t id = None -> fst (getCached t id w0) = Returned JNull.
Proof.
  intros t id payload deadline w Hdb Hp. rewrite getCached_shape. split.
  - destruct (get_at_result (entity_key t id) w) as (a & w' & -> & [->|Hv]); [reflexivity|].
    destruct Hv as (text & d & _ & Hdb' & _ & Hp'). congruence.
  - intros w0 Hdb0.
    destruct (get_at_result (entity_key t id) w0) as (a & w' & -> & [->|Hv]); [reflexivity|].
    destruct Hv as (text & d & _ & Hdb' & _). congruence.
Qed.

Lemma getCached_corrupt_payload_is_a_miss_witness :
  fst (getCached User "u1" corrupt_world) = Returned JNull /\
  forall w0 : World,
    db w0 !! entity_key User "u1" = None -> fst (getCached User "u1" w0) = Returned JNull.
Proof.
  apply (getCached_corrupt_payload_is_a_miss User "u1" "{oops" None corrupt_world).
  - reflexivity.
  - reflexivity.
Defined.

Lemma entity_ttl_pos t : 0 < entity_ttl t.
Proof. destruct t; reflexivity. Qed.

(** A set followed by a get, in a reachable store: the get decodes the text
    that [JSON.stringify] wrote. *)
Lemma get_after_set `{JSON} t id v text w :
  reachable w -> JSON_stringify v = Some text ->
  fst (getCached t id (snd (setCached t id v w))) = Returned (decode (Some text)).
Proof.
  intros Hr Hv. rewrite getCached_shape, setCached_shape.
  destruct (set_at_reachable (entity_key t id) (entity_ttl t) v text w Hr
              (entity_ttl_pos t) Hv) as (w1 & -> & Hr1 & Hn1 & Hd1).
  cbn [snd].
  destruct (get_at_reachable (entity_key t id) w1 (ready_reachable _ Hr1))
    as (w2 & -> & _).
  cbn [fst]. do 2 f_equal.
  rewrite (live_lookup w1 _ text (Some (now w1 + entity_ttl t))).
  - reflexivity.
  - rewrite Hd1, Hn1. apply lookup_insert_eq.
  - apply expired_later, entity_ttl_pos.
Qed.

(** C10. A payload that is falsy once read is a miss: when the key of a
    user, a task list or a task holds the empty string, or a text that
    parses to null, the get returns null, as it does when the key is
    absent; so it does right after null itself has been cached. *)
Theorem getCached_falsy_payload_is_a_miss `{JSON} :
  forall (t : entity) (id : string) (w : World),
    (forall deadline,
        db w !! entity_key t id = Some (EmptyString, deadline) ->
        fst (getCached t id w) = Returned JNull) /\
    (forall payload deadline,
        db w !! entity_key t id = Some (payload, deadline) ->
        JSON_parse payload = Some JNull ->
        fst (getCached t id w) = Returned JNull) /\
    (db w !! entity_key t id = None -> fst (getCached t id w) = Returned JNull) /\
    (forall text,
        reachable w ->
        JSON_stringify JNull = Some text -> JSON_parse text = Some JNull ->
        fst (getCached t id (snd (setCached t id JNull w))) = Returned JNull).
Proof.
  intros t id w. repeat split.
  - intros d Hdb. rewrite getCached_shape.
    destruct (get_at_result (entity_key t id) w) as (a & w' & -> & [->|Hv]); [reflexivity|].
    destruct Hv as (text & d' & _ & Hdb' & Hne & _). congruence.
  - intros payload d Hdb Hp. rewrite getCached_shape.
    destruct (get_at_result (entity_key t id) w) as (a & w' & -> & [->|Hv]); [reflexivity|].
    destruct Hv as (text & d' & _ & Hdb' & _ & Hp'). cbn [fst]. congruence.
  - intros Hdb. rewrite getCached_shape.
    destruct (get_at_result (entity_key t id) w) as (a & w' & -> & [->|Hv]); [reflexivity|].
    destruct Hv as (text & d' & _ & Hdb' & _). congruence.
  - intros text Hr Hs Hp. rewrite (get_after_set t id JNull text w Hr Hs).
    unfold decode. rewrite Hp. now destruct text.
Qed.

Lemma getCached_falsy_payload_is_a_miss_witness :
  fst (getCached User "u1" blank_world) = Returned JNull /\
  fst (getCached User "u1" (snd (setCached User "u1" JNull fresh_world))) = Returned JNull.
Proof.
  destruct (getCached_falsy_payload_is_a_miss User "u1" blank_world) as (H1 & _).
  destruct (getCached_falsy_payload_is_a_miss User "u1" fresh_world) as (_ & _ & _ & H4).
  split.
  - apply (H1 None). reflexivity.
  - apply (H4 "null"); [exact fresh_world_reachable | reflexivity | reflexivity].
Defined.

(** ** Entries only fade *)

Lemma keeps_refl key w : keeps key w w.
Proof. now left. Qed.

Lemma keeps_same key w w' : db w' = db w -> keeps key w w'.
Proof. intros E. left. now rewrite E. Qed.

Lemma keeps_trans key w1 w2 w3 : keeps key w1 w2 -> keeps key w2 w3 -> keeps key w1 w3.
Proof. unfold keeps. intros [H1|H1] [H2|H2]; rewrite ?H2, ?H1; auto. Qed.

Lemma expires_by_keeps key bound w w' :
  keeps key w w' -> expires_by key bound w -> expires_by key bound w'.
Proof. unfold keeps, expires_by. intros [->| ->]; auto. Qed.

Lemma expires_by_dead key bound w :
  expires_by key bound w -> bound < now w -> live w key = None.
Proof.
  unfold expires_by, live. destruct (db w !! key) as [[v [d|]]|]; try easy.
  intros Hd Hb. unfold expired. destruct (Z.leb_spec d (now w)); [reflexivity | lia].
Qed.

Lemma fades_ret {A} key (a : A) : fades key (ret a).
Proof. intros w r w' [= _ <-]. (apply keeps_same; reflexivity). Qed.

Lemma fades_reject {A} key (e : error) : fades key (@reject A e).
Proof. intros w r w' [= _ <-]. (apply keeps_same; reflexivity). Qed.

Lemma fades_throw {A} key (e : error) : fades key (@throw A e).
Proof. intros w r w' [= _ <-]. (apply keeps_same; reflexivity). Qed.

Lemma fades_console_error key label e : fades key (console_error label e).
Proof. intros w r w' [= _ <-]. (apply keeps_same; reflexivity). Qed.

Lemma fades_bind {A B} key (m : M A) (k : A -> M B) :
  fades key m -> (forall a, fades key (k a)) -> fades key (bind m k).
Proof.
  intros Hm Hk w r w'. unfold bind.
  destruct (m w) as [[a|e] w1] eqn:Em.
  - intros Ek. eapply keeps_trans; [eapply Hm, Em | eapply Hk, Ek].
  - intros [= _ <-]. eapply Hm, Em.
Qed.

Lemma fades_try_catch {A} key (body : M A) (handler : error -> M A) :
  fades key body -> (forall e, fades key (handler e)) -> fades key (try_catch body handler).
Proof.
  intros Hb Hh w r w'. unfold try_catch.
  destruct (body w) as [[a|e] w1] eqn:Eb.
  - intros [= _ <-]. eapply Hb, Eb.
  - intros Eh. eapply keeps_trans; [eapply Hb, Eb | eapply Hh, Eh].
Qed.

Lemma fades_send {A} key (cmd : M A) : fades key cmd -> fades key (send cmd).
Proof.
  intros Hc w r w'. unfold send.
  destruct (isOpen w); [|intros [= _ <-]; (apply keeps_same; reflexivity)].
  destruct (faults w (tick w)); [intros [= _ <-]; (apply keeps_same; reflexivity)|].
  destruct (lost w (tick w));
    [intros [= _ <-]; exact (Hc _ _ _ (surjective_pairing _))|].
  intros E. apply Hc in E. exact E.
Qed.

Lemma fades_promise_all2 {A B} key (p : M A) (q : M B) :
  fades key p -> fades key q -> fades key (promise_all2 p q).
Proof.
  intros Hp Hq w r w'. unfold promise_all2.
  destruct (p w) as [ra w1] eqn:Ep. destruct (q w1) as [rb w2] eqn:Eq.
  intros E. assert (w' = w2) as -> by (destruct ra, rb; congruence).
  eapply keeps_trans; [eapply Hp, Ep | eapply Hq, Eq].
Qed.

Lemma fades_lift {A} key (f : A -> reply) (m : M A) : fades key m -> fades key (lift f m).
Proof.
  intros Hm w r w'. unfold lift. destruct (m w) as [[a|e] w1] eqn:Em;
    intros [= _ <-]; eapply Hm, Em.
Qed.

Lemma fades_ensureConnection key : fades key ensureConnection.
Proof.
  intros w r w' E. destruct (ensureConnection_facts w) as (w1 & E1 & Hd & _).
  rewrite E1 in E. injection E as _ <-. now apply keeps_same.
Qed.

Lemma lookup_foldr_delete (m : gmap string entry) (keys : list string) (key : string) :
  foldr delete m keys !! key = m !! key \/ foldr delete m keys !! key = None.
Proof.
  induction keys as [|k keys IH]; cbn [foldr]; [now left|].
  destruct (decide (k = key)) as [->|Hne].
  - right. apply lookup_delete_eq.
  - rewrite lookup_delete_ne by exact Hne. exact IH.
Qed.

Lemma fades_redis_del key keys : fades key (redis_del keys).
Proof.
  apply fades_send. intros w r w' [= _ <-]. apply lookup_foldr_delete.
Qed.

Lemma fades_redis_setEx key key' ttl value :
  key' <> key -> fades key (redis_setEx key' ttl value).
Proof.
  intros Hne. unfold redis_setEx. destruct value; [|apply fades_reject].
  apply fades_send. intros w r w'. destruct (ttl <=? 0); intros [= _ <-].
  - (apply keeps_same; reflexivity).
  - left. cbn [db set_db]. now apply lookup_insert_ne.
Qed.

Lemma fades_redis_incr key key' : key' <> key -> fades key (redis_incr key').
Proof.
  intros Hne. apply fades_send. intros w r w' E.
  assert (Hins : forall e, keeps key w (set_db (<[key' := e]> (db w)) w)).
  { intros e. left. cbn [db set_db]. now apply lookup_insert_ne. }
  destruct (live w key') as [[v d]|]; [|injection E as _ <-; apply Hins].
  destruct (Z_of_string v); [|injection E as _ <-; (apply keeps_same; reflexivity)].
  destruct (_ && _); injection E as _ <-; [apply Hins | (apply keeps_same; reflexivity)].
Qed.

Lemma fades_redis_expire key key' seconds :
  key' <> key -> fades key (redis_expire key' seconds).
Proof.
  intros Hne. apply fades_send. intros w r w' E.
  destruct (live w key') as [[v d]|] eqn:Hl;
    [|injection E as _ <-; apply keeps_same; reflexivity].
  destruct (seconds <=? 0); injection E as _ <-; left; cbn [db set_db].
  - now apply lookup_delete_ne.
  - now apply lookup_insert_ne.
Qed.

Lemma fades_redis_get key key' : fades key (redis_get key').
Proof. apply fades_send. intros w r w' [= _ <-]. apply keeps_same; reflexivity. Qed.

Lemma fades_redis_exists key key' : fades key (redis_exists key').
Proof. apply fades_send. intros w r w' [= _ <-]. apply keeps_same; reflexivity. Qed.

Lemma fades_redis_keys key pattern : fades key (redis_keys pattern).
Proof. apply fades_send. intros w r w' [= _ <-]. apply keeps_same; reflexivity. Qed.

Lemma fades_redis_info key section : fades key (redis_info section).
Proof. apply fades_send. intros w r w' [= _ <-]. apply keeps_same; reflexivity. Qed.

Lemma fades_redis_dbSize key : fades key redis_dbSize.
Proof. apply fades_send. intros w r w' [= _ <-]. apply keeps_same; reflexivity. Qed.

Lemma fades_parse_if_truthy `{JSON} key cached : fades key (parse_if_truthy cached).
Proof.
  unfold parse_if_truthy. destruct cached as [[|c text]|]; try apply fades_ret.
  destruct (JSON_parse _); [apply fades_ret | apply fades_throw].
Qed.

Ltac fade :=
  repeat first
    [ apply fades_ensureConnection
    | apply fades_lift | apply fades_try_catch | apply fades_bind
    | apply fades_ret | apply fades_console_error
    | apply fades_throw | apply fades_reject | apply fades_promise_all2
    | apply fades_redis_del | apply fades_redis_get | apply fades_redis_exists
    | apply fades_redis_keys | apply fades_redis_info | apply fades_redis_dbSize
    | apply fades_parse_if_truthy
    | solve [apply fades_redis_setEx; congruence]
    | solve [apply fades_redis_incr; auto]
    | solve [apply fades_redis_expire; auto]
    | match goal with
      | |- forall _, fades _ _ => intro
      | |- fades _ (if ?b then _ else _) => destruct b
      end ].

(** A request that does not set [key] leaves its entry as it is, or
    deletes it; it never extends its life. *)
Lemma handle_fades `{JSON} key r :
  sets r <> Some key ->
  (forall u e, ratelimit_key u e <> key) ->
  fades key (handle r).
Proof.
  intros Hs Hc.
  destruct r; cbn [sets] in Hs;
    unfold handle, getCachedUser, setCachedUser, invalidateUserCache,
      getCachedTasks, setCachedTasks, invalidateTasksCache,
      getCachedTask, setCachedTask, invalidateTaskCache,
      storeSession, validateSession, revokeSession, revokeAllUserSessions,
      checkRateLimit, getCacheStats;
    fade.
Qed.

Lemma run_fades `{JSON} key bound events :
  no_reset key events ->
  (forall u e, ratelimit_key u e <> key) ->
  forall w, expires_by key bound w -> expires_by key bound (run events w).
Proof.
  intros Hn Hc. induction Hn as [|[r|seconds] events Hr _ IH]; intros w Hw; cbn [run].
  - exact Hw.
  - apply IH. eapply expires_by_keeps; [|exact Hw].
    eapply (handle_fades key r Hr Hc). apply surjective_pairing.
  - apply IH. exact Hw.
Qed.

(** ** Key namespaces *)

Lemma ratelimit_key_not_entity_key u e t id : ratelimit_key u e <> entity_key t id.
Proof. destruct t; discriminate. Qed.

Lemma ratelimit_key_not_session_key u e u' t' : ratelimit_key u e <> session_key u' t'.
Proof. discriminate. Qed.

(** ** Expiry *)

(** What a set leaves at its key, in any state: the entry that was there,
    or the new payload with the TTL; the latter whenever no call
    rejected. *)
Lemma ensureConnection_rejected w :
  (rejected w <= rejected (snd (ensureConnection w)))%nat.
Proof.
  unfold ensureConnection, try_catch, bind, connectRedis.
  destruct (isConnected w), (isOpen w) eqn:Ho; cbn [negb andb];
    try (cbn; lia).
  unfold try_catch, bind, redis_connect. rewrite Ho.
  destruct (faults w (tick w)); cbn; lia.
Qed.

Lemma redis_setEx_writes key ttl text w :
  0 < ttl ->
  let w1 := snd (redis_setEx key ttl (Some text) w) in
  now w1 = now w /\
  (rejected w <= rejected w1)%nat /\
  (db w1 !! key = db w !! key \/ db w1 !! key = Some (text, Some (now w + ttl))) /\
  (fst (redis_setEx key ttl (Some text) w) = Returned tt ->
   db w1 !! key = Some (text, Some (now w + ttl))).
Proof.
  intros Httl. cbn zeta. unfold redis_setEx, send, reject.
  destruct (Z.leb_spec ttl 0) as [Hle|_]; [lia|].
  destruct (isOpen w); [|cbn; repeat split; [lia | now left | discriminate]].
  destruct (faults w (tick w)); [cbn; repeat split; [lia | now left | discriminate]|].
  destruct (lost w (tick w)); cbn.
  - repeat split; [lia | right; apply lookup_insert_eq | discriminate].
  - repeat split; [lia | right; apply lookup_insert_eq | intros _; apply lookup_insert_eq].
Qed.

Lemma guarded_write key ttl (value : option string) label w :
  0 < ttl ->
  let m := try_catch
             (await ok <- ensureConnection in
              if negb ok then ret tt else redis_setEx key ttl value)
             (fun error => console_error label error) in
  let w1 := snd (m w) in
  now w1 = now w /\
  (db w1 !! key = db w !! key \/
   exists text, value = Some text /\ db w1 !! key = Some (text, Some (now w + ttl))) /\
  (rejected w1 = rejected w ->
   exists text, value = Some text /\ db w1 !! key = Some (text, Some (now w + ttl))).
Proof.
  intros Httl. cbn zeta.
  pose proof (ensureConnection_rejected w) as Hrej.
  destruct (ensureConnection_facts w) as (w0 & E0 & Hd0 & Hn0 & _).
  rewrite E0 in Hrej. cbn [snd] in Hrej.
  unfold try_catch, bind. rewrite E0. cbn [negb].
  destruct value as [text|].
  - pose proof (redis_setEx_writes key ttl text w0 Httl) as Hw. cbn zeta in Hw.
    destruct (redis_setEx key ttl (Some text) w0) as [[[]|e] w1] eqn:E1;
      cbn [fst snd] in Hw; destruct Hw as (Hn1 & Hrej1 & Hdb & Hok).
    + cbn [snd]. rewrite Hn1, Hn0, <- Hd0, <- Hn0. split; [reflexivity|].
      split; [right; eauto|]. intros _. eauto.
    + cbn [snd console_error now db rejected print_error].
      rewrite Hn1, Hn0, <- Hd0, <- Hn0. split; [reflexivity|].
      split; [destruct Hdb; [now left | right; eauto]|].
      intros Hsame. exfalso.
      assert (Hthrown : rejected w1 <> rejected w0).
      { clear -E1 Httl. unfold redis_setEx, send, reject in E1.
        destruct (Z.leb_spec ttl 0) as [Hle|_]; [lia|].
        destruct (isOpen w0); [|injection E1 as _ <-; cbn; lia].
        destruct (faults w0 (tick w0)); [injection E1 as _ <-; cbn; lia|].
        destruct (lost w0 (tick w0)); [injection E1 as _ <-; cbn; lia | discriminate]. }
      lia.
  - cbn [redis_setEx reject snd console_error now db rejected print_error count_rejection].
    rewrite Hn0, Hd0. split; [reflexivity|]. split; [now left|]. intros Hsame. lia.
Qed.

(** What [validateSession] answers, in any state: whether the session is
    live when no call rejected, and true when one did. *)
Lemma validateSession_result userId tokenId w :
  let answer := fst (validateSession userId tokenId w) in
  let w' := snd (validateSession userId tokenId w) in
  (rejected w' = rejected w ->
   answer = Returned (is_live w (session_key userId tokenId))) /\
  (rejected w' <> rejected w -> answer = Returned true).
Proof.
  cbn zeta.
  pose proof (ensureConnection_rejected w) as Hrej.
  destruct (ensureConnection_facts w) as (w0 & E0 & Hd0 & Hn0 & Hopen & _).
  rewrite E0 in Hrej. cbn [snd] in Hrej.
  unfold validateSession, try_catch, bind. rewrite E0. cbn [negb].
  unfold redis_exists, send, reject.
  destruct (isOpen w0) eqn:Ho;
    [|cbn; split; [intros Hsame; lia | reflexivity]].
  destruct Hopen as [Hsame0|Hclosed]; [|congruence].
  destruct (faults w0 (tick w0));
    [cbn; split; [intros Hsame; lia | reflexivity]|].
  destruct (lost w0 (tick w0));
    [cbn; split; [intros Hsame; lia | reflexivity]|].
  cbn [ret fst snd rejected next_tick].
  rewrite (is_live_ext w (next_tick w0)) by (cbn; auto).
  split; [|intros Hne; congruence].
  intros _. destruct (is_live w (session_key userId tokenId)); reflexivity.
Qed.

(** ** Expiry *)

(** C8, as stated, fails for [validateSession]: a session stored with the
    seven-day TTL and looked up one second after it has run out, at a
    moment when the store cannot be reached, is reported valid. *)
Lemma validateSession_expired_session_during_outage :
  let w1 := snd (storeSession "u1" "t1" "jwt" fading_world) in
  let w2 := elapse (CACHE_TTL.SESSION + 1) w1 in
  db w1 !! session_key "u1" "t1" = Some ("jwt", Some (now fading_world + CACHE_TTL.SESSION)) /\
  live w2 (session_key "u1" "t1") = None /\
  fst (validateSession "u1" "t1" w2) = Returned true.
Proof. cbn zeta. split; [vm_compute; reflexivity|]. split; vm_compute; reflexivity. Qed.

(** C8, amended.  Entries are written with the TTL of their type: 3600 s
    for a user, 300 s for a task list, 600 s for a task, 7 x 86400 s for a
    session.  In every state of the store, a set or a [storeSession] made
    at time [t] leaves at its key either what was there or the new payload
    expiring at [t + T], and it leaves the latter whenever none of its
    calls rejected.  Once the entry has been set, whatever calls to the
    layer and waits follow, whether they succeed or fail, as long as none
    sets the same key again, a lookup made when the clock is past [t + T]
    finds nothing.  The get returns null, in every state of the store.
    [validateSession] returns false when none of its calls rejects, as in
    a reachable store, and true when one does, as during an outage: it
    fails open. *)
Theorem entries_expire_after_their_ttl `{JSON} :
  (CACHE_TTL.USER = 3600 /\ CACHE_TTL.TASKS = 300 /\ CACHE_TTL.TASK = 600 /\
   CACHE_TTL.SESSION = 7 * 86400) /\
  (forall (t : entity) (id : string) (v : jsval) (w : World),
      let key := entity_key t id in
      let w1 := snd (setCached t id v w) in
      (db w1 !! key = db w !! key \/
       exists text, JSON_stringify v = Some text /\
                    db w1 !! key = Some (text, Some (now w + entity_ttl t))) /\
      (rejected w1 = rejected w ->
       exists text, JSON_stringify v = Some text /\
                    db w1 !! key = Some (text, Some (now w + entity_ttl t))) /\
      forall events : list event,
        (exists text, db w1 !! key = Some (text, Some (now w + entity_ttl t))) ->
        no_reset key events ->
        now w + entity_ttl t < now (run events w1) ->
        fst (getCached t id (run events w1)) = Returned JNull) /\
  (forall (userId tokenId token : string) (w : World),
      let key := session_key userId tokenId in
      let w1 := snd (storeSession userId tokenId token w) in
      (db w1 !! key = db w !! key \/
       db w1 !! key = Some (token, Some (now w + CACHE_TTL.SESSION))) /\
      (rejected w1 = rejected w ->
       db w1 !! key = Some (token, Some (now w + CACHE_TTL.SESSION))) /\
      forall events : list event,
        db w1 !! key = Some (token, Some (now w + CACHE_TTL.SESSION)) ->
        no_reset key events ->
        now w + CACHE_TTL.SESSION < now (run events w1) ->
        let w2 := run events w1 in
        let answer := fst (validateSession userId tokenId w2) in
        let w3 := snd (validateSession userId tokenId w2) in
        (rejected w3 = rejected w2 -> answer = Returned false) /\
        (rejected w3 <> rejected w2 -> answer = Returned true) /\
        (reachable w2 -> answer = Returned false) /\
        (outage w2 -> answer = Returned true)).
Proof.
  split; [repeat split|]. split.
  - intros t id v w. cbn zeta. rewrite setCached_shape.
    destruct (guarded_write (entity_key t id) (entity_ttl t) (JSON_stringify v)
                "Cache set error:" w (entity_ttl_pos t)) as (Hn1 & Hdb & Hok).
    fold (set_at (entity_key t id) (entity_ttl t) v) in Hn1, Hdb, Hok.
    split; [exact Hdb|]. split; [exact Hok|].
    intros events (text & Hset) Hnr Hlate.
    set (w1 := snd (set_at (entity_key t id) (entity_ttl t) v w)) in *.
    assert (Hexp : expires_by (entity_key t id) (now w + entity_ttl t) (run events w1)).
    { apply run_fades; [exact Hnr | intros u e; apply ratelimit_key_not_entity_key|].
      unfold expires_by. rewrite Hset. lia. }
    pose proof (expires_by_dead _ _ _ Hexp Hlate) as Hdead.
    rewrite getCached_shape.
    destruct (get_at_result (entity_key t id) (run events w1)) as (a & w' & -> & [->|Hv']);
      [reflexivity|].
    destruct Hv' as (text' & d & Hl & _). congruence.
  - intros u tid token w. cbn zeta.
    destruct (guarded_write (session_key u tid) CACHE_TTL.SESSION (Some token)
                "Session store error:" w eq_refl) as (Hn1 & Hdb & Hok).
    fold (storeSession u tid token) in Hn1, Hdb, Hok.
    split; [destruct Hdb as [Hdb|(text & [= <-] & Hdb)]; [now left | now right]|].
    split; [intros Hsame; destruct (Hok Hsame) as (text & [= <-] & Hset); exact Hset|].
    intros events Hset Hnr Hlate.
    set (w1 := snd (storeSession u tid token w)) in *.
    assert (Hexp : expires_by (session_key u tid) (now w + CACHE_TTL.SESSION) (run events w1)).
    { apply run_fades; [exact Hnr | intros u' e; apply ratelimit_key_not_session_key|].
      unfold expires_by. rewrite Hset. lia. }
    pose proof (expires_by_dead _ _ _ Hexp Hlate) as Hdead.
    assert (Hgone : is_live (run events w1) (session_key u tid) = false)
      by (unfold is_live; now rewrite Hdead).
    destruct (validateSession_result u tid (run events w1)) as [Hquiet Hfail].
    rewrite Hgone in Hquiet.
    split; [exact Hquiet|]. split; [exact Hfail|]. split.
    + intros Hr2.
      destruct (validateSession_reachable u tid _ Hr2) as (w' & -> & _).
      cbn [fst]. now rewrite Hgone.
    + intros Ho2.
      destruct (validateSession_absorbs u tid (run events w1)) as (a & w' & -> & _ & Hout & _).
      cbn [fst]. destruct (Hout Ho2) as [-> _]. reflexivity.
Qed.

Lemma entries_expire_after_their_ttl_witness :
  fst (getCached User "u1" (run quiet_hour (snd (setCached User "u1" JNull fresh_world))))
    = Returned JNull /\
  fst (validateSession "u1" "t1"
         (run quiet_week (snd (storeSession "u1" "t1" "jwt" fresh_world))))
    = Returned false /\
  fst (validateSession "u1" "t1"
         (run outage_week (snd (storeSession "u1" "t1" "jwt" fading_world))))
    = Returned true.
Proof.
  destruct entries_expire_after_their_ttl as (_ & Hget & Hsession).
  split; [|split].
  - destruct (Hget User "u1" JNull fresh_world) as (_ & _ & Hgone). apply Hgone.
    + eexists. vm_compute. reflexivity.
    + unfold quiet_hour, no_reset. repeat constructor; discriminate.
    + vm_compute. reflexivity.
  - destruct (Hsession "u1" "t1" "jwt" fresh_world) as (_ & _ & Hgone).
    destruct (Hgone quiet_week) as (_ & _ & Hreach & _).
    + vm_compute. reflexivity.
    + unfold quiet_week, no_reset. repeat constructor; discriminate.
    + vm_compute. reflexivity.
    + apply Hreach.
      split; [intros n _; reflexivity | intros Ho; vm_compute in Ho; discriminate Ho].
  - destruct (Hsession "u1" "t1" "jwt" fading_world) as (_ & _ & Hgone).
    destruct (Hgone outage_week) as (_ & _ & _ & Hdown).
    + vm_compute. reflexivity.
    + unfold outage_week, no_reset. repeat constructor; discriminate.
    + vm_compute. reflexivity.
    + apply Hdown. intros n Hn. vm_compute in Hn.
      destruct n as [|[|n]]; [lia | lia | reflexivity].
Defined.

(** ** Glob patterns without special characters *)

Lemma glob_star_any s : glob "*" s = true.
Proof. induction s as [|c s IH]; [reflexivity|]. cbn. exact IH. Qed.

Lemma glob_literal_char c p s :
  glob_literal (String c EmptyString) = true ->
  glob (String c p) s
  = match s with
    | EmptyString => false
    | String c' s' => Ascii.eqb c c' && glob p s'
    end.
Proof.
  destruct c as [[] [] [] [] [] [] [] []]; cbn; try discriminate; intros _; reflexivity.
Qed.

Lemma glob_literal_cons c s :
  glob_literal (String c s) = glob_literal (String c EmptyString) && glob_literal s.
Proof. cbn. now rewrite andb_true_r. Qed.

Lemma glob_literal_app s t :
  glob_literal (s +:+ t) = glob_literal s && glob_literal t.
Proof.
  induction s as [|c s IH]; [reflexivity|].
  change (String c s +:+ t) with (String c (s +:+ t)).
  rewrite (glob_literal_cons c (s +:+ t)), (glob_literal_cons c s), IH.
  now rewrite andb_assoc.
Qed.

(** A literal text followed by a star matches exactly the keys that start
    with that text. *)
Lemma glob_literal_then_star p s :
  glob_literal p = true -> glob (p +:+ "*") s = String.prefix p s.
Proof.
  revert s. induction p as [|c p IH]; intros s Hp.
  - cbn [append]. rewrite glob_star_any. now destruct s.
  - rewrite glob_literal_cons in Hp. apply andb_true_iff in Hp as [Hc Hp].
    change (String c p +:+ "*") with (String c (p +:+ "*")).
    rewrite (glob_literal_char c _ s Hc).
    destruct s as [|c' s]; [reflexivity|]. cbn [String.prefix].
    rewrite IH by exact Hp.
    destruct (Ascii.eqb_spec c c') as [->|Hne].
    + destruct (ascii_dec c' c'); [reflexivity | contradiction].
    + destruct (ascii_dec c c'); [contradiction | reflexivity].
Qed.

Lemma append_cons (x : ascii) (a b : string) : String x a +:+ b = String x (a +:+ b).
Proof. reflexivity. Qed.

Lemma append_nil (b : string) : EmptyString +:+ b = b.
Proof. reflexivity. Qed.

Lemma append_char (c : ascii) (b : string) : String c EmptyString +:+ b = String c b.
Proof. reflexivity. Qed.

Lemma append_assoc3 (a b c : string) : (a +:+ b) +:+ c = a +:+ (b +:+ c).
Proof. induction a as [|x a IH]; [reflexivity|]. rewrite !append_cons. f_equal. exact IH. Qed.

Lemma prefix_nil s : String.prefix EmptyString s = true.
Proof. now destruct s. Qed.

Lemma prefix_append p r : String.prefix p (p +:+ r) = true.
Proof.
  induction p as [|c p IH]; [apply prefix_nil|]. rewrite append_cons. cbn [String.prefix].
  destruct (ascii_dec c c); [exact IH | contradiction].
Qed.

Lemma prefix_common a b c : String.prefix (a +:+ b) (a +:+ c) = String.prefix b c.
Proof.
  induction a as [|x a IH]; [reflexivity|]. rewrite !append_cons. cbn [String.prefix].
  destruct (ascii_dec x x); [exact IH | contradiction].
Qed.

(** Two identifiers without colon, each followed by a colon: one text
    starts with the other only if the identifiers are the same. *)
Lemma prefix_segment u u' rest :
  no_colon u = true -> no_colon u' = true ->
  String.prefix (u +:+ ":") (u' +:+ ":" +:+ rest) = true -> u = u'.
Proof.
  revert u'. induction u as [|c u IH]; intros [|c' u'] Hu Hu';
    rewrite ?append_cons, ?append_nil; cbn [String.prefix].
  - reflexivity.
  - cbn in Hu'. destruct (ascii_dec ":" c') as [<-|]; [discriminate Hu' | discriminate].
  - cbn in Hu. destruct (ascii_dec c ":") as [->|]; [discriminate Hu | discriminate].
  - cbn in Hu, Hu'. apply andb_true_iff in Hu as [_ Hu]. apply andb_true_iff in Hu' as [_ Hu'].
    destruct (ascii_dec c c') as [->|]; [|discriminate].
    intros Hp. f_equal. now apply IH.
Qed.

Lemma session_pattern userId k :
  glob_literal userId = true ->
  glob ("session:" +:+ userId +:+ ":*") k
  = String.prefix ("session:" +:+ userId +:+ ":") k.
Proof.
  intros Hu.
  replace ("session:" +:+ userId +:+ ":*")
    with (("session:" +:+ userId +:+ ":") +:+ "*").
  - apply glob_literal_then_star.
    rewrite !glob_literal_app, Hu. reflexivity.
  - rewrite !append_assoc3. reflexivity.
Qed.

Lemma session_key_listed userId tokenId :
  String.prefix ("session:" +:+ userId +:+ ":") (session_key userId tokenId) = true.
Proof.
  unfold session_key.
  replace ("session:" +:+ userId +:+ ":" +:+ tokenId)
    with (("session:" +:+ userId +:+ ":") +:+ tokenId).
  - apply prefix_append.
  - rewrite !append_assoc3. reflexivity.
Qed.

Lemma other_session_not_listed userId userId' tokenId' :
  no_colon userId = true -> no_colon userId' = true -> userId' <> userId ->
  String.prefix ("session:" +:+ userId +:+ ":") (session_key userId' tokenId') = false.
Proof.
  intros Hu Hu' Hne. unfold session_key.
  rewrite (prefix_common "session:" (userId +:+ ":") (userId' +:+ ":" +:+ tokenId')).
  destruct (String.prefix _ _) eqn:Hp; [|reflexivity].
  apply prefix_segment in Hp; congruence.
Qed.

(** ** Bulk revocation *)

Lemma lookup_foldr_delete_in (m : gmap string entry) (keys : list string) (key : string) :
  key ∈ keys -> foldr delete m keys !! key = None.
Proof.
  induction keys as [|k keys IH]; intros Hin; [now apply not_elem_of_nil in Hin|].
  cbn [foldr]. destruct (decide (k = key)) as [->|Hne].
  - apply lookup_delete_eq.
  - rewrite lookup_delete_ne by exact Hne. apply IH.
    apply elem_of_cons in Hin as [->|Hin]; [contradiction | exact Hin].
Qed.

Lemma lookup_foldr_delete_notin (m : gmap string entry) (keys : list string) (key : string) :
  key ∉ keys -> foldr delete m keys !! key = m !! key.
Proof.
  induction keys as [|k keys IH]; intros Hin; [reflexivity|].
  cbn [foldr]. apply not_elem_of_cons in Hin as [Hne Hin].
  rewrite lookup_delete_ne by congruence. now apply IH.
Qed.

Lemma elem_of_listed_sessions userId w k :
  k ∈ listed_sessions userId w <->
  glob ("session:" +:+ userId +:+ ":*") k = true /\ is_live w k = true.
Proof.
  unfold listed_sessions. rewrite list_elem_of_filter. split; [tauto|].
  intros [Hg Hl]. split; [tauto|].
  unfold is_live, live in Hl. destruct (db w !! k) as [e|] eqn:Hk; [|discriminate].
  apply list_elem_of_fmap. exists (k, e). split; [reflexivity|].
  now apply elem_of_map_to_list.
Qed.

Lemma revokeAllUserSessions_reachable userId w :
  reachable w ->
  exists w', revokeAllUserSessions userId w = (Returned tt, w') /\
             ready w' /\ now w' = now w /\
             db w' = foldr delete (db w) (listed_sessions userId w).
Proof.
  intros Hr. pose proof (settle_ready w Hr) as Hs.
  unfold revokeAllUserSessions, try_catch, bind. rewrite (ensureConnection_reachable w Hr).
  cbn [negb]. unfold redis_keys. rewrite (send_ready _ _ Hs).
  assert (Hkeys : filter (fun k => glob ("session:" +:+ userId +:+ ":*") k = true /\
                                   is_live (next_tick (settle w)) k = true)
                         (map fst (map_to_list (db (next_tick (settle w)))))
                  = listed_sessions userId w).
  { unfold listed_sessions. cbn [db next_tick]. rewrite db_settle.
    apply list_filter_iff. intros k.
    now rewrite (is_live_ext w (next_tick (settle w)) k)
      by (cbn; auto using db_settle, now_settle). }
  rewrite Hkeys.
  destruct (0 <? Z.of_nat (length (listed_sessions userId w))) eqn:Hlen.
  - unfold redis_del. rewrite send_ready by auto with cache.
    eexists; split; [reflexivity|]. frame.
  - destruct (listed_sessions userId w) as [|k keys];
      [|apply Z.ltb_ge in Hlen; cbn [length] in Hlen; lia].
    eexists; split; [reflexivity|]. frame.
Qed.

(** The identifier is spliced into the pattern as it is.  For
    identifiers that are not UUIDs the pattern can reach further: revoking
    the sessions of an identifier [*] deletes the session of [bob], and
    revoking those of [a] deletes the session of the identifier [a:b]. *)
Lemma revokeAllUserSessions_reaches_other_users :
  let w1 := snd (revokeAllUserSessions "*" bob_world) in
  let w2 := snd (revokeAllUserSessions "a" bob_world) in
  fst (validateSession "bob" "t1" bob_world) = Returned true /\
  fst (validateSession "bob" "t1" w1) = Returned false /\
  db w1 !! session_key "bob" "t1" = None /\
  fst (validateSession "a:b" "t2" bob_world) = Returned true /\
  fst (validateSession "a:b" "t2" w2) = Returned false /\
  db w2 !! session_key "a:b" "t2" = None.
Proof. cbn zeta. repeat split; vm_compute; reflexivity. Qed.

(** In a reachable store, for a user identifier without glob special
    characters (star, question mark, opening bracket, backslash),
    [revokeAllUserSessions u] leaves no session of [u] valid, whatever the
    token identifier, and changes no key outside [session:u:]; when
    identifiers contain no colon, the session entries of every other user
    are therefore unchanged. *)
Lemma revokeAllUserSessions_plain_identifiers :
  forall (userId : string) (w : World),
    reachable w ->
    glob_literal userId = true ->
    let w' := snd (revokeAllUserSessions userId w) in
    (forall tokenId, fst (validateSession userId tokenId w') = Returned false) /\
    (forall key,
        String.prefix ("session:" +:+ userId +:+ ":") key = false ->
        db w' !! key = db w !! key) /\
    (no_colon userId = true ->
     forall userId' tokenId',
       no_colon userId' = true -> userId' <> userId ->
       db w' !! session_key userId' tokenId' = db w !! session_key userId' tokenId').
Proof.
  intros u w Hr Hu. cbn zeta.
  destruct (revokeAllUserSessions_reachable u w Hr) as (w' & -> & Hr' & Hn' & Hd').
  cbn [snd].
  assert (Hframe : forall key,
             String.prefix ("session:" +:+ u +:+ ":") key = false ->
             db w' !! key = db w !! key).
  { intros key Hp. rewrite Hd'. apply lookup_foldr_delete_notin.
    rewrite elem_of_listed_sessions, (session_pattern u key Hu), Hp.
    intros [[=] _]. }
  split; [|split].
  - intros t.
    destruct (validateSession_reachable u t w' (ready_reachable _ Hr')) as (w2 & -> & _).
    cbn [fst]. f_equal.
    destruct (decide (session_key u t ∈ listed_sessions u w)) as [Hin|Hout].
    + apply is_live_None. rewrite Hd'. now apply lookup_foldr_delete_in.
    + assert (Hdb : db w' !! session_key u t = db w !! session_key u t).
      { rewrite Hd'. now apply lookup_foldr_delete_notin. }
      assert (Hsame : is_live w' (session_key u t) = is_live w (session_key u t)).
      { unfold is_live, live. now rewrite Hdb, Hn'. }
      rewrite Hsame. destruct (is_live w (session_key u t)) eqn:Hl; [|reflexivity].
      exfalso. apply Hout. apply elem_of_listed_sessions.
      split; [|exact Hl]. rewrite (session_pattern u _ Hu). apply session_key_listed.
  - exact Hframe.
  - intros Hc u' t' Hc' Hne. apply Hframe.
    now apply other_session_not_listed.
Qed.

(** ** Identifiers that are UUIDs *)

Lemma uuid_char_plain c :
  Ascii.eqb c "-" = true \/ is_hex_digit c = true ->
  negb (Ascii.eqb c "*") && negb (Ascii.eqb c "?") &&
  negb (Ascii.eqb c "[") && negb (Ascii.eqb c "\") = true /\
  negb (Ascii.eqb c ":") = true.
Proof.
  destruct c as [[] [] [] [] [] [] [] []];
    (intros [Hc|Hc]; vm_compute in Hc; try discriminate Hc);
    split; reflexivity.
Qed.

Lemma uuid_from_plain position s :
  uuid_from position s = true -> glob_literal s = true /\ no_colon s = true.
Proof.
  revert position. induction s as [|c s IH]; intros position Hs; [now split|].
  cbn [uuid_from] in Hs. apply andb_true_iff in Hs as [Hc Hs].
  destruct (IH _ Hs) as [Hg Hn].
  assert (Hplain : Ascii.eqb c "-" = true \/ is_hex_digit c = true)
    by (destruct (_ || _); [now left | now right]).
  destruct (uuid_char_plain c Hplain) as [Hc1 Hc2].
  cbn [glob_literal no_colon]. rewrite Hc1, Hc2, Hg, Hn. now split.
Qed.

Lemma is_uuid_plain s : is_uuid s = true -> glob_literal s = true /\ no_colon s = true.
Proof. apply uuid_from_plain. Qed.

(** C6. For every user identifier [u] (a UUID), in a reachable store,
    after [revokeAllUserSessions u] the function [validateSession u t]
    returns false for every token identifier [t], whether a session was
    stored for it or not; the session entry of every other user, whatever
    the token identifier, is as it was, and so is what [validateSession]
    answers for it; more generally no key outside [session:u:] is
    changed. *)
Theorem revokeAllUserSessions_revokes_only_that_user :
  forall (userId : string) (w : World),
    reachable w ->
    is_uuid userId = true ->
    let w' := snd (revokeAllUserSessions userId w) in
    (forall tokenId, fst (validateSession userId tokenId w') = Returned false) /\
    (forall userId' tokenId',
        is_uuid userId' = true -> userId' <> userId ->
        db w' !! session_key userId' tokenId' = db w !! session_key userId' tokenId' /\
        fst (validateSession userId' tokenId' w')
        = fst (validateSession userId' tokenId' w)) /\
    (forall key,
        String.prefix ("session:" +:+ userId +:+ ":") key = false ->
        db w' !! key = db w !! key).
Proof.
  intros u w Hr Hu.
  destruct (is_uuid_plain u Hu) as [Hglob Hcolon].
  destruct (revokeAllUserSessions_plain_identifiers u w Hr Hglob) as (Hgone & Hframe & Hothers).
  cbn zeta in *.
  destruct (revokeAllUserSessions_reachable u w Hr) as (w' & E & Hr' & Hn' & _).
  rewrite E in *. cbn [snd] in *.
  split; [exact Hgone|]. split; [|exact Hframe].
  intros u' t' Hu' Hne.
  destruct (is_uuid_plain u' Hu') as [_ Hcolon'].
  pose proof (Hothers Hcolon u' t' Hcolon' Hne) as Hsame.
  split; [exact Hsame|].
  destruct (validateSession_reachable u' t' w' (ready_reachable _ Hr')) as (w1 & -> & _).
  destruct (validateSession_reachable u' t' w Hr) as (w2 & -> & _).
  cbn [fst]. f_equal. unfold is_live, live. now rewrite Hsame, Hn'.
Qed.

Lemma revokeAllUserSessions_revokes_only_that_user_witness :
  let u := "3f2504e0-4f89-41d3-9a0c-0305e82c3301" in
  let u' := "7c9e6679-7425-40de-944b-e07fc1f90ae7" in
  let w' := snd (revokeAllUserSessions u two_users_world) in
  fst (validateSession u "t1" two_users_world) = Returned true /\
  fst (validateSession u' "t1" two_users_world) = Returned true /\
  (forall tokenId, fst (validateSession u tokenId w') = Returned false) /\
  fst (validateSession u' "t1" w') = Returned true.
Proof.
  cbn zeta.
  split; [vm_compute; reflexivity|]. split; [vm_compute; reflexivity|].
  destruct (revokeAllUserSessions_revokes_only_that_user
              "3f2504e0-4f89-41d3-9a0c-0305e82c3301" two_users_world)
    as (Hgone & Hothers & _).
  - split; [intros n _; reflexivity | reflexivity].
  - reflexivity.
  - split; [exact Hgone|].
    destruct (Hothers "7c9e6679-7425-40de-944b-e07fc1f90ae7" "t1") as [_ ->];
      [reflexivity | discriminate | vm_compute; reflexivity].
Defined.

(** * The JSON codec *)

(** ** Induction on values *)

Lemma jsval_ind (P : jsval -> Prop) :
  P JUndefined -> P JNull -> (forall b, P (JBool b)) -> (forall n, P (JNum n)) ->
  (forall s, P (JStr s)) -> (forall iso, P (JDate iso)) ->
  (forall items, Forall P items -> P (JArr items)) ->
  (forall props, Forall (fun kv => P (snd kv)) props -> P (JObj props)) ->
  forall v, P v.
Proof.
  intros HU HN HB HZ HS HD HA HO. fix IH 1. intros [| |b|n|s|iso|items|props].
  - exact HU.
  - exact HN.
  - apply HB.
  - apply HZ.
  - apply HS.
  - apply HD.
  - apply HA. induction items as [|x items IHitems]; constructor; [apply IH | exact IHitems].
  - apply HO. induction props as [|[k x] props IHprops]; constructor;
      [apply IH | exact IHprops].
Qed.

(** ** Texts *)

Lemma append_nil_r (s : string) : s +:+ EmptyString = s.
Proof. induction s as [|c s IH]; [reflexivity|]. rewrite append_cons. now rewrite IH. Qed.

Lemma length_append (a b : string) :
  String.length (a +:+ b) = (String.length a + String.length b)%nat.
Proof.
  induction a as [|c a IH]; [reflexivity|]. rewrite append_cons. cbn [String.length].
  now rewrite IH.
Qed.

(** ** Numbers *)

Lemma string_of_uint_numchars d : all_numchars (NilEmpty.string_of_uint d) = true.
Proof. induction d; cbn; auto. Qed.

Lemma string_of_Z_numchars n : all_numchars (string_of_Z n) = true.
Proof.
  unfold string_of_Z, NilZero.string_of_int, NilZero.string_of_uint.
  destruct (Z.to_int n) as [d|d]; destruct d; try reflexivity;
    apply (string_of_uint_numchars (_ _)) || (cbn; apply (string_of_uint_numchars _)).
Qed.

Lemma string_of_Z_nonempty n : string_of_Z n <> EmptyString.
Proof.
  intros E. pose proof (Z_of_string_of_Z n) as H. rewrite E in H. discriminate H.
Qed.

Lemma span_number_numchars tok rest :
  all_numchars tok = true -> delimited rest = true ->
  Json.span_number (tok +:+ rest) = (tok, rest).
Proof.
  intros Ht Hr. induction tok as [|c tok IH].
  - rewrite append_nil. destruct rest as [|c rest]; [reflexivity|].
    cbn in Hr |- *. destruct (Json.is_numchar c); [discriminate | reflexivity].
  - cbn in Ht. apply andb_true_iff in Ht as [Hc Ht].
    rewrite append_cons. cbn [Json.span_number]. rewrite Hc, (IH Ht). reflexivity.
Qed.

(** A digit or a minus sign opens nothing but a number. *)
Lemma numchar_opens_number c :
  Json.is_numchar c = true ->
  Ascii.eqb c "n" = false /\ Ascii.eqb c "t" = false /\ Ascii.eqb c "f" = false /\
  Ascii.eqb c Json.dquote = false /\ Ascii.eqb c "[" = false /\ Ascii.eqb c "{" = false /\
  Ascii.eqb c "]" = false /\ Ascii.eqb c "}" = false.
Proof.
  destruct c as [[] [] [] [] [] [] [] []]; cbn; intros H; try discriminate H;
    repeat split; reflexivity.
Qed.

Lemma parse_value_number fuel n rest :
  delimited rest = true ->
  Json.parse_value (S fuel) (string_of_Z n +:+ rest) = Some (JNum n, rest).
Proof.
  intros Hr. pose proof (string_of_Z_numchars n) as Hn.
  pose proof (span_number_numchars _ _ Hn Hr) as Hspan.
  destruct (string_of_Z n) as [|c s] eqn:E; [now apply string_of_Z_nonempty in E|].
  cbn in Hn. apply andb_true_iff in Hn as [Hc _].
  destruct (numchar_opens_number c Hc) as (H1 & H2 & H3 & H4 & H5 & H6 & _).
  rewrite append_cons in Hspan |- *. cbn [Json.parse_value].
  rewrite H1, H2, H3, H4, H5, H6, Hspan, <- E, Z_of_string_of_Z. reflexivity.
Qed.

(** ** String literals *)

Lemma parse_chars_escape_char c t :
  Json.parse_chars (Json.escape_char c +:+ t)
  = match Json.parse_chars t with
    | Some (str, r) => Some (String c str, r)
    | None => None
    end.
Proof.
  destruct c as [[] [] [] [] [] [] [] []]; reflexivity.
Qed.

Lemma parse_chars_escape s rest :
  Json.parse_chars (Json.escape s +:+ String Json.dquote rest) = Some (s, rest).
Proof.
  induction s as [|c s IH].
  - reflexivity.
  - cbn [Json.escape]. rewrite append_assoc3, parse_chars_escape_char, IH. reflexivity.
Qed.

Lemma quote_append s rest :
  Json.quote s +:+ rest = String Json.dquote (Json.escape s +:+ String Json.dquote rest).
Proof.
  unfold Json.quote. rewrite append_cons, append_assoc3, append_cons, append_nil.
  reflexivity.
Qed.

Lemma parse_value_string fuel s rest :
  Json.parse_value (S fuel) (Json.quote s +:+ rest) = Some (JStr s, rest).
Proof.
  rewrite quote_append. cbn [Json.parse_value].
  change (Ascii.eqb Json.dquote "n") with false.
  change (Ascii.eqb Json.dquote "t") with false.
  change (Ascii.eqb Json.dquote "f") with false.
  change (Ascii.eqb Json.dquote Json.dquote) with true.
  cbv iota. now rewrite parse_chars_escape.
Qed.

(** ** Arrays and objects *)

Lemma join_chain t ts close rest :
  Json.join "," (t :: ts) +:+ close +:+ rest = chain t ts close rest.
Proof.
  revert t. induction ts as [|t' ts IH]; intros t.
  - reflexivity.
  - change (Json.join "," (t :: t' :: ts)) with (t +:+ "," +:+ Json.join "," (t' :: ts)).
    rewrite !append_assoc3, IH. reflexivity.
Qed.

Lemma serialize_defined v : v <> JUndefined -> Json.serialize v = Some (text_of v).
Proof. unfold text_of. destruct v as [| |[]| | | | |]; try reflexivity. contradiction. Qed.

Lemma json_clean_defined v : json_clean v = true -> v <> JUndefined.
Proof. intros H ->. discriminate H. Qed.

Lemma text_of_array items :
  text_of (JArr items) = "[" +:+ Json.join "," (map text_of items) +:+ "]".
Proof. reflexivity. Qed.

Lemma omap_members props :
  forallb (fun kv => json_clean (snd kv)) props = true ->
  omap (fun kv : string * jsval =>
          match Json.serialize (snd kv) with
          | Some t => Some (Json.quote (fst kv) +:+ ":" +:+ t)
          | None => None
          end) props
  = map member_text props.
Proof.
  intros Hc. induction props as [|[k v] props IH]; [reflexivity|].
  cbn [forallb snd] in Hc. apply andb_true_iff in Hc as [Hv Hc].
  cbn [omap list_omap map fst snd].
  rewrite (serialize_defined v (json_clean_defined v Hv)).
  fold (omap (fun kv : string * jsval =>
          match Json.serialize (snd kv) with
          | Some t => Some (Json.quote (fst kv) +:+ ":" +:+ t)
          | None => None
          end) props).
  rewrite (IH Hc). reflexivity.
Qed.

Lemma text_of_object props :
  forallb (fun kv => json_clean (snd kv)) props = true ->
  text_of (JObj props) = "{" +:+ Json.join "," (map member_text props) +:+ "}".
Proof.
  intros Hc. unfold text_of. cbn [Json.serialize default].
  rewrite (omap_members props Hc). reflexivity.
Qed.

Lemma parse_value_close_bracket fuel s : Json.parse_value fuel (String "]" s) = None.
Proof. destruct fuel; reflexivity. Qed.

Lemma parse_value_close_brace fuel s : Json.parse_value fuel (String "}" s) = None.
Proof. destruct fuel; reflexivity. Qed.

Lemma parse_value_empty fuel : Json.parse_value fuel EmptyString = None.
Proof. destruct fuel; reflexivity. Qed.

Lemma weights_cons w ws : weights (w :: ws) = S (w + weights ws).
Proof. reflexivity. Qed.

Lemma weight_array items : weight (JArr items) = S (weights (map weight items)).
Proof.
  cbn [weight]. f_equal. induction items as [|x items IH]; [reflexivity|].
  cbn [fold_right map]. rewrite weights_cons. now rewrite IH.
Qed.

Lemma weight_object props :
  weight (JObj props) = S (weights (map (fun kv => weight (snd kv)) props)).
Proof.
  cbn [weight]. f_equal. induction props as [|x props IH]; [reflexivity|].
  cbn [fold_right map]. rewrite weights_cons. now rewrite IH.
Qed.

Lemma parse_elements_chain v vs :
  Forall reads_back (v :: vs) ->
  forallb json_clean (v :: vs) = true ->
  forall fuel rest,
    (weights (map weight (v :: vs)) <= fuel)%nat ->
    Json.parse_elements fuel (chain (text_of v) (map text_of vs) "]" rest)
    = Some (v :: vs, rest).
Proof.
  revert v. induction vs as [|v' vs IH]; intros v Hall Hclean fuel rest Hfuel.
  - apply Forall_inv in Hall. cbn [forallb] in Hclean.
    apply andb_true_iff in Hclean as [Hv _].
    cbn [map] in Hfuel. rewrite weights_cons in Hfuel.
    destruct fuel as [|fuel]; [lia|].
    cbn [chain map Json.parse_elements]. rewrite append_char.
    rewrite (Hall Hv fuel (String "]" rest)) by (lia || reflexivity).
    reflexivity.
  - pose proof (Forall_inv Hall) as Hv0. apply Forall_inv_tail in Hall.
    cbn [forallb] in Hclean. apply andb_true_iff in Hclean as [Hv Hclean].
    cbn [map] in Hfuel. rewrite weights_cons in Hfuel.
    destruct fuel as [|fuel]; [lia|].
    cbn [chain map Json.parse_elements]. rewrite append_char.
    rewrite (Hv0 Hv fuel (String "," (chain (text_of v') (map text_of vs) "]" rest)))
      by (lia || reflexivity).
    change (Ascii.eqb "," ",") with true. cbv iota.
    rewrite (IH v' Hall Hclean fuel rest) by (cbn [map]; lia).
    reflexivity.
Qed.

Lemma member_text_append k v tail :
  member_text (k, v) +:+ tail
  = String Json.dquote
      (Json.escape k +:+ String Json.dquote (String ":" (text_of v +:+ tail))).
Proof.
  unfold member_text. cbn [fst snd].
  rewrite !append_assoc3, quote_append, append_char. reflexivity.
Qed.

Lemma parse_members_chain kv kvs :
  Forall (fun kv => reads_back (snd kv)) (kv :: kvs) ->
  forallb (fun kv => json_clean (snd kv)) (kv :: kvs) = true ->
  forall fuel rest,
    (weights (map (fun kv => weight (snd kv)) (kv :: kvs)) <= fuel)%nat ->
    Json.parse_members fuel (chain (member_text kv) (map member_text kvs) "}" rest)
    = Some (kv :: kvs, rest).
Proof.
  revert kv. induction kvs as [|kv' kvs IH]; intros [k v] Hall Hclean fuel rest Hfuel.
  - apply Forall_inv in Hall. cbn [forallb snd] in Hclean, Hall.
    apply andb_true_iff in Hclean as [Hv _].
    cbn [map snd] in Hfuel. rewrite weights_cons in Hfuel.
    destruct fuel as [|fuel]; [lia|].
    cbn [chain map]. rewrite append_char, member_text_append.
    cbn [Json.parse_members].
    change (Ascii.eqb Json.dquote Json.dquote) with true. cbv iota.
    rewrite parse_chars_escape.
    change (Ascii.eqb ":" ":") with true. cbv iota.
    rewrite (Hall Hv fuel (String "}" rest)) by (lia || reflexivity).
    reflexivity.
  - pose proof (Forall_inv Hall) as Hv0. apply Forall_inv_tail in Hall.
    cbn [forallb snd] in Hclean, Hv0. apply andb_true_iff in Hclean as [Hv Hclean].
    cbn [map snd] in Hfuel. rewrite weights_cons in Hfuel.
    destruct fuel as [|fuel]; [lia|].
    cbn [chain map]. rewrite append_char, member_text_append.
    cbn [Json.parse_members].
    change (Ascii.eqb Json.dquote Json.dquote) with true. cbv iota.
    rewrite parse_chars_escape.
    change (Ascii.eqb ":" ":") with true. cbv iota.
    rewrite (Hv0 Hv fuel (String "," (chain (member_text kv') (map member_text kvs) "}" rest)))
      by (lia || reflexivity).
    change (Ascii.eqb "," ",") with true. cbv iota.
    rewrite (IH kv' Hall Hclean fuel rest) by (cbn [map]; lia).
    reflexivity.
Qed.

(** ** Property names *)

Lemma obj_set_fresh k v props :
  existsb (String.eqb k) (map fst props) = false ->
  Json.obj_set k v props = (props ++ [(k, v)])%list.
Proof.
  induction props as [|[k' v'] props IH]; intros Hk; [reflexivity|].
  cbn [map fst existsb] in Hk. apply orb_false_iff in Hk as [Hk Hrest].
  cbn [Json.obj_set]. rewrite Hk, (IH Hrest). reflexivity.
Qed.

Lemma existsb_eqb_app k (l1 l2 : list string) :
  existsb (String.eqb k) (l1 ++ l2)%list
  = existsb (String.eqb k) l1 || existsb (String.eqb k) l2.
Proof. apply existsb_app. Qed.

Lemma fold_obj_set members acc :
  distinct (map fst acc ++ map fst members)%list = true ->
  fold_left (fun acc kv => Json.obj_set (fst kv) (snd kv) acc) members acc
  = (acc ++ members)%list.
Proof.
  revert acc. induction members as [|[k v] members IH]; intros acc Hd.
  - now rewrite app_nil_r.
  - cbn [fold_left fst snd].
    assert (Hfresh : existsb (String.eqb k) (map fst acc) = false).
    { clear IH. induction acc as [|[k' v'] acc IHacc]; [reflexivity|].
      cbn [map fst app distinct] in Hd. apply andb_true_iff in Hd as [Hk' Hd].
      cbn [map fst existsb]. rewrite (IHacc Hd), orb_false_r.
      apply negb_true_iff in Hk'. rewrite existsb_eqb_app in Hk'.
      apply orb_false_iff in Hk' as [_ Hk']. cbn [map fst existsb] in Hk'.
      apply orb_false_iff in Hk' as [Hk' _]. now rewrite String.eqb_sym. }
    rewrite (obj_set_fresh k v acc Hfresh), IH.
    + now rewrite <- app_assoc.
    + rewrite map_app. cbn [map fst]. rewrite <- app_assoc. exact Hd.
Qed.

Lemma obj_of_members_distinct props :
  distinct (map fst props) = true -> Json.obj_of_members props = props.
Proof. intros Hd. unfold Json.obj_of_members. now rewrite fold_obj_set. Qed.

(** ** Round trip *)

Lemma reads_back_all v : reads_back v.
Proof.
  induction v as [| |b|n|s|iso|items IH|props IH] using jsval_ind;
    intros Hclean fuel rest Hfuel Hrest; try discriminate Hclean;
    (destruct fuel as [|fuel]; [cbn in Hfuel; lia|]).
  - reflexivity.
  - destruct b; reflexivity.
  - apply parse_value_number, Hrest.
  - apply parse_value_string.
  - rewrite weight_array in Hfuel. rewrite text_of_array.
    destruct items as [|v vs].
    + reflexivity.
    + cbn [map]. rewrite !append_assoc3, (append_char "["), join_chain.
      cbn [json_clean] in Hclean.
      pose proof (parse_elements_chain v vs IH Hclean fuel rest ltac:(lia)) as Hel.
      cbn [Json.parse_value].
      change (Ascii.eqb "[" "n") with false. change (Ascii.eqb "[" "t") with false.
      change (Ascii.eqb "[" "f") with false.
      change (Ascii.eqb "[" Json.dquote) with false.
      change (Ascii.eqb "[" "[") with true. cbv iota.
      destruct (chain (text_of v) (map text_of vs) "]" rest) as [|c r] eqn:Etext.
      * destruct fuel as [|fuel]; [discriminate Hel|].
        cbn [Json.parse_elements] in Hel. now rewrite parse_value_empty in Hel.
      * destruct (Ascii.eqb_spec c "]") as [->|_].
        -- destruct fuel as [|fuel]; [discriminate Hel|].
           cbn [Json.parse_elements] in Hel.
           now rewrite parse_value_close_bracket in Hel.
        -- now rewrite Hel.
  - rewrite weight_object in Hfuel.
    cbn [json_clean] in Hclean. apply andb_true_iff in Hclean as [Hdistinct Hclean].
    rewrite (text_of_object props Hclean).
    destruct props as [|kv kvs].
    + reflexivity.
    + cbn [map]. rewrite !append_assoc3, (append_char "{"), join_chain.
      pose proof (parse_members_chain kv kvs IH Hclean fuel rest ltac:(lia)) as Hel.
      cbn [Json.parse_value].
      change (Ascii.eqb "{" "n") with false. change (Ascii.eqb "{" "t") with false.
      change (Ascii.eqb "{" "f") with false.
      change (Ascii.eqb "{" Json.dquote) with false.
      change (Ascii.eqb "{" "[") with false.
      change (Ascii.eqb "{" "{") with true. cbv iota.
      destruct (chain (member_text kv) (map member_text kvs) "}" rest) as [|c r] eqn:Etext.
      * destruct fuel; discriminate Hel.
      * destruct (Ascii.eqb_spec c "}") as [->|_].
        -- destruct fuel as [|fuel]; [discriminate Hel|]. discriminate Hel.
        -- rewrite Hel, (obj_of_members_distinct _ Hdistinct). reflexivity.
Qed.

(** ** The fuel that [JSON.parse] gives itself is enough *)

Lemma weights_le_join ws ts :
  Forall2 (fun w t => (w <= String.length t)%nat) ws ts ->
  (weights ws <= S (String.length (Json.join "," ts)))%nat.
Proof.
  induction 1 as [|w t ws ts Hw Hrest IH]; [cbn; lia|].
  rewrite weights_cons. destruct Hrest as [|w' t' ws' ts' Hw' Hrest'].
  - cbn. lia.
  - change (Json.join "," (t :: t' :: ts'))
      with (t +:+ "," +:+ Json.join "," (t' :: ts')).
    rewrite !length_append. cbn [String.length]. lia.
Qed.

Lemma weight_le_length v :
  json_clean v = true -> (weight v <= String.length (text_of v))%nat.
Proof.
  induction v as [| |b|n|s|iso|items IH|props IH] using jsval_ind;
    intros Hclean; try discriminate Hclean.
  - cbn. lia.
  - destruct b; cbn; lia.
  - change (text_of (JNum n)) with (string_of_Z n).
    pose proof (string_of_Z_nonempty n). destruct (string_of_Z n); [contradiction|].
    cbn. lia.
  - change (text_of (JStr s)) with (Json.quote s). cbn. lia.
  - rewrite weight_array, text_of_array, !length_append. cbn [String.length].
    cbn [json_clean] in Hclean.
    assert (H2 : Forall2 (fun w t => (w <= String.length t)%nat)
                         (map weight items) (map text_of items)).
    { induction items as [|x items IHitems]; [constructor|].
      cbn [forallb] in Hclean. apply andb_true_iff in Hclean as [Hx Hclean].
      cbn [map]. constructor.
      - apply (Forall_inv IH), Hx.
      - apply IHitems; [exact (Forall_inv_tail IH) | exact Hclean]. }
    pose proof (weights_le_join _ _ H2). lia.
  - cbn [json_clean] in Hclean. apply andb_true_iff in Hclean as [_ Hclean].
    rewrite weight_object, (text_of_object props Hclean), !length_append.
    cbn [String.length].
    assert (H2 : Forall2 (fun w t => (w <= String.length t)%nat)
                         (map (fun kv => weight (snd kv)) props) (map member_text props)).
    { induction props as [|x props IHprops]; [constructor|].
      cbn [forallb] in Hclean. apply andb_true_iff in Hclean as [Hx Hclean].
      cbn [map]. constructor.
      - unfold member_text. rewrite !length_append.
        pose proof (Forall_inv IH Hx). lia.
      - apply IHprops; [exact (Forall_inv_tail IH) | exact Hclean]. }
    pose proof (weights_le_join _ _ H2). lia.
Qed.

Lemma parse_serialize v text :
  json_clean v = true -> Json.serialize v = Some text -> Json.parse text = Some v.
Proof.
  intros Hclean Hs.
  rewrite (serialize_defined v (json_clean_defined v Hclean)) in Hs.
  injection Hs as <-. unfold Json.parse.
  pose proof (reads_back_all v Hclean (String.length (text_of v)) EmptyString
                (weight_le_length v Hclean) eq_refl) as Hp.
  rewrite append_nil_r in Hp. now rewrite Hp.
Qed.

Lemma serialize_nonempty v : Json.serialize v <> Some EmptyString.
Proof.
  destruct v as [| |[]|n|s|iso|items|props]; try discriminate.
  intros [= E]. now apply string_of_Z_nonempty in E.
Qed.

(** ** Set, then get *)

(** C4, as stated, fails for values that JSON does not represent: the row
    the database layer returns for a user carries [createdAt] as a [Date],
    and comes back from the cache with [createdAt] as a string; and
    [undefined] comes back as null. *)
Lemma getCached_after_setCached_date :
  fst (getCached User "u1" (snd (setCached User "u1" sample_user_row fresh_world)))
    = Returned sample_user /\
  sample_user <> sample_user_row /\
  fst (getCached User "u1" (snd (setCached User "u1" JUndefined fresh_world)))
    = Returned JNull.
Proof.
  split; [vm_compute; reflexivity|]. split; [discriminate|]. vm_compute; reflexivity.
Qed.

(** C4, amended.  In a reachable store, for a user, a task list or a task
    alike, and for every value that JSON represents (null, booleans,
    integers, strings, and arrays and objects built from these), a set
    followed at once by a get of the same identifier returns that value. *)
Theorem getCached_after_setCached :
  forall (t : entity) (id : string) (v : jsval) (w : World),
    reachable w ->
    json_clean v = true ->
    fst (getCached t id (snd (setCached t id v w))) = Returned v.
Proof.
  intros t id v w Hr Hclean.
  pose proof (serialize_defined v (json_clean_defined v Hclean)) as Hs.
  rewrite (get_after_set (H := ecma_JSON) t id v (text_of v) w Hr Hs). f_equal.
  pose proof (parse_serialize v (text_of v) Hclean Hs) as Hp.
  unfold decode. destruct (text_of v) as [|c text] eqn:E.
  - now apply serialize_nonempty in Hs.
  - cbn [JSON_parse ecma_JSON]. now rewrite Hp.
Qed.

Lemma getCached_after_setCached_witness :
  fst (getCached User "u1" (snd (setCached User "u1" sample_user fresh_world)))
    = Returned sample_user.
Proof.
  apply (getCached_after_setCached User "u1" sample_user fresh_world).
  - exact fresh_world_reachable.
  - reflexivity.
Defined.

(** * Further properties of the cache layer *)

(** ** Frames, in general *)

Section Frames.
Variable R : World -> World -> Prop.
Hypothesis R_same : forall w w', db w' = db w -> R w w'.
Hypothesis R_trans : forall w1 w2 w3, R w1 w2 -> R w2 w3 -> R w1 w3.

Lemma within_ret {A} (a : A) : within R (ret a).
Proof. intros w r w' [= _ <-]. now apply R_same. Qed.

Lemma within_reject {A} (e : error) : within R (@reject A e).
Proof. intros w r w' [= _ <-]. now apply R_same. Qed.

Lemma within_throw {A} (e : error) : within R (@throw A e).
Proof. intros w r w' [= _ <-]. now apply R_same. Qed.

Lemma within_console_error label e : within R (console_error label e).
Proof. intros w r w' [= _ <-]. now apply R_same. Qed.

Lemma within_bind_with {A B} (P : A -> Prop) (m : M A) (k : A -> M B) :
  within R m ->
  (forall w a w', m w = (Returned a, w') -> P a) ->
  (forall a, P a -> within R (k a)) ->
  within R (bind m k).
Proof.
  intros Hm HP Hk w r w'. unfold bind.
  destruct (m w) as [[a|e] w1] eqn:Em.
  - intros Ek. eapply R_trans; [eapply Hm, Em | eapply (Hk a), Ek]. eapply HP, Em.
  - intros [= _ <-]. eapply Hm, Em.
Qed.

Lemma within_bind {A B} (m : M A) (k : A -> M B) :
  within R m -> (forall a, within R (k a)) -> within R (bind m k).
Proof.
  intros Hm Hk. apply (within_bind_with (fun _ => True)); auto.
Qed.

Lemma within_try_catch {A} (body : M A) (handler : error -> M A) :
  within R body -> (forall e, within R (handler e)) -> within R (try_catch body handler).
Proof.
  intros Hb Hh w r w'. unfold try_catch.
  destruct (body w) as [[a|e] w1] eqn:Eb.
  - intros [= _ <-]. eapply Hb, Eb.
  - intros Eh. eapply R_trans; [eapply Hb, Eb | eapply Hh, Eh].
Qed.

Lemma within_send {A} (cmd : M A) : within R cmd -> within R (send cmd).
Proof.
  intros Hc w r w'. unfold send.
  destruct (isOpen w); [|intros [= _ <-]; now apply R_same].
  destruct (faults w (tick w)); [intros [= _ <-]; now apply R_same|].
  destruct (lost w (tick w)).
  - intros [= _ <-].
    apply (R_trans _ (snd (cmd (next_tick w)))); [|apply R_same; reflexivity].
    apply (R_trans _ (next_tick w)); [now apply R_same|].
    eapply Hc, surjective_pairing.
  - intros E. eapply R_trans; [|eapply Hc, E]. now apply R_same.
Qed.

Lemma within_promise_all2 {A B} (p : M A) (q : M B) :
  within R p -> within R q -> within R (promise_all2 p q).
Proof.
  intros Hp Hq w r w'. unfold promise_all2.
  destruct (p w) as [ra w1] eqn:Ep. destruct (q w1) as [rb w2] eqn:Eq.
  intros E. assert (w' = w2) as -> by (destruct ra, rb; congruence).
  eapply R_trans; [eapply Hp, Ep | eapply Hq, Eq].
Qed.

Lemma within_lift {A} (f : A -> reply) (m : M A) : within R m -> within R (lift f m).
Proof.
  intros Hm w r w'. unfold lift. destruct (m w) as [[a|e] w1] eqn:Em;
    intros [= _ <-]; eapply Hm, Em.
Qed.

Lemma within_ensureConnection : within R ensureConnection.
Proof.
  intros w r w' E. destruct (ensureConnection_facts w) as (w1 & E1 & Hd & _).
  rewrite E1 in E. injection E as _ <-. now apply R_same.
Qed.

Lemma within_connectRedis : within R connectRedis.
Proof.
  intros w r w'. unfold connectRedis.
  destruct (negb (isConnected w) && negb (isOpen w)).
  - unfold try_catch, bind, redis_connect.
    destruct (isOpen w); [intros [= _ <-]; now apply R_same|].
    destruct (faults w (tick w)); intros [= _ <-]; now apply R_same.
  - intros [= _ <-]. now apply R_same.
Qed.

Lemma within_redis_get key : within R (redis_get key).
Proof. apply within_send. intros w r w' [= _ <-]. now apply R_same. Qed.

Lemma within_redis_exists key : within R (redis_exists key).
Proof. apply within_send. intros w r w' [= _ <-]. now apply R_same. Qed.

Lemma within_redis_keys pattern : within R (redis_keys pattern).
Proof. apply within_send. intros w r w' [= _ <-]. now apply R_same. Qed.

Lemma within_redis_info section : within R (redis_info section).
Proof. apply within_send. intros w r w' [= _ <-]. now apply R_same. Qed.

Lemma within_redis_dbSize : within R redis_dbSize.
Proof. apply within_send. intros w r w' [= _ <-]. now apply R_same. Qed.

Lemma within_parse_if_truthy `{JSON} cached : within R (parse_if_truthy cached).
Proof.
  unfold parse_if_truthy. destruct cached as [[|c text]|]; try apply within_ret.
  destruct (JSON_parse _); [apply within_ret | apply within_throw].
Qed.

End Frames.

Lemma same_db_same w w' : db w' = db w -> same_db w w'.
Proof. auto. Qed.

Lemma same_db_trans w1 w2 w3 : same_db w1 w2 -> same_db w2 w3 -> same_db w1 w3.
Proof. unfold same_db. congruence. Qed.

Lemma same_at_same key w w' : db w' = db w -> same_at key w w'.
Proof. unfold same_at. now intros ->. Qed.

Lemma same_at_trans key w1 w2 w3 :
  same_at key w1 w2 -> same_at key w2 w3 -> same_at key w1 w3.
Proof. unfold same_at. congruence. Qed.

(** Pushes a frame through the outline of a function, down to the
    commands that write; [S] and [T] are the two facts about the frame. *)
Ltac framing S T :=
  repeat (first
    [ apply within_ensureConnection
    | apply within_lift | apply within_try_catch | apply within_bind
    | apply within_ret | apply within_console_error | apply within_throw
    | apply within_reject | apply within_promise_all2
    | apply within_redis_get | apply within_redis_exists | apply within_redis_keys
    | apply within_redis_info | apply within_redis_dbSize
    | apply within_parse_if_truthy
    | match goal with
      | |- forall _, within _ _ => intro
      | |- within _ (if ?b then _ else _) => destruct b
      end ];
    try exact S; try exact T).

Lemma same_at_redis_setEx key key' ttl value :
  key' <> key -> within (same_at key) (redis_setEx key' ttl value).
Proof.
  intros Hne. unfold redis_setEx. destruct value;
    [|apply within_reject, same_at_same].
  apply within_send; [apply same_at_same | apply same_at_trans|].
  intros w r w'. destruct (ttl <=? 0); intros [= _ <-].
  - now apply same_at_same.
  - unfold same_at. cbn [db set_db]. now apply lookup_insert_ne.
Qed.

Lemma same_at_redis_del key keys :
  key ∉ keys -> within (same_at key) (redis_del keys).
Proof.
  intros Hout. apply within_send; [apply same_at_same | apply same_at_trans|].
  intros w r w' [= _ <-]. unfold same_at. cbn [db set_db].
  now apply lookup_foldr_delete_notin.
Qed.

Lemma same_at_redis_incr key key' :
  key' <> key -> within (same_at key) (redis_incr key').
Proof.
  intros Hne. apply within_send; [apply same_at_same | apply same_at_trans|].
  intros w r w' E.
  assert (Hins : forall e, same_at key w (set_db (<[key' := e]> (db w)) w)).
  { intros e. unfold same_at. cbn [db set_db]. now apply lookup_insert_ne. }
  destruct (live w key') as [[v d]|]; [|injection E as _ <-; apply Hins].
  destruct (Z_of_string v); [|injection E as _ <-; now apply same_at_same].
  destruct (_ && _); injection E as _ <-; [apply Hins | now apply same_at_same].
Qed.

Lemma same_at_redis_expire key key' seconds :
  key' <> key -> within (same_at key) (redis_expire key' seconds).
Proof.
  intros Hne. apply within_send; [apply same_at_same | apply same_at_trans|].
  intros w r w' E.
  destruct (live w key') as [[v d]|]; [|injection E as _ <-; now apply same_at_same].
  destruct (seconds <=? 0); injection E as _ <-; unfold same_at; cbn [db set_db].
  - now apply lookup_delete_ne.
  - now apply lookup_insert_ne.
Qed.

(** ** Reads never write *)

(** X1. In every state of the store, reachable or not, and whatever the
    payloads it holds, the three gets, [validateSession] and
    [getCacheStats] leave every key as it was. *)
Theorem reads_change_no_key `{JSON} :
  forall (w : World),
    (forall t id, db (snd (getCached t id w)) = db w) /\
    (forall userId tokenId, db (snd (validateSession userId tokenId w)) = db w) /\
    db (snd (getCacheStats w)) = db w.
Proof.
  intros w. split; [|split].
  - intros t id. rewrite getCached_shape.
    assert (Hw : within same_db (get_at (entity_key t id)))
      by (unfold get_at; framing same_db_same same_db_trans).
    eapply Hw, surjective_pairing.
  - intros u t.
    assert (Hw : within same_db (validateSession u t))
      by (unfold validateSession; framing same_db_same same_db_trans).
    eapply Hw, surjective_pairing.
  - assert (Hw : within same_db getCacheStats)
      by (unfold getCacheStats; framing same_db_same same_db_trans).
    eapply Hw, surjective_pairing.
Qed.

(** ** A reachable store stays reachable *)

Lemma steady_ret {A} (a : A) : steady (ret a).
Proof. intros w r w' Hr [= _ <-]. now split. Qed.

Lemma steady_reject {A} (e : error) : steady (@reject A e).
Proof. intros w r w' Hr [= _ <-]. now split. Qed.

Lemma steady_throw {A} (e : error) : steady (@throw A e).
Proof. intros w r w' Hr [= _ <-]. now split. Qed.

Lemma steady_console_error label e : steady (console_error label e).
Proof. intros w r w' Hr [= _ <-]. now split. Qed.

Lemma steady_bind {A B} (m : M A) (k : A -> M B) :
  steady m -> (forall a, steady (k a)) -> steady (bind m k).
Proof.
  intros Hm Hk w r w' Hr. unfold bind.
  destruct (m w) as [[a|e] w1] eqn:Em.
  - intros Ek. destruct (Hm _ _ _ Hr Em) as [Hr1 Hn1].
    destruct (Hk a _ _ _ Hr1 Ek) as [Hr2 Hn2]. split; [exact Hr2 | congruence].
  - intros [= _ <-]. eapply Hm; eauto.
Qed.

Lemma steady_try_catch {A} (body : M A) (handler : error -> M A) :
  steady body -> (forall e, steady (handler e)) -> steady (try_catch body handler).
Proof.
  intros Hb Hh w r w' Hr. unfold try_catch.
  destruct (body w) as [[a|e] w1] eqn:Eb.
  - intros [= _ <-]. eapply Hb; eauto.
  - intros Eh. destruct (Hb _ _ _ Hr Eb) as [Hr1 Hn1].
    destruct (Hh e _ _ _ Hr1 Eh) as [Hr2 Hn2]. split; [exact Hr2 | congruence].
Qed.

Lemma steady_promise_all2 {A B} (p : M A) (q : M B) :
  steady p -> steady q -> steady (promise_all2 p q).
Proof.
  intros Hp Hq w r w' Hr. unfold promise_all2.
  destruct (p w) as [ra w1] eqn:Ep. destruct (q w1) as [rb w2] eqn:Eq.
  intros E. assert (w' = w2) as -> by (destruct ra, rb; congruence).
  destruct (Hp _ _ _ Hr Ep) as [Hr1 Hn1].
  destruct (Hq _ _ _ Hr1 Eq) as [Hr2 Hn2]. split; [exact Hr2 | congruence].
Qed.

Lemma steady_lift {A} (f : A -> reply) (m : M A) : steady m -> steady (lift f m).
Proof.
  intros Hm w r w' Hr. unfold lift. destruct (m w) as [[a|e] w1] eqn:Em;
    intros [= _ <-]; eapply Hm; eauto.
Qed.

Lemma reachable_next_tick w : reachable w -> reachable (next_tick w).
Proof.
  intros [Hf Hc]. split; [|exact Hc]. intros n Hn. apply Hf. cbn in Hn. lia.
Qed.

Lemma steady_send {A} (cmd : M A) : steady cmd -> steady (send cmd).
Proof.
  intros Hc w r w' Hr. unfold send.
  destruct (isOpen w); [|intros [= _ <-]; now split].
  destruct (fails_false w (tick w) (proj1 Hr (tick w) (le_n _))) as [Hcut Hlost].
  rewrite Hcut, Hlost.
  intros E. destruct (Hc _ _ _ (reachable_next_tick w Hr) E) as [Hr' Hn'].
  split; [exact Hr' | exact Hn'].
Qed.

Lemma steady_ensureConnection : steady ensureConnection.
Proof.
  intros w r w' Hr E. rewrite (ensureConnection_reachable w Hr) in E.
  injection E as _ <-. split; [apply ready_reachable, settle_ready, Hr | apply now_settle].
Qed.

(** Server commands touch neither the client nor the fault schedule nor
    the clock. *)
Ltac cmd_steady :=
  let Hr := fresh "Hr" in
  let E := fresh "E" in
  intros ? ? ? Hr E;
  repeat match type of E with
         | context [match ?x with _ => _ end] => destruct x
         end;
  cbv [reject ret throw] in E;
  injection E as <- <-; (split; [exact Hr | reflexivity]).

Ltac steadying :=
  repeat first
    [ apply steady_ensureConnection
    | apply steady_lift | apply steady_try_catch | apply steady_bind
    | apply steady_ret | apply steady_console_error | apply steady_throw
    | apply steady_reject | apply steady_promise_all2 | apply steady_send
    | match goal with
      | |- forall _, steady _ => intro
      | |- steady (if ?b then _ else _) => destruct b
      | |- steady (match ?x with _ => _ end) => destruct x
      end ];
  try cmd_steady.

Lemma handle_steady `{JSON} (r : request) : steady (handle r).
Proof.
  destruct r;
    unfold handle, getCachedUser, setCachedUser, invalidateUserCache,
      getCachedTasks, setCachedTasks, invalidateTasksCache,
      getCachedTask, setCachedTask, invalidateTaskCache,
      storeSession, validateSession, revokeSession, revokeAllUserSessions,
      checkRateLimit, getCacheStats,
      redis_get, redis_setEx, redis_del, redis_exists, redis_keys, redis_incr,
      redis_expire, redis_info, redis_dbSize, parse_if_truthy;
    steadying.
Qed.

Lemma run_steady `{JSON} events :
  forall w, reachable w -> reachable (run events w).
Proof.
  induction events as [|[r|seconds] events IH]; intros w Hr; cbn [run].
  - exact Hr.
  - apply IH. eapply (handle_steady r w); [exact Hr | apply surjective_pairing].
  - apply IH. exact Hr.
Qed.

(** ** What a request can change *)

Lemma glob_literal_prefix l p k :
  glob_literal l = true -> glob (l +:+ p) k = true -> String.prefix l k = true.
Proof.
  revert k. induction l as [|c l IH]; intros k Hl Hg; [apply prefix_nil|].
  rewrite glob_literal_cons in Hl. apply andb_true_iff in Hl as [Hc Hl].
  rewrite append_cons, (glob_literal_char c _ k Hc) in Hg.
  destruct k as [|c' k]; [discriminate Hg|].
  apply andb_true_iff in Hg as [Hcc Hg]. apply Ascii.eqb_eq in Hcc as <-.
  cbn [String.prefix]. destruct (ascii_dec c c); [|contradiction].
  now apply IH.
Qed.

Lemma redis_keys_listed pattern w keys w' :
  redis_keys pattern w = (Returned keys, w') ->
  forall k, k ∈ keys -> glob pattern k = true.
Proof.
  unfold redis_keys, send. destruct (isOpen w); [|discriminate].
  destruct (faults w (tick w)); [discriminate|].
  destruct (lost w (tick w)); [discriminate|].
  intros [= <- _] k Hk. apply list_elem_of_filter in Hk. tauto.
Qed.

Lemma revokeAllUserSessions_same_at userId key :
  String.prefix "session:" key = false ->
  within (same_at key) (revokeAllUserSessions userId).
Proof.
  intros Hkey. unfold revokeAllUserSessions.
  apply within_try_catch; [apply same_at_trans| |];
    [|intros e; apply within_console_error, same_at_same].
  apply within_bind; [apply same_at_trans | apply within_ensureConnection, same_at_same|].
  intros ok. destruct ok; cbn [negb]; [|apply within_ret, same_at_same].
  apply (within_bind_with (same_at key) (same_at_trans key)
           (fun keys => forall k, k ∈ keys ->
                                  glob ("session:" +:+ userId +:+ ":*") k = true)).
  - apply within_redis_keys; [apply same_at_same | apply same_at_trans].
  - intros w keys w' E. exact (redis_keys_listed _ _ _ _ E).
  - intros keys Hkeys. destruct (0 <? Z.of_nat (length keys));
      [|apply within_ret, same_at_same].
    apply within_bind; [apply same_at_trans| |intros _; apply within_ret, same_at_same].
    apply same_at_redis_del. intros Hin. apply Hkeys in Hin.
    apply (glob_literal_prefix "session:") in Hin; [congruence | reflexivity].
Qed.

(** A request that neither sets nor clears a key outside the session and
    rate-limit namespaces leaves its entry exactly as it was, in every
    state of the store. *)
Lemma handle_same_at `{JSON} key r :
  sets r <> Some key -> key ∉ clears r ->
  (forall u e, ratelimit_key u e <> key) ->
  String.prefix "session:" key = false ->
  within (same_at key) (handle r).
Proof.
  intros Hs Hc Hrate Hsession.
  destruct r; cbn [sets clears] in Hs, Hc;
    try (apply within_lift, revokeAllUserSessions_same_at, Hsession);
    unfold handle, getCachedUser, setCachedUser, invalidateUserCache,
      getCachedTasks, setCachedTasks, invalidateTasksCache,
      getCachedTask, setCachedTask, invalidateTaskCache,
      storeSession, validateSession, revokeSession,
      checkRateLimit, getCacheStats;
    framing (same_at_same key) (same_at_trans key);
    first [ apply same_at_redis_setEx; congruence
          | apply same_at_redis_del; set_solver
          | apply same_at_redis_incr; auto
          | apply same_at_redis_expire; auto ].
Qed.

Lemma run_same_at `{JSON} key events :
  undisturbed key events ->
  (forall u e, ratelimit_key u e <> key) ->
  String.prefix "session:" key = false ->
  forall w, db (run events w) !! key = db w !! key.
Proof.
  intros Hu Hrate Hsession.
  induction Hu as [|[r|seconds] events Hr _ IH]; intros w; cbn [run].
  - reflexivity.
  - rewrite IH. destruct Hr as [Hs Hc].
    eapply (handle_same_at key r Hs Hc Hrate Hsession), surjective_pairing.
  - rewrite IH. reflexivity.
Qed.

Lemma now_run_reachable `{JSON} events :
  forall w, reachable w ->
  now (run events w)
  = now w + fold_right (fun e acc => match e with Wait s => s + acc | Call _ => acc end)
                       0 events.
Proof.
  induction events as [|[r|seconds] events IH]; intros w Hr; cbn [run fold_right].
  - lia.
  - destruct (handle_steady r w _ _ Hr (surjective_pairing _)) as [Hr' Hn'].
    rewrite (IH _ Hr'), Hn'. reflexivity.
  - rewrite (IH (elapse seconds w) Hr). cbn [now elapse set_now]. lia.
Qed.

(** ** Keys of cached entities *)

Lemma entity_key_inj t id t' id' :
  entity_key t id = entity_key t' id' -> t = t' /\ id = id'.
Proof.
  destruct t, t'; unfold entity_key, user_key, tasks_key, task_key; intros E;
    try discriminate E;
    (split; [reflexivity|]); eapply String.app_inj; exact E.
Qed.

Lemma entity_key_not_session t id : String.prefix "session:" (entity_key t id) = false.
Proof. destruct t; reflexivity. Qed.

Lemma decode_text_of v : json_clean v = true -> decode (Some (text_of v)) = v.
Proof.
  intros Hclean.
  pose proof (serialize_defined v (json_clean_defined v Hclean)) as Hs.
  pose proof (parse_serialize v (text_of v) Hclean Hs) as Hp.
  unfold decode. destruct (text_of v) as [|c text] eqn:E.
  - now apply serialize_nonempty in Hs.
  - cbn [JSON_parse ecma_JSON]. now rewrite Hp.
Qed.

(** X2. The keys of the three entity types never collide: a key names one
    type and one identifier.  So, in a reachable store, caching a value
    for one entity changes what no get of another entity returns. *)
Theorem setCached_leaves_other_entities `{JSON} :
  forall (t t' : entity) (id id' : string) (v : jsval) (w : World),
    reachable w ->
    (t, id) <> (t', id') ->
    entity_key t id <> entity_key t' id' /\
    fst (getCached t' id' (snd (setCached t id v w))) = fst (getCached t' id' w).
Proof.
  intros t t' id id' v w Hr Hne.
  assert (Hkey : entity_key t id <> entity_key t' id').
  { intros E. apply entity_key_inj in E as [-> ->]. now apply Hne. }
  split; [exact Hkey|].
  rewrite !getCached_shape, setCached_shape.
  assert (Hsame : within (same_at (entity_key t' id'))
                         (set_at (entity_key t id) (entity_ttl t) v)).
  { unfold set_at. framing (same_at_same (entity_key t' id')) (same_at_trans (entity_key t' id')).
    now apply same_at_redis_setEx. }
  assert (Hsteady : steady (set_at (entity_key t id) (entity_ttl t) v)).
  { unfold set_at, redis_setEx. steadying. }
  destruct (set_at (entity_key t id) (entity_ttl t) v w) as [r w1] eqn:E.
  destruct (Hsteady _ _ _ Hr E) as [Hr1 Hn1]. apply Hsame in E. cbn [snd].
  destruct (get_at_reachable (entity_key t' id') w1 Hr1) as (w2 & -> & _).
  destruct (get_at_reachable (entity_key t' id') w Hr) as (w3 & -> & _).
  cbn [fst]. do 3 f_equal. unfold live. now rewrite E, Hn1.
Qed.

Lemma setCached_leaves_other_entities_witness :
  entity_key Task "s:x" <> entity_key Tasks ":x" /\
  fst (getCached Tasks ":x" (snd (setCached Task "s:x" JNull fresh_world)))
  = fst (getCached Tasks ":x" fresh_world).
Proof.
  apply (setCached_leaves_other_entities Task Tasks "s:x" ":x" JNull fresh_world).
  - exact fresh_world_reachable.
  - discriminate.
Defined.

(** ** Invalidation *)

(** X3. In a reachable store, [invalidateUserCache] and
    [invalidateTasksCache] make the next get of that user (that task
    list) return null; and in every state of the store they change no key
    but their own. *)
Theorem invalidate_clears_its_key_only `{JSON} :
  forall (id : string) (w : World),
    (reachable w ->
     fst (getCachedUser id (snd (invalidateUserCache id w))) = Returned JNull /\
     fst (getCachedTasks id (snd (invalidateTasksCache id w))) = Returned JNull) /\
    (forall key, key <> user_key id ->
                 db (snd (invalidateUserCache id w)) !! key = db w !! key) /\
    (forall key, key <> tasks_key id ->
                 db (snd (invalidateTasksCache id w)) !! key = db w !! key).
Proof.
  intros id w.
  assert (Hdel : forall label k key, key <> k ->
                   db (snd (del_at label k w)) !! key = db w !! key).
  { intros label k key Hne.
    assert (Hw : within (same_at key) (del_at label k)).
    { unfold del_at. framing (same_at_same key) (same_at_trans key).
      apply same_at_redis_del. intros Hin. apply list_elem_of_singleton in Hin.
      contradiction. }
    eapply Hw, surjective_pairing. }
  assert (Hget : forall label k, reachable w ->
                   fst (get_at k (snd (del_at label k w))) = Returned JNull).
  { intros label k Hr.
    destruct (del_at_reachable label k w Hr) as (w1 & -> & Hr1 & Hn1 & Hd1).
    cbn [snd].
    destruct (get_at_reachable k w1 (ready_reachable _ Hr1)) as (w2 & -> & _).
    cbn [fst]. rewrite (live_None w1 k); [reflexivity|].
    rewrite Hd1. apply lookup_delete_eq. }
  split; [|split].
  - intros Hr. rewrite getCachedUser_shape, getCachedTasks_shape,
      invalidateUserCache_shape, invalidateTasksCache_shape.
    split; apply Hget, Hr.
  - intros key Hne. rewrite invalidateUserCache_shape. now apply Hdel.
  - intros key Hne. rewrite invalidateTasksCache_shape. now apply Hdel.
Qed.

Lemma invalidate_clears_its_key_only_witness :
  fst (getCachedUser "u1" (snd (invalidateUserCache "u1" corrupt_world))) = Returned JNull /\
  fst (getCachedTasks "u1" (snd (invalidateTasksCache "u1" corrupt_world))) = Returned JNull.
Proof.
  destruct (invalidate_clears_its_key_only "u1" corrupt_world) as [Hget _].
  apply Hget. split; [reflexivity | reflexivity].
Defined.

(** ** Entries live until their TTL *)

(** X4. In a reachable store, a value that JSON represents, once cached,
    is what the get returns for as long as its TTL has not run out,
    whatever other calls to the layer are made in between, provided none
    of them sets or invalidates that same key. *)
Theorem cached_value_survives_until_ttl :
  forall (t : entity) (id : string) (v : jsval) (w : World) (events : list event),
    reachable w ->
    json_clean v = true ->
    undisturbed (entity_key t id) events ->
    let w' := run events (snd (setCached t id v w)) in
    now w' < now w + entity_ttl t ->
    fst (getCached t id w') = Returned v.
Proof.
  intros t id v w events Hr Hclean Hquiet. cbn zeta.
  pose proof (serialize_defined v (json_clean_defined v Hclean)) as Hs.
  rewrite getCached_shape, setCached_shape.
  destruct (set_at_reachable (H := ecma_JSON) (entity_key t id) (entity_ttl t) v
              (text_of v) w Hr (entity_ttl_pos t) Hs) as (w1 & -> & Hr1 & Hn1 & Hd1).
  cbn [snd]. intros Hearly.
  pose proof (run_steady events w1 (ready_reachable _ Hr1)) as Hr2.
  pose proof (run_same_at (entity_key t id) events Hquiet
                (fun u e => ratelimit_key_not_entity_key u e t id)
                (entity_key_not_session t id) w1) as Hsame.
  destruct (get_at_reachable (entity_key t id) (run events w1) Hr2) as (w3 & -> & _).
  cbn [fst]. f_equal.
  rewrite (live_lookup _ _ (text_of v) (Some (now w + entity_ttl t))).
  - apply decode_text_of, Hclean.
  - rewrite Hsame, Hd1. apply lookup_insert_eq.
  - unfold expired. destruct (Z.leb_spec (now w + entity_ttl t) (now (run events w1)));
      [lia | reflexivity].
Qed.

Lemma cached_value_survives_until_ttl_witness :
  fst (getCached User "u1"
         (run busy_half_hour (snd (setCached User "u1" sample_user fresh_world))))
  = Returned sample_user.
Proof.
  apply (cached_value_survives_until_ttl User "u1" sample_user fresh_world busy_half_hour).
  - exact fresh_world_reachable.
  - reflexivity.
  - unfold busy_half_hour, undisturbed.
    repeat constructor; try discriminate; cbn [clears];
      rewrite ?elem_of_cons, ?elem_of_nil; intros H; decompose [or] H;
      try discriminate; assumption.
  - vm_compute. reflexivity.
Defined.

(** ** Windows of the rate limiter *)

Lemma count_at_entry w key c d :
  db w !! key = Some (string_of_Z c, d) -> expired d (now w) = false ->
  count_at w key = Some c /\ deadline_at w key = d.
Proof.
  intros Hdb He. unfold count_at, deadline_at.
  rewrite (live_lookup w key _ d Hdb He). split; [apply Z_of_string_of_Z | reflexivity].
Qed.

Lemma reachable_elapse d w : reachable w -> reachable (elapse d w).
Proof. intros Hr. exact Hr. Qed.

(** Calls made while the counter is alive: before its expiry time, or at
    any time when it has none. *)
Lemma calls_in_window userId endpoint maxRequests deadline waits
      (Hmax : safe_integer maxRequests) :
  Forall (fun d => 0 <= d) waits ->
  forall w c,
    reachable w ->
    db w !! ratelimit_key userId endpoint = Some (string_of_Z c, deadline) ->
    1 <= c ->
    safe_integer (c + Z.of_nat (length waits)) ->
    (forall t, deadline = Some t -> now w + total waits < t) ->
    let w' := calls_after_waits waits userId endpoint maxRequests w in
    reachable w' /\ now w' = now w + total waits /\
    db w' !! ratelimit_key userId endpoint
      = Some (string_of_Z (c + Z.of_nat (length waits)), deadline).
Proof.
  induction 1 as [|d waits Hd Hwaits IH]; intros w c Hr Hdb Hc Hsafe Hlate; cbn zeta.
  - cbn [calls_after_waits total fold_right length]. rewrite !Z.add_0_r. auto.
  - cbn [calls_after_waits]. cbn [total fold_right length] in *. fold (total waits) in *.
    assert (Hpos : 0 <= total waits).
    { clear -Hwaits. induction Hwaits; cbn [total fold_right]; [lia|]. fold (total l). lia. }
    assert (Hexp : expired deadline (now (elapse d w)) = false).
    { destruct deadline as [t|]; [|reflexivity]. specialize (Hlate t eq_refl).
      unfold expired. cbn [now elapse set_now].
      destruct (Z.leb_spec t (now w + d)); [lia | reflexivity]. }
    destruct (count_at_entry (elapse d w) _ c deadline Hdb Hexp) as [Hcount Hdl].
    destruct (checkRateLimit_step userId endpoint maxRequests (elapse d w) c
                (reachable_elapse d w Hr) Hcount)
      as (w1 & E & Hr1 & Hn1 & Hd1);
      [lia | unfold safe_integer, MAX_SAFE_INTEGER in *; lia | exact Hmax |].
    rewrite E. cbn [snd].
    destruct (Z.eqb_spec (c + 1) 1) as [Heq|_]; [lia|].
    rewrite Hdl in Hd1.
    specialize (IH w1 (c + 1) (ready_reachable _ Hr1)).
    cbn zeta in IH. rewrite Hn1 in IH. cbn [now elapse set_now] in IH.
    destruct IH as (Hr' & Hn' & Hdb').
    + rewrite Hd1. apply lookup_insert_eq.
    + lia.
    + unfold safe_integer in *. lia.
    + intros t Ht. specialize (Hlate t Ht). lia.
    + split; [exact Hr'|]. split; [lia|].
      rewrite Hdb'. do 3 f_equal. lia.
Qed.

(** X5. The window is anchored at the call that opens it.  In a reachable
    store, for a limit [m] that a JavaScript number holds exactly, after a
    first call at time [t] on a counter at 0, every later
    call made before [t + 60], however the calls are spaced, continues the
    count: the call number [k] returns [allowed = (k <= m)] and
    [remaining = max 0 (m - k)], and the expiry of the key stays [t + 60]:
    later calls do not extend the window. *)
Theorem checkRateLimit_counts_within_window :
  forall (userId endpoint : string) (maxRequests : Z) (w : World)
         (waits : list Z) (d : Z),
    reachable w ->
    count_at w (ratelimit_key userId endpoint) = Some 0 ->
    Forall (fun d => 0 <= d) waits -> 0 <= d ->
    total waits + d < 60 ->
    safe_integer (Z.of_nat (length waits) + 2) ->
    safe_integer maxRequests ->
    let key := ratelimit_key userId endpoint in
    let w1 := snd (checkRateLimit userId endpoint maxRequests w) in
    let wn := calls_after_waits waits userId endpoint maxRequests w1 in
    let k := Z.of_nat (length waits) + 2 in
    fst (checkRateLimit userId endpoint maxRequests (elapse d wn))
      = Returned (mkRateLimit (k <=? maxRequests) (Z.max 0 (maxRequests - k))) /\
    deadline_at (snd (checkRateLimit userId endpoint maxRequests (elapse d wn))) key
      = Some (now w + 60).
Proof.
  intros u e m w waits d Hr Hc Hwaits Hd Hin Hsafe Hmax. cbn zeta.
  destruct (checkRateLimit_step u e m w 0 Hr Hc) as (w1 & -> & Hr1 & Hn1 & Hd1);
    [lia | unfold safe_integer, MAX_SAFE_INTEGER; lia | exact Hmax |].
  cbn [snd]. change (0 + 1 =? 1) with true in Hd1. cbv iota in Hd1.
  assert (Hpos : 0 <= total waits).
  { clear -Hwaits. induction Hwaits; cbn [total fold_right]; [lia|]. fold (total l). lia. }
  destruct (calls_in_window u e m (Some (now w + 60)) waits Hmax Hwaits w1 (0 + 1)
              (ready_reachable _ Hr1)) as (Hrn & Hnn & Hdn).
  - rewrite Hd1. apply lookup_insert_eq.
  - lia.
  - unfold safe_integer in *. lia.
  - intros t [= <-]. lia.
  - set (wn := calls_after_waits waits u e m w1) in *.
    assert (Hexp : expired (Some (now w + 60)) (now (elapse d wn)) = false).
    { unfold expired. cbn [now elapse set_now].
      destruct (Z.leb_spec (now w + 60) (now wn + d)); [lia | reflexivity]. }
    destruct (count_at_entry (elapse d wn) _ _ _ Hdn Hexp) as [Hcount Hdl].
    destruct (checkRateLimit_step_count u e m (elapse d wn) _
                (reachable_elapse d wn Hrn) Hcount) as (w' & -> & _ & _ & Hdl' & _);
      [lia | unfold safe_integer in *; lia | exact Hmax |].
    cbn [fst snd]. replace (0 + 1 + Z.of_nat (length waits) + 1)
      with (Z.of_nat (length waits) + 2) in * by lia.
    split; [reflexivity|]. rewrite Hdl', Hdl.
    destruct (Z.eqb_spec (Z.of_nat (length waits) + 2) 1); [lia | reflexivity].
Qed.

Lemma checkRateLimit_counts_within_window_witness :
  let key := ratelimit_key "u1" "/api/tasks" in
  let w1 := snd (checkRateLimit "u1" "/api/tasks" 3 fresh_world) in
  let wn := calls_after_waits [10; 20] "u1" "/api/tasks" 3 w1 in
  let k := Z.of_nat (length [10; 20]) + 2 in
  fst (checkRateLimit "u1" "/api/tasks" 3 (elapse 29 wn))
    = Returned (mkRateLimit (k <=? 3) (Z.max 0 (3 - k))) /\
  deadline_at (snd (checkRateLimit "u1" "/api/tasks" 3 (elapse 29 wn))) key
    = Some (now fresh_world + 60).
Proof.
  apply (checkRateLimit_counts_within_window "u1" "/api/tasks" 3 fresh_world [10; 20] 29).
  - exact fresh_world_reachable.
  - reflexivity.
  - repeat constructor; lia.
  - lia.
  - reflexivity.
  - unfold safe_integer, MAX_SAFE_INTEGER. cbn. lia.
  - unfold safe_integer, MAX_SAFE_INTEGER. lia.
Defined.

(** X6. The window ends 60 seconds after the call that opened it: in a
    reachable store, for a limit [m] that a JavaScript number holds
    exactly, the first call made at or after that time, however
    many calls the window saw, counts as call number 1 again, returns
    [allowed = (1 <= m)] and [remaining = max 0 (m - 1)], and gives the
    key a fresh 60-second expiry from its own time. *)
Theorem checkRateLimit_window_restarts :
  forall (userId endpoint : string) (maxRequests : Z) (w : World)
         (waits : list Z) (d : Z),
    reachable w ->
    count_at w (ratelimit_key userId endpoint) = Some 0 ->
    Forall (fun d => 0 <= d) waits -> 0 <= d ->
    total waits < 60 -> 60 <= total waits + d ->
    safe_integer (Z.of_nat (length waits) + 1) ->
    safe_integer maxRequests ->
    let key := ratelimit_key userId endpoint in
    let w1 := snd (checkRateLimit userId endpoint maxRequests w) in
    let wn := calls_after_waits waits userId endpoint maxRequests w1 in
    fst (checkRateLimit userId endpoint maxRequests (elapse d wn))
      = Returned (mkRateLimit (1 <=? maxRequests) (Z.max 0 (maxRequests - 1))) /\
    deadline_at (snd (checkRateLimit userId endpoint maxRequests (elapse d wn))) key
      = Some (now w + total waits + d + 60).
Proof.
  intros u e m w waits d Hr Hc Hwaits Hd Hin Hout Hsafe Hmax. cbn zeta.
  destruct (checkRateLimit_step u e m w 0 Hr Hc) as (w1 & -> & Hr1 & Hn1 & Hd1);
    [lia | unfold safe_integer, MAX_SAFE_INTEGER; lia | exact Hmax |].
  cbn [snd]. change (0 + 1 =? 1) with true in Hd1. cbv iota in Hd1.
  destruct (calls_in_window u e m (Some (now w + 60)) waits Hmax Hwaits w1 (0 + 1)
              (ready_reachable _ Hr1)) as (Hrn & Hnn & Hdn).
  - rewrite Hd1. apply lookup_insert_eq.
  - lia.
  - unfold safe_integer in *. lia.
  - intros t [= <-]. lia.
  - set (wn := calls_after_waits waits u e m w1) in *.
    assert (Hcount : count_at (elapse d wn) (ratelimit_key u e) = Some 0).
    { unfold count_at, live. cbn [db elapse set_now now]. rewrite Hdn.
      unfold expired. destruct (Z.leb_spec (now w + 60) (now wn + d)); [reflexivity | lia]. }
    destruct (checkRateLimit_step_count u e m (elapse d wn) 0
                (reachable_elapse d wn Hrn) Hcount) as (w' & -> & _ & _ & Hdl' & _);
      [lia | unfold safe_integer, MAX_SAFE_INTEGER; lia | exact Hmax |].
    cbn [fst snd]. split; [reflexivity|]. rewrite Hdl'.
    change (0 + 1 =? 1) with true. cbv iota. cbn [now elapse set_now]. f_equal. lia.
Qed.

Lemma checkRateLimit_window_restarts_witness :
  let key := ratelimit_key "u1" "/api/tasks" in
  let w1 := snd (checkRateLimit "u1" "/api/tasks" 3 fresh_world) in
  let wn := calls_after_waits [1; 1; 1] "u1" "/api/tasks" 3 w1 in
  fst (checkRateLimit "u1" "/api/tasks" 3 (elapse 57 wn))
    = Returned (mkRateLimit (1 <=? 3) (Z.max 0 (3 - 1))) /\
  deadline_at (snd (checkRateLimit "u1" "/api/tasks" 3 (elapse 57 wn))) key
    = Some (now fresh_world + total [1; 1; 1] + 57 + 60).
Proof.
  apply (checkRateLimit_window_restarts "u1" "/api/tasks" 3 fresh_world [1; 1; 1] 57).
  - exact fresh_world_reachable.
  - reflexivity.
  - repeat constructor; lia.
  - lia.
  - reflexivity.
  - cbn. lia.
  - unfold safe_integer, MAX_SAFE_INTEGER. cbn. lia.
  - unfold safe_integer, MAX_SAFE_INTEGER. lia.
Defined.

(** ** A window that never closes *)

Lemma checkRateLimit_expire_cut userId endpoint maxRequests w :
  second_call_cut w ->
  live w (ratelimit_key userId endpoint) = None ->
  exists w1,
    checkRateLimit userId endpoint maxRequests w
      = (Returned (mkRateLimit true maxRequests), w1) /\
    reachable w1 /\ now w1 = now w /\
    db w1 !! ratelimit_key userId endpoint = Some (string_of_Z 1, None).
Proof.
  intros (Ho & Hf0 & Hf1 & Hf) Hl.
  apply fails_false in Hf0 as [Hcut0 Hlost0].
  unfold checkRateLimit, try_catch, bind, ensureConnection, try_catch, bind, connectRedis.
  rewrite Ho, andb_false_r. cbn [ret negb].
  unfold redis_incr, send. rewrite Ho, Hcut0, Hlost0, live_next_tick, Hl.
  cbv zeta. rewrite (Number_of_Z_exact 1) by lia.
  change (1 =? 1) with true. cbv iota.
  unfold redis_expire, send. cbn [isOpen set_db next_tick faults tick].
  rewrite Ho, Hf1. cbn [reject console_error ret].
  eexists. split; [reflexivity|]. split; [|split].
  - split; cbn [faults tick isOpen isConnected count_rejection print_error next_tick set_db].
    + intros n Hn. apply (Hf n). cbn in Hn. lia.
    + congruence.
  - reflexivity.
  - cbn [db count_rejection print_error next_tick set_db]. apply lookup_insert_eq.
Qed.

(** X7. When the round trip that should set the expiry is cut right after
    the increment that created the counter, [checkRateLimit] answers
    [{allowed: true, remaining: maxRequests}] and leaves a counter that has
    no expiry.  No later call gives it one: however much time passes
    between the calls that follow, the count goes on from 1, so that, for
    a limit that a JavaScript number holds exactly, call number [k] is
    refused as soon as [k] exceeds the limit, for good. *)
Theorem checkRateLimit_counter_without_expiry :
  forall (userId endpoint : string) (maxRequests : Z) (w : World)
         (waits : list Z) (d : Z),
    second_call_cut w ->
    live w (ratelimit_key userId endpoint) = None ->
    Forall (fun d => 0 <= d) waits -> 0 <= d ->
    safe_integer (Z.of_nat (length waits) + 2) ->
    safe_integer maxRequests ->
    let key := ratelimit_key userId endpoint in
    let w1 := snd (checkRateLimit userId endpoint maxRequests w) in
    let wn := calls_after_waits waits userId endpoint maxRequests w1 in
    let k := Z.of_nat (length waits) + 2 in
    fst (checkRateLimit userId endpoint maxRequests w)
      = Returned (mkRateLimit true maxRequests) /\
    db w1 !! key = Some (string_of_Z 1, None) /\
    fst (checkRateLimit userId endpoint maxRequests (elapse d wn))
      = Returned (mkRateLimit (k <=? maxRequests) (Z.max 0 (maxRequests - k))) /\
    deadline_at (snd (checkRateLimit userId endpoint maxRequests (elapse d wn))) key = None.
Proof.
  intros u e m w waits d Hcut Hl Hwaits Hd Hsafe Hmax. cbn zeta.
  destruct (checkRateLimit_expire_cut u e m w Hcut Hl) as (w1 & -> & Hr1 & Hn1 & Hd1).
  cbn [fst snd]. split; [reflexivity|]. split; [exact Hd1|].
  destruct (calls_in_window u e m None waits Hmax Hwaits w1 1 Hr1 Hd1) as (Hrn & Hnn & Hdn).
  - lia.
  - unfold safe_integer in *. lia.
  - discriminate.
  - set (wn := calls_after_waits waits u e m w1) in *.
    destruct (count_at_entry (elapse d wn) _ _ _ Hdn eq_refl) as [Hcount Hdl].
    destruct (checkRateLimit_step_count u e m (elapse d wn) _
                (reachable_elapse d wn Hrn) Hcount) as (w' & -> & _ & _ & Hdl' & _);
      [lia | unfold safe_integer in *; lia | exact Hmax |].
    cbn [fst snd]. replace (1 + Z.of_nat (length waits) + 1)
      with (Z.of_nat (length waits) + 2) in * by lia.
    split; [reflexivity|]. rewrite Hdl', Hdl.
    destruct (Z.eqb_spec (Z.of_nat (length waits) + 2) 1); [lia | reflexivity].
Qed.

Lemma checkRateLimit_counter_without_expiry_witness :
  let key := ratelimit_key "u1" "/api/tasks" in
  let w1 := snd (checkRateLimit "u1" "/api/tasks" 3 hiccup_world) in
  let wn := calls_after_waits [3600; 86400] "u1" "/api/tasks" 3 w1 in
  let k := Z.of_nat (length [3600; 86400]) + 2 in
  fst (checkRateLimit "u1" "/api/tasks" 3 hiccup_world) = Returned (mkRateLimit true 3) /\
  db w1 !! key = Some (string_of_Z 1, None) /\
  fst (checkRateLimit "u1" "/api/tasks" 3 (elapse 604800 wn))
    = Returned (mkRateLimit (k <=? 3) (Z.max 0 (3 - k))) /\
  deadline_at (snd (checkRateLimit "u1" "/api/tasks" 3 (elapse 604800 wn))) key = None.
Proof.
  apply (checkRateLimit_counter_without_expiry "u1" "/api/tasks" 3 hiccup_world
           [3600; 86400] 604800).
  - repeat split. intros [|[|n]] Hn; [cbn in Hn; lia | cbn in Hn; lia | reflexivity].
  - reflexivity.
  - repeat constructor; lia.
  - lia.
  - unfold safe_integer, MAX_SAFE_INTEGER. cbn. lia.
  - unfold safe_integer, MAX_SAFE_INTEGER. lia.
Defined.

(** ** Sessions of different users and tokens *)

Lemma segment_inj u u' t t' :
  no_colon u = true -> no_colon u' = true ->
  u +:+ ":" +:+ t = u' +:+ ":" +:+ t' -> u = u' /\ t = t'.
Proof.
  revert u'. induction u as [|c u IH]; intros [|c' u'] Hu Hu';
    rewrite ?append_cons, ?append_nil; rewrite ?append_char; intros E.
  - injection E as ->. now split.
  - injection E as <- _. discriminate Hu'.
  - injection E as -> _. discriminate Hu.
  - injection E as -> E. cbn in Hu, Hu'.
    apply andb_true_iff in Hu as [_ Hu]. apply andb_true_iff in Hu' as [_ Hu'].
    destruct (IH u' Hu Hu' E) as [-> ->]. now split.
Qed.

Lemma session_key_inj u t u' t' :
  no_colon u = true -> no_colon u' = true ->
  session_key u t = session_key u' t' -> u = u' /\ t = t'.
Proof.
  intros Hu Hu' E. unfold session_key in E. apply String.app_inj in E.
  now apply segment_inj.
Qed.

(** X8. In a reachable store, and for user identifiers without colon,
    storing or revoking the session of one (user, token) pair changes the
    answer of [validateSession] for no other pair. *)
Theorem sessions_are_independent :
  forall (userId tokenId token userId' tokenId' : string) (w : World),
    reachable w ->
    no_colon userId = true -> no_colon userId' = true ->
    (userId, tokenId) <> (userId', tokenId') ->
    fst (validateSession userId' tokenId' (snd (storeSession userId tokenId token w)))
      = fst (validateSession userId' tokenId' w) /\
    fst (validateSession userId' tokenId' (snd (revokeSession userId tokenId w)))
      = fst (validateSession userId' tokenId' w).
Proof.
  intros u t tok u' t' w Hr Hu Hu' Hne.
  assert (Hkey : session_key u t <> session_key u' t').
  { intros E. apply session_key_inj in E as [-> ->]; auto. }
  destruct (validateSession_reachable u' t' w Hr) as (w0 & -> & _). cbn [fst].
  split.
  - destruct (storeSession_reachable u t tok w Hr) as (w1 & -> & Hr1 & Hn1 & Hd1).
    cbn [snd].
    destruct (validateSession_reachable u' t' w1 (ready_reachable _ Hr1)) as (w2 & -> & _).
    cbn [fst]. f_equal. unfold is_live, live.
    rewrite Hd1, Hn1, lookup_insert_ne by exact Hkey. reflexivity.
  - rewrite revokeSession_shape.
    destruct (del_at_reachable "Session revocation error:" (session_key u t) w Hr)
      as (w1 & -> & Hr1 & Hn1 & Hd1).
    cbn [snd].
    destruct (validateSession_reachable u' t' w1 (ready_reachable _ Hr1)) as (w2 & -> & _).
    cbn [fst]. f_equal. unfold is_live, live.
    rewrite Hd1, Hn1, lookup_delete_ne by exact Hkey. reflexivity.
Qed.

Lemma sessions_are_independent_witness :
  fst (validateSession "bob" "t1" (snd (storeSession "bob" "t2" "jwt" bob_world)))
    = fst (validateSession "bob" "t1" bob_world) /\
  fst (validateSession "bob" "t1" (snd (revokeSession "bob" "t2" bob_world)))
    = fst (validateSession "bob" "t1" bob_world).
Proof.
  apply (sessions_are_independent "bob" "t2" "jwt" "bob" "t1" bob_world).
  - split; [reflexivity | reflexivity].
  - reflexivity.
  - reflexivity.
  - discriminate.
Defined.

(** X9. Storing a session again for the same pair overwrites the token
    and restarts the seven days: in a reachable store, a session stored,
    stored again [d1] seconds later and looked up [d2] seconds after that
    is valid whenever [d2] is less than seven days, however long [d1]
    was. *)
Theorem storeSession_again_restarts_the_ttl :
  forall (userId tokenId token token' : string) (w : World) (d1 d2 : Z),
    reachable w ->
    0 <= d2 < CACHE_TTL.SESSION ->
    let w1 := elapse d1 (snd (storeSession userId tokenId token w)) in
    let w2 := snd (storeSession userId tokenId token' w1) in
    db w2 !! session_key userId tokenId
      = Some (token', Some (now w + d1 + CACHE_TTL.SESSION)) /\
    fst (validateSession userId tokenId (elapse d2 w2)) = Returned true.
Proof.
  intros u t tok tok' w d1 d2 Hr Hd2. cbn zeta.
  destruct (storeSession_reachable u t tok w Hr) as (w1 & -> & Hr1 & Hn1 & Hd1).
  cbn [snd].
  destruct (storeSession_reachable u t tok' (elapse d1 w1)
              (reachable_elapse d1 w1 (ready_reachable _ Hr1)))
    as (w2 & -> & Hr2 & Hn2 & Hdb2).
  cbn [snd]. cbn [now elapse set_now] in Hn2, Hdb2. rewrite Hn1 in Hn2, Hdb2.
  assert (Hentry : db w2 !! session_key u t = Some (tok', Some (now w + d1 + CACHE_TTL.SESSION))).
  { rewrite Hdb2. apply lookup_insert_eq. }
  split; [exact Hentry|].
  destruct (validateSession_reachable u t (elapse d2 w2)
              (reachable_elapse d2 w2 (ready_reachable _ Hr2))) as (w3 & -> & _).
  cbn [fst]. f_equal. unfold is_live, live. cbn [db now elapse set_now].
  rewrite Hentry, Hn2. unfold expired.
  destruct (Z.leb_spec (now w + d1 + CACHE_TTL.SESSION) (now w + d1 + d2)); [lia | reflexivity].
Qed.

Lemma storeSession_again_restarts_the_ttl_witness :
  let w1 := elapse 600000 (snd (storeSession "u1" "t1" "jwt" fresh_world)) in
  let w2 := snd (storeSession "u1" "t1" "jwt2" w1) in
  db w2 !! session_key "u1" "t1"
    = Some ("jwt2", Some (now fresh_world + 600000 + CACHE_TTL.SESSION)) /\
  fst (validateSession "u1" "t1" (elapse 600000 w2)) = Returned true.
Proof.
  apply (storeSession_again_restarts_the_ttl "u1" "t1" "jwt" "jwt2" fresh_world 600000 600000).
  - exact fresh_world_reachable.
  - unfold CACHE_TTL.SESSION. lia.
Defined.

(** ** A failed connection attempt is tried again *)

Lemma inert_send {A} (cmd : M A) : closed_inert (send cmd).
Proof. intros w Ho. unfold send. rewrite Ho. eexists _, _. repeat split. exact Ho. Qed.

Lemma inert_reject {A} (e : error) : closed_inert (@reject A e).
Proof. intros w Ho. eexists _, _. repeat split. exact Ho. Qed.

Lemma inert_bind {A B} (m : M A) (k : A -> M B) : closed_inert m -> closed_inert (bind m k).
Proof.
  intros Hm w Ho. destruct (Hm w Ho) as (e & w' & E & H).
  exists e, w'. unfold bind. rewrite E. auto.
Qed.

Lemma inert_promise_all2 {A B} (p : M A) (q : M B) :
  closed_inert p -> closed_inert q -> closed_inert (promise_all2 p q).
Proof.
  intros Hp Hq w Ho.
  destruct (Hp w Ho) as (e & w1 & Ep & Hd1 & Hn1 & Ho1 & Hc1 & Hf1 & Hl1 & Ht1).
  destruct (Hq w1 Ho1) as (e' & w2 & Eq & Hd2 & Hn2 & Ho2 & Hc2 & Hf2 & Hl2 & Ht2).
  exists e, w2. unfold promise_all2. rewrite Ep, Eq. repeat split; congruence.
Qed.

Lemma guarded_retries {A} (x : A) (K : M A) (handler : error -> M A) (D : A -> Prop) :
  closed_inert K ->
  (forall e, steady (handler e)) ->
  (forall e w, exists a w', handler e w = (Returned a, w') /\ D a /\ db w' = db w) ->
  forall w,
    first_attempt_fails w ->
    exists a w',
      try_catch (await ok <- ensureConnection in if negb ok then ret x else K) handler w
        = (Returned a, w') /\
      D a /\ db w' = db w /\ reachable w'.
Proof.
  intros HK Hsteady Hh w (Ho & Hc & Hf & Hlater).
  unfold try_catch at 1. unfold bind at 1.
  unfold ensureConnection, try_catch, bind, connectRedis.
  rewrite Ho, Hc. cbn [negb andb]. unfold try_catch, bind, redis_connect.
  rewrite Ho, Hf. cbn [reject console_error ret negb].
  set (w1 := print_error "Failed to connect to Redis:" (count_rejection (next_tick w))).
  assert (Hr1 : reachable w1).
  { split; [intros n Hn; apply Hlater; exact Hn | intros _; exact Hc]. }
  destruct (HK w1 Ho) as (e & w2 & -> & Hd2 & Hn2 & Ho2 & Hc2 & Hf2 & Hl2 & Ht2).
  assert (Hr2 : reachable w2).
  { split; [unfold fails; rewrite Hf2, Hl2, Ht2; exact (proj1 Hr1)
           | intros _; rewrite Hc2; exact Hc]. }
  destruct (Hh e w2) as (a & w3 & Eh & HD & Hd3).
  exists a, w3. split; [exact Eh|]. split; [exact HD|].
  split; [rewrite Hd3, Hd2; reflexivity|].
  eapply (Hsteady e); eauto.
Qed.

Ltac inert :=
  repeat first
    [ apply inert_send | apply inert_reject | apply inert_promise_all2 | apply inert_bind ].

(** X10. A connection attempt that fails is not remembered: when the
    first call of a process finds the server down, it returns its degraded
    result without changing a key, and leaves the layer in a state from
    which the next call, if the server is back, opens the connection and
    works as in any reachable store. *)
Theorem failed_connection_is_retried `{JSON} :
  forall (r : request) (w : World),
    first_attempt_fails w ->
    exists (a : reply) (w' : World),
      handle r w = (Returned a, w') /\
      degraded r a /\ db w' = db w /\ reachable w'.
Proof.
  intros r w Hw.
  assert (Hunit : forall label (K : M unit),
             closed_inert K ->
             exists w', try_catch (await ok <- ensureConnection in
                                   if negb ok then ret tt else K)
                                  (fun error => console_error label error) w
                        = (Returned tt, w') /\ db w' = db w /\ reachable w').
  { intros label K HK.
    destruct (guarded_retries tt K (fun error => console_error label error)
                (fun _ => True) HK) with (w := w) as ([] & w' & E & _ & Hd & Hr'); auto.
    - intros e. apply steady_console_error.
    - intros e w0. eexists _, _. repeat split.
    - eauto. }
  assert (Hval : forall {A} label (x d : A) (K : M A),
             closed_inert K ->
             exists w', try_catch (await ok <- ensureConnection in
                                   if negb ok then ret x else K)
                                  (fun error => perform console_error label error in ret d) w
                        = (Returned d, w') /\ db w' = db w /\ reachable w').
  { intros A label x d K HK.
    destruct (guarded_retries x K (fun error => perform console_error label error in ret d)
                (fun a => a = d) HK) with (w := w) as (a & w' & E & -> & Hd & Hr'); auto.
    - intros e. steadying.
    - intros e w0. eexists _, _. repeat split.
    - eauto. }
  destruct r; unfold handle, lift, degraded.
  - destruct (Hval _ "Cache get error:" JNull JNull
                (await cached <- redis_get (user_key userId) in parse_if_truthy cached))
      as (w' & E & Hd & Hr'); [unfold redis_get; inert|].
    unfold getCachedUser. rewrite E. eauto 6.
  - destruct (Hunit "Cache set error:"
                (redis_setEx (user_key userId) CACHE_TTL.USER (JSON_stringify userData)))
      as (w' & E & Hd & Hr'); [unfold redis_setEx; destruct (JSON_stringify _); inert|].
    unfold setCachedUser. rewrite E. eauto 6.
  - destruct (Hunit "Cache invalidation error:"
                (perform redis_del [user_key userId] in ret tt))
      as (w' & E & Hd & Hr'); [unfold redis_del; inert|].
    unfold invalidateUserCache. rewrite E. eauto 6.
  - destruct (Hval _ "Cache get error:" JNull JNull
                (await cached <- redis_get (tasks_key userId) in parse_if_truthy cached))
      as (w' & E & Hd & Hr'); [unfold redis_get; inert|].
    unfold getCachedTasks. rewrite E. eauto 6.
  - destruct (Hunit "Cache set error:"
                (redis_setEx (tasks_key userId) CACHE_TTL.TASKS (JSON_stringify tasks)))
      as (w' & E & Hd & Hr'); [unfold redis_setEx; destruct (JSON_stringify _); inert|].
    unfold setCachedTasks. rewrite E. eauto 6.
  - destruct (Hunit "Cache invalidation error:"
                (perform redis_del [tasks_key userId] in ret tt))
      as (w' & E & Hd & Hr'); [unfold redis_del; inert|].
    unfold invalidateTasksCache. rewrite E. eauto 6.
  - destruct (Hval _ "Cache get error:" JNull JNull
                (await cached <- redis_get (task_key taskId) in parse_if_truthy cached))
      as (w' & E & Hd & Hr'); [unfold redis_get; inert|].
    unfold getCachedTask. rewrite E. eauto 6.
  - destruct (Hunit "Cache set error:"
                (redis_setEx (task_key taskId) CACHE_TTL.TASK (JSON_stringify task)))
      as (w' & E & Hd & Hr'); [unfold redis_setEx; destruct (JSON_stringify _); inert|].
    unfold setCachedTask. rewrite E. eauto 6.
  - destruct (Hunit "Cache invalidation error:"
                (perform promise_all2 (redis_del [task_key taskId])
                                      (redis_del [tasks_key userId]) in ret tt))
      as (w' & E & Hd & Hr'); [unfold redis_del; inert|].
    unfold invalidateTaskCache. rewrite E. eauto 6.
  - destruct (Hunit "Session store error:"
                (redis_setEx (session_key userId tokenId) CACHE_TTL.SESSION (Some token)))
      as (w' & E & Hd & Hr'); [unfold redis_setEx; inert|].
    unfold storeSession. rewrite E. eauto 6.
  - destruct (Hval _ "Session validation error:" true true
                (await exists_ <- redis_exists (session_key userId tokenId) in
                 ret (exists_ =? 1)))
      as (w' & E & Hd & Hr'); [unfold redis_exists; inert|].
    unfold validateSession. rewrite E. eauto 6.
  - destruct (Hunit "Session revocation error:"
                (perform redis_del [session_key userId tokenId] in ret tt))
      as (w' & E & Hd & Hr'); [unfold redis_del; inert|].
    unfold revokeSession. rewrite E. eauto 6.
  - destruct (Hunit "Session revocation error:"
                (await keys <- redis_keys ("session:" +:+ userId +:+ ":*") in
                 if (0 <? Z.of_nat (length keys))
                 then perform redis_del keys in ret tt
                 else ret tt))
      as (w' & E & Hd & Hr'); [unfold redis_keys; inert|].
    unfold revokeAllUserSessions. rewrite E. eauto 6.
  - destruct (Hval _ "Rate limit error:" (mkRateLimit true maxRequests)
                (mkRateLimit true maxRequests)
                (await reply <- redis_incr (ratelimit_key userId endpoint) in
                 let current := Number_of_Z reply in
                 perform (if current =? 1
                          then perform redis_expire (ratelimit_key userId endpoint) 60 in ret tt
                          else ret tt) in
                 ret (mkRateLimit (current <=? maxRequests)
                                  (Z.max 0 (Number_of_Z (maxRequests - current))))))
      as (w' & E & Hd & Hr'); [unfold redis_incr; inert|].
    change (checkRateLimit userId endpoint maxRequests w
            = (Returned (mkRateLimit true maxRequests), w')) in E.
    rewrite E. eauto 6.
  - destruct (guarded_retries (mkCacheStats false None None None)
                (await info <- redis_info "stats" in
                 await dbSize <- redis_dbSize in
                 ret (mkCacheStats true (Some dbSize) (Some info) None))
                (fun error =>
                   perform console_error "Cache stats error:" error in
                   ret (mkCacheStats false None None (Some (String_of_error error))))
                (fun a => connected a = false)) with (w := w)
      as (a & w' & E & HD & Hd & Hr'); auto.
    + unfold redis_info; inert.
    + intros e. steadying.
    + intros e w0. eexists _, _. repeat split.
    + unfold getCacheStats. rewrite E. eauto 6.
Qed.

Lemma failed_connection_is_retried_witness :
  exists (a : reply) (w' : World),
    handle (GetCachedUser "u1") rebooting_world = (Returned a, w') /\
    degraded (GetCachedUser "u1") a /\ db w' = db rebooting_world /\ reachable w'.
Proof.
  apply (failed_connection_is_retried (GetCachedUser "u1") rebooting_world).
  repeat split. intros [|n] Hn; [cbn in Hn; lia | reflexivity].
Defined.

(** * The middleware *)

Lemma prefix_split p s :
  String.prefix p s = true -> s = p +:+ substring_from (String.length p) s.
Proof.
  revert s. induction p as [|c p IH]; intros s Hp.
  - rewrite append_nil. reflexivity.
  - destruct s as [|d s]; [discriminate|].
    cbn [String.prefix] in Hp. destruct (ascii_dec c d) as [->|]; [|discriminate].
    rewrite append_cons. cbn [String.length substring_from]. f_equal. now apply IH.
Qed.

Lemma substring_from_append p s : substring_from (String.length p) (p +:+ s) = s.
Proof.
  induction p as [|c p IH]; [now rewrite append_nil|].
  rewrite append_cons. exact IH.
Qed.

Lemma getAuthToken_bearer request token :
  getAuthToken request = Some token <->
  Next.authorization request = Some ("Bearer " +:+ token).
Proof.
  unfold getAuthToken.
  destruct (Next.authorization request) as [authHeader|]; [|split; discriminate].
  split.
  - destruct (String.prefix "Bearer " authHeader) eqn:Hp; [|discriminate].
    intros [= <-]. f_equal. exact (prefix_split "Bearer " authHeader Hp).
  - intros [= ->]. rewrite prefix_append.
    f_equal; exact (substring_from_append "Bearer " token).
Qed.

Lemma append_inj_l (p a b : string) : p +:+ a = p +:+ b -> a = b.
Proof.
  induction p as [|c p IH]; [now rewrite !append_nil|].
  rewrite !append_cons. intros [= Hp]. now apply IH.
Qed.

(** X11. [getAuthToken] returns the rest of the authorization header
    when the header starts with [Bearer] and a space, whatever follows,
    the empty string included; it returns null exactly when the header is
    missing or starts otherwise. *)
Theorem getAuthToken_reads_bearer_header :
  forall (request : Next.NextRequest),
    (forall token,
        Next.authorization request = Some ("Bearer " +:+ token) ->
        getAuthToken request = Some token) /\
    (getAuthToken request = None <->
     forall token, Next.authorization request <> Some ("Bearer " +:+ token)) /\
    (forall token,
        getAuthToken request = Some token ->
        Next.authorization request = Some ("Bearer " +:+ token)).
Proof.
  intros request. split; [|split].
  - intros token Ha. now apply getAuthToken_bearer.
  - split.
    + intros Hn token Ha. apply getAuthToken_bearer in Ha. congruence.
    + intros Hno. destruct (getAuthToken request) as [token|] eqn:Ht; [|reflexivity].
      apply getAuthToken_bearer in Ht. now apply Hno in Ht.
  - intros token Ht. now apply getAuthToken_bearer.
Qed.

(** What [requireAuth] does with a request: it hands it to the handler
    with the payload of its token, or answers 401 itself. *)
Lemma requireAuth_cases `{JWT} {C} (handler : Handler C) request context :
  (exists token user,
      Next.authorization request = Some ("Bearer " +:+ token) /\
      token <> EmptyString /\ jwt_verify token = Some user /\
      requireAuth handler request context = handler request user context)
  \/ ((exists message,
        requireAuth handler request context
        = ret (NextResponse_json (error_body message) 401)) /\
      forall token,
        Next.authorization request = Some ("Bearer " +:+ token) ->
        token = EmptyString \/ jwt_verify token = None).
Proof.
  unfold requireAuth. destruct (getAuthToken request) as [token|] eqn:Ht.
  - apply getAuthToken_bearer in Ht.
    destruct token as [|c token].
    + right. split; [eexists; reflexivity|].
      intros token Ha. left. rewrite Ht in Ha. injection Ha as Ha.
      apply append_inj_l in Ha. now symmetry.
    + unfold verifyToken. destruct (jwt_verify (String c token)) as [user|] eqn:Hv.
      * left. exists (String c token), user. repeat split; [exact Ht | discriminate | exact Hv].
      * right. split; [eexists; reflexivity|].
        intros token' Ha. right. rewrite Ht in Ha. injection Ha as Ha.
        apply append_inj_l in Ha. now rewrite <- Ha.
  - right. split; [eexists; reflexivity|].
    intros token Ha. apply getAuthToken_bearer in Ha. congruence.
Qed.


(** X12. [requireAuth] lets a request through to the handler only when
    its authorization header is [Bearer] followed by a non-empty token
    that [jwt.verify] accepts, and then with the payload of that token;
    every other request is answered 401 without a call to the handler, to
    the store or to the log. *)
Theorem requireAuth_admits_verified_tokens_only `{JWT} {C : Type} :
  forall (handler : Handler C) (request : Next.NextRequest) (context : C) (w : World),
    (exists token user,
        Next.authorization request = Some ("Bearer " +:+ token) /\
        token <> EmptyString /\ jwt_verify token = Some user /\
        requireAuth handler request context w = handler request user context w)
    \/ ((exists message,
          requireAuth handler request context w
          = (Returned (NextResponse_json (error_body message) 401), w)) /\
        forall token,
          Next.authorization request = Some ("Bearer " +:+ token) ->
          token = EmptyString \/ jwt_verify token = None).
Proof.
  intros handler request context w.
  destruct (requireAuth_cases handler request context)
    as [(token & user & Ha & Hne & Hv & ->)|[(message & ->) Hno]].
  - left. exists token, user. repeat split; assumption.
  - right. split; [exists message; reflexivity | exact Hno].
Qed.

(** X13. [requireAdmin] lets a request through only when its token
    verifies and the payload has the role [ADMIN]; a verified token with
    any other role is answered 403, and a request without a verified token
    401, in both cases without a call to the handler or to the store. *)
Theorem requireAdmin_admits_admins_only `{JWT} {C : Type} :
  forall (handler : Handler C) (request : Next.NextRequest) (context : C) (w : World),
    (exists token user,
        Next.authorization request = Some ("Bearer " +:+ token) /\
        token <> EmptyString /\ jwt_verify token = Some user /\
        Auth.role user = "ADMIN" /\
        requireAdmin handler request context w = handler request user context w)
    \/ (exists response,
          requireAdmin handler request context w = (Returned response, w) /\
          (Next.status response = 401 /\
           (forall token,
               Next.authorization request = Some ("Bearer " +:+ token) ->
               token = EmptyString \/ jwt_verify token = None)
           \/
           Next.status response = 403 /\
           exists token user,
             Next.authorization request = Some ("Bearer " +:+ token) /\
             jwt_verify token = Some user /\ Auth.role user <> "ADMIN")).
Proof.
  intros handler request context w. unfold requireAdmin.
  destruct (requireAuth_cases
              (fun request user context =>
                 if negb (String.eqb (Auth.role user) "ADMIN")
                 then ret (NextResponse_json (error_body "Admin access required") 403)
                 else handler request user context)
              request context)
    as [(token & user & Ha & Hne & Hv & ->)|[(message & ->) Hno]].
  - destruct (String.eqb_spec (Auth.role user) "ADMIN") as [Hr|Hr]; cbn [negb].
    + left. exists token, user. repeat split; assumption.
    + right. eexists. split; [reflexivity|]. right. split; [reflexivity|].
      exists token, user. repeat split; assumption.
  - right. eexists. split; [reflexivity|]. left. split; [reflexivity | exact Hno].
Qed.

(** ** Sessions and authentication *)

Lemma listed_sessions_cleared userId w w' :
  glob_literal userId = true ->
  now w' = now w ->
  db w' = foldr delete (db w) (listed_sessions userId w) ->
  forall tokenId, is_live w' (session_key userId tokenId) = false.
Proof.
  intros Hu Hn' Hd' t.
  destruct (decide (session_key userId t ∈ listed_sessions userId w)) as [Hin|Hout].
  - apply is_live_None. rewrite Hd'. now apply lookup_foldr_delete_in.
  - assert (Hdb : db w' !! session_key userId t = db w !! session_key userId t).
    { rewrite Hd'. now apply lookup_foldr_delete_notin. }
    assert (Hsame : is_live w' (session_key userId t) = is_live w (session_key userId t)).
    { unfold is_live, live. now rewrite Hdb, Hn'. }
    rewrite Hsame. destruct (is_live w (session_key userId t)) eqn:Hl; [|reflexivity].
    exfalso. apply Hout. apply elem_of_listed_sessions.
    split; [|exact Hl]. rewrite (session_pattern userId _ Hu). apply session_key_listed.
Qed.

(** X14. Authentication never consults the session registry.  After
    every session of a user has been revoked, [validateSession] answers
    false for each of them, and yet a request that carries a token of that
    user which [jwt.verify] accepts is still handed to the handler by
    [requireAuth], as before the revocation. *)
Theorem requireAuth_ignores_revocation `{JWT} {C : Type} :
  forall (handler : Handler C) (request : Next.NextRequest) (context : C)
         (token : string) (user : Auth.JWTPayload) (w : World),
    reachable w ->
    glob_literal (Auth.userId user) = true ->
    Next.authorization request = Some ("Bearer " +:+ token) ->
    token <> EmptyString ->
    jwt_verify token = Some user ->
    let w' := snd (revokeAllUserSessions (Auth.userId user) w) in
    (forall tokenId, fst (validateSession (Auth.userId user) tokenId w') = Returned false) /\
    requireAuth handler request context w = handler request user context w /\
    requireAuth handler request context w' = handler request user context w'.
Proof.
  intros handler request context token user w Hr Hu Ha Hne Hv. cbn zeta.
  destruct (revokeAllUserSessions_reachable (Auth.userId user) w Hr)
    as (w' & -> & Hr' & Hn' & Hd').
  cbn [snd]. split.
  - intros t.
    destruct (validateSession_reachable (Auth.userId user) t w' (ready_reachable _ Hr'))
      as (w2 & -> & _).
    cbn [fst]. f_equal. now apply (listed_sessions_cleared (Auth.userId user) w w').
  - assert (E : requireAuth handler request context = handler request user context).
    { destruct (requireAuth_cases handler request context)
        as [(token' & user' & Ha' & _ & Hv' & ->)|[_ Hno]].
      - rewrite Ha in Ha'. injection Ha' as Ha'. apply append_inj_l in Ha'.
        subst token'. congruence.
      - destruct (Hno token Ha); congruence. }
    now rewrite E.
Qed.

Lemma requireAuth_ignores_revocation_witness :
  let w' := snd (revokeAllUserSessions "u1" alice_world) in
  fst (validateSession "u1" "s1" alice_world) = Returned true /\
  (forall tokenId, fst (validateSession "u1" tokenId w') = Returned false) /\
  requireAuth (H := sample_jwt) (fun _ user _ => ret (NextResponse_json (JStr (Auth.userId user)) 200))
              (request_with "token-of-alice") tt alice_world
  = (Returned (NextResponse_json (JStr "u1") 200), alice_world) /\
  requireAuth (H := sample_jwt) (fun _ user _ => ret (NextResponse_json (JStr (Auth.userId user)) 200))
              (request_with "token-of-alice") tt w'
  = (Returned (NextResponse_json (JStr "u1") 200), w').
Proof.
  split; [reflexivity|].
  apply (requireAuth_ignores_revocation (H := sample_jwt)
           (fun _ user _ => ret (NextResponse_json (JStr (Auth.userId user)) 200))
           (request_with "token-of-alice") tt "token-of-alice" alice alice_world).
  - split; [reflexivity | reflexivity].
  - reflexivity.
  - reflexivity.
  - discriminate.
  - reflexivity.
Defined.

(** * The routes *)

(** ** The cache layer always returns *)

Lemma get_at_returns `{JSON} key w : exists a w', get_at key w = (Returned a, w').
Proof. destruct (get_at_absorbs key w) as (a & w' & E & _). eauto. Qed.

Lemma set_at_returns `{JSON} key ttl v w : exists w', set_at key ttl v w = (Returned tt, w').
Proof. destruct (set_at_absorbs key ttl v w) as (w' & E & _). eauto. Qed.

Lemma del_at_returns label key w : exists w', del_at label key w = (Returned tt, w').
Proof. destruct (del_at_absorbs label key w) as (w' & E & _). eauto. Qed.

Lemma invalidateTaskCache_returns `{JSON} taskId userId w :
  exists w', invalidateTaskCache taskId userId w = (Returned tt, w').
Proof. destruct (invalidateTaskCache_absorbs taskId userId w) as (w' & E & _). eauto. Qed.

Lemma revokeAllUserSessions_returns userId w :
  exists w', revokeAllUserSessions userId w = (Returned tt, w').
Proof. destruct (revokeAllUserSessions_absorbs userId w) as (w' & E & _). eauto. Qed.

Lemma getCacheStats_returns w : exists a w', getCacheStats w = (Returned a, w').
Proof. destruct (getCacheStats_absorbs w) as (a & w' & E & _). eauto. Qed.

(** One step of a handler: the next call on the cache layer returns, and
    the next call on the database or test on a value goes either way. *)
Ltac to_shapes :=
  rewrite ?getCachedUser_shape, ?getCachedTasks_shape, ?getCachedTask_shape,
          ?setCachedUser_shape, ?setCachedTasks_shape, ?setCachedTask_shape,
          ?invalidateUserCache_shape, ?invalidateTasksCache_shape.

Ltac unfold_handler :=
  cbv beta iota zeta
      delta [try_catch bind ret throw query console_error destructurable request_json
             hashPassword].

Ltac serve_step :=
  match goal with
  | |- context [get_at ?k ?w] =>
      let a := fresh "cached" in let w' := fresh "w" in
      destruct (get_at_returns k w) as (a & w' & ->)
  | |- context [set_at ?k ?t ?v ?w] =>
      let w' := fresh "w" in destruct (set_at_returns k t v w) as (w' & ->)
  | |- context [del_at ?l ?k ?w] =>
      let w' := fresh "w" in destruct (del_at_returns l k w) as (w' & ->)
  | |- context [invalidateTaskCache ?t ?u ?w] =>
      let w' := fresh "w" in destruct (invalidateTaskCache_returns t u w) as (w' & ->)
  | |- context [revokeAllUserSessions ?u ?w] =>
      let w' := fresh "w" in destruct (revokeAllUserSessions_returns u w) as (w' & ->)
  | |- context [getCacheStats ?w] =>
      let a := fresh "stats" in let w' := fresh "w" in
      destruct (getCacheStats_returns w) as (a & w' & ->)
  | |- context [match ?o with Returned _ => _ | Thrown _ => _ end] =>
      let E := fresh "Eq" in destruct o eqn:E
  | |- context [match ?v with JUndefined => _ | _ => _ end] =>
      let E := fresh "Ev" in destruct v eqn:E
  | |- context [if ?b then _ else _] =>
      let E := fresh "Eb" in destruct b eqn:E
  end.

Ltac serve_all := repeat (unfold_handler; to_shapes; serve_step).



(** ** The statistics route *)

Lemma count_live_ext w w' keys :
  db w' = db w -> now w' = now w -> count_live w' keys = count_live w keys.
Proof.
  intros Hd Hn. unfold count_live. do 2 f_equal.
  apply list_filter_iff. intros k. now rewrite (is_live_ext w w' k).
Qed.

Lemma getCacheStats_reachable w :
  reachable w ->
  exists w', getCacheStats w
             = (Returned (mkCacheStats true
                            (Some (count_live w (map fst (map_to_list (db w)))))
                            (Some (server_info w)) None), w') /\
             ready w' /\ db w' = db w /\ now w' = now w.
Proof.
  intros Hr. pose proof (settle_ready w Hr) as Hs.
  unfold getCacheStats, try_catch, bind. rewrite (ensureConnection_reachable w Hr).
  cbn [negb]. unfold redis_info, redis_dbSize. rewrite (send_ready _ _ Hs).
  rewrite send_ready by auto with cache.
  unfold ret. cbv beta.
  match goal with
  | |- context [count_live ?w1 (map fst (map_to_list (db ?w2)))] =>
      replace (count_live w1 (map fst (map_to_list (db w2))))
        with (count_live w (map fst (map_to_list (db w))))
  end.
  - replace (server_info (next_tick (settle w))) with (server_info w)
      by (unfold settle; destruct (isOpen w); reflexivity).
    eexists; split; [reflexivity|]. frame.
  - cbn [db next_tick]. rewrite db_settle. symmetry.
    apply count_live_ext; cbn; auto using db_settle, now_settle.
Qed.

(** X16. The statistics route answers 401 without a verified token and
    403 to a verified user who is not an administrator, in both cases
    without a call to the store; to an administrator it always answers
    200, never 500: with the number of live keys when the store is
    reachable, and with [connected: false] during an outage.  No answer
    changes a key. *)
Theorem cache_stats_GET_answers `{JWT} :
  forall (request : Next.NextRequest) (w : World),
    exists response w',
      cache_stats_GET request tt w = (Returned response, w') /\
      db w' = db w /\
      ((Next.status response = 401 /\ w' = w /\
        forall token,
          Next.authorization request = Some ("Bearer " +:+ token) ->
          token = EmptyString \/ jwt_verify token = None)
       \/
       (exists token user,
           Next.authorization request = Some ("Bearer " +:+ token) /\
           jwt_verify token = Some user /\
           ((Auth.role user <> "ADMIN" /\ Next.status response = 403 /\ w' = w)
            \/
            (Auth.role user = "ADMIN" /\ Next.status response = 200 /\
             (reachable w ->
              prop (Next.body response) "connected" = JBool true /\
              prop (Next.body response) "dbSize"
              = JNum (count_live w (map fst (map_to_list (db w))))) /\
             (outage w ->
              prop (Next.body response) "connected" = JBool false /\
              prop (Next.body response) "dbSize" = JUndefined))))).
Proof.
  intros request w. unfold cache_stats_GET.
  match goal with
  | |- context [requireAuth ?h ?rq ?c] =>
      destruct (requireAuth_cases h rq c)
        as [(token & user & Ha & _ & Hv & ->)|[(message & ->) Hno]]
  end.
  - unfold try_catch.
    destruct (String.eqb_spec (Auth.role user) "ADMIN") as [Hr|Hr]; cbn [negb].
    + unfold bind.
      destruct (getCacheStats_absorbs w) as (stats & w' & E & _ & Hout & _).
      assert (Hdb : db w' = db w).
      { assert (Hw : within same_db getCacheStats)
          by (unfold getCacheStats; framing same_db_same same_db_trans).
        eapply Hw, E. }
      rewrite E. eexists _, _. split; [reflexivity|]. split; [exact Hdb|].
      right. exists token, user. split; [exact Ha|]. split; [exact Hv|].
      right. split; [exact Hr|]. split; [reflexivity|]. split.
      * intros Hreach.
        destruct (getCacheStats_reachable w Hreach) as (w2 & E2 & _).
        rewrite E2 in E. injection E as <- _. split; reflexivity.
      * intros Ho. destruct (Hout Ho) as [Hc _].
        cbn [Next.body NextResponse_json stats_object].
        destruct stats as [c n i e]. cbn in Hc. subst c.
        assert (Hn : n = None).
        { unfold getCacheStats, try_catch, bind, console_error, ret in E.
          destruct (ensureConnection w) as [[[]|e0] w1]; cbn [negb] in E;
            [destruct (redis_info "stats" w1) as [[text|e1] w2];
             [destruct (redis_dbSize w2) as [[size|e2] w3]|]| |];
            cbv beta iota in E; congruence. }
        subst n. split; [reflexivity | destruct i, e; reflexivity].
    + eexists _, _. split; [reflexivity|]. split; [reflexivity|].
      right. exists token, user. split; [exact Ha|]. split; [exact Hv|].
      left. repeat split; [exact Hr].
  - eexists _, _. split; [reflexivity|]. split; [reflexivity|].
    left. repeat split. exact Hno.
Qed.

(** ** The health route *)

Lemma connect_then_ping w :
  exists r w',
    try_catch
      (perform connectRedis in perform redis_ping in ret "healthy")
      (fun error => ret "unhealthy") w = (Returned r, w') /\
    db w' = db w /\
    (reachable w -> r = "healthy" /\ ready w') /\
    (outage w -> r = "unhealthy") /\
    (r = "healthy" -> isOpen w' = true).
Proof.
  unfold try_catch, bind, connectRedis, redis_ping, send, try_catch, bind,
    redis_connect, console_error, reject, ret, reachable, outage, ready.
  destruct (isConnected w) eqn:Hc, (isOpen w) eqn:Ho; cbn [negb andb];
    rewrite ?Ho; cbn.
  all: destruct (faults w (tick w)) eqn:Hf; cbn; rewrite ?Ho; cbn.
  all: try destruct (lost w (tick w)) eqn:Hl; cbn.
  all: try destruct (faults w (S (tick w))) eqn:Hf2; cbn.
  all: try destruct (lost w (S (tick w))) eqn:Hl2; cbn.
  all: eexists _, _; (split; [reflexivity|]); cbn; split; [reflexivity|].
  all: (split; [intros [Hfree Hclosed] | split; [intros Hout | intros Hr]]).
  all: try discriminate; try reflexivity.
  all: try (destruct (fails_false w (tick w) (Hfree (tick w) (le_n _))); congruence).
  all: try (destruct (fails_false w (S (tick w)) (Hfree (S (tick w)) (le_S _ _ (le_n _))));
            congruence).
  all: try (specialize (Hclosed eq_refl); congruence).
  all: try (rewrite (Hout (tick w)) in Hf by lia; discriminate).
  all: try (rewrite (Hout (S (tick w))) in Hf2 by lia; discriminate).
  all: try (repeat split; try reflexivity; try assumption; intros n Hn; apply Hfree; lia).
Qed.

(** X17. The health route always answers, and its status is decided by
    the database probe alone: 200 with status [ok] when [SELECT 1] returns
    and 503 with status [degraded] when it throws, whatever the state of
    the store.  The store is reported healthy when it is reachable (and the
    check leaves the connection open) and unhealthy during an outage; the
    check changes no key. *)
Theorem health_GET_reports `{Prisma} :
  forall (timestamp : string) (w : World),
    exists response w',
      health_GET timestamp w = (Returned response, w') /\
      db w' = db w /\
      prop (Next.body response) "timestamp" = JStr timestamp /\
      (((exists v, prisma_queryRaw "SELECT 1" = Returned v) /\
        Next.status response = 200 /\
        prop (Next.body response) "status" = JStr "ok" /\
        prop (prop (Next.body response) "services") "database" = JStr "healthy")
       \/
       ((exists e, prisma_queryRaw "SELECT 1" = Thrown e) /\
        Next.status response = 503 /\
        prop (Next.body response) "status" = JStr "degraded" /\
        prop (prop (Next.body response) "services") "database" = JStr "unhealthy")) /\
      (reachable w ->
       prop (prop (Next.body response) "services") "redis" = JStr "healthy" /\ ready w') /\
      (outage w ->
       prop (prop (Next.body response) "services") "redis" = JStr "unhealthy").
Proof.
  intros timestamp w. unfold health_GET.
  destruct (connect_then_ping w) as (r & w' & E & Hdb & Hreach & Hout & _).
  set (ping := try_catch (perform connectRedis in perform redis_ping in ret "healthy") _) in *.
  unfold bind, try_catch, query, ret.
  destruct (prisma_queryRaw "SELECT 1") as [v|e] eqn:Hq.
  - rewrite E.
    eexists _, _. split; [reflexivity|]. split; [exact Hdb|]. split; [reflexivity|].
    split; [left; repeat split; eauto|]. split.
    + intros Hr. destruct (Hreach Hr) as [-> Hready]. split; [reflexivity | exact Hready].
    + intros Ho. rewrite (Hout Ho). reflexivity.
  - rewrite E.
    eexists _, _. split; [reflexivity|]. split; [exact Hdb|]. split; [reflexivity|].
    split; [right; repeat split; eauto|]. split.
    + intros Hr. destruct (Hreach Hr) as [-> Hready]. split; [reflexivity | exact Hready].
    + intros Ho. rewrite (Hout Ho). reflexivity.
Qed.

(** ** Ownership of tasks *)

Lemma is_string_true v s : is_string v s = true -> v = JStr s.
Proof.
  destruct v; try discriminate. cbn. intros E. apply String.eqb_eq in E. now subst.
Qed.

Lemma prop_head name v rest : prop (JObj ((name, v) :: rest)) name = v.
Proof. cbn [prop lookup_prop]. now rewrite String.eqb_refl. Qed.

(** X18. The task route serves a task to its owner only: whenever GET
    /api/tasks/[id] answers 200, the request carried a verified token and
    the [userId] of the task in the response is the [userId] of the token,
    whether the task came from the cache or from the database, and whatever
    the store holds at the key of the task. *)
Theorem task_GET_serves_owner_only `{JSON} `{JWT} `{Prisma} :
  forall (request : Next.NextRequest) (id : string) (w : World),
    exists response w',
      task_GET request id w = (Returned response, w') /\
      (Next.status response = 200 ->
       exists token user,
         Next.authorization request = Some ("Bearer " +:+ token) /\
         jwt_verify token = Some user /\
         prop (prop (Next.body response) "task") "userId" = JStr (Auth.userId user)).
Proof.
  intros request id w. unfold task_GET.
  match goal with
  | |- context [requireAuth ?h ?rq ?c] =>
      destruct (requireAuth_cases h rq c)
        as [(token & user & Ha & _ & Hv & ->)|[(message & ->) _]];
      [|eexists _, _; split; [reflexivity | cbn [Next.status NextResponse_json]; intros Hs; discriminate Hs]]
  end.
  serve_all; (eexists _, _; split; [reflexivity|]);
    cbn [Next.status NextResponse_json]; intros Hs; try lia;
    exists token, user; (split; [exact Ha|]); (split; [exact Hv|]);
    apply is_string_true; unfold NextResponse_json; cbn [Next.body]; rewrite prop_head;
    match goal with
    | E : negb ?b = false |- ?b' = true => now destruct b
    end.
Qed.

Lemma task_GET_serves_owner_only_witness :
  exists response w',
    @task_GET ecma_JSON sample_jwt sample_prisma (request_with "token-of-alice") "t7" warm_world
    = (Returned response, w') /\
    Next.status response = 200 /\
    prop (prop (Next.body response) "task") "userId" = JStr "u1".
Proof.
  destruct (@task_GET_serves_owner_only ecma_JSON sample_jwt sample_prisma
              (request_with "token-of-alice") "t7" warm_world)
    as (response & w' & E & Hok).
  assert (Hs : Next.status response = 200).
  { pose proof E as E'. vm_compute in E'. injection E' as <- _. reflexivity. }
  exists response, w'. split; [exact E|]. split; [exact Hs|].
  destruct (Hok Hs) as (token & user & Ha & Hv & Hp). rewrite Hp.
  cbn [Next.authorization request_with] in Ha. injection Ha as Ha.
  apply append_inj_l in Ha. subst token. injection Hv as <-. reflexivity.
Defined.

(** ** Read-through caching *)

Lemma requireAuth_verified `{JWT} {C} (handler : Handler C) request context token user :
  Next.authorization request = Some ("Bearer " +:+ token) ->
  token <> EmptyString ->
  jwt_verify token = Some user ->
  requireAuth handler request context = handler request user context.
Proof.
  intros Ha Hne Hv.
  destruct (requireAuth_cases handler request context)
    as [(token' & user' & Ha' & _ & Hv' & ->)|[_ Hno]].
  - rewrite Ha in Ha'. injection Ha' as Ha'. apply append_inj_l in Ha'.
    subst token'. congruence.
  - destruct (Hno token Ha); congruence.
Qed.

Lemma get_at_miss `{JSON} key w :
  reachable w -> live w key = None ->
  exists w', get_at key w = (Returned JNull, w') /\
             ready w' /\ db w' = db w /\ now w' = now w.
Proof.
  intros Hr Hl. destruct (get_at_reachable key w Hr) as (w' & E & Hw').
  rewrite Hl in E. exists w'. split; [exact E | exact Hw'].
Qed.

Lemma get_at_hit `{JSON} key text deadline v w :
  reachable w ->
  db w !! key = Some (text, Some deadline) -> now w < deadline ->
  text <> EmptyString -> JSON_parse text = Some v ->
  exists w', get_at key w = (Returned v, w') /\
             ready w' /\ db w' = db w /\ now w' = now w.
Proof.
  intros Hr Hdb Hnow Hne Hp. destruct (get_at_reachable key w Hr) as (w' & E & Hw').
  rewrite (live_lookup w key text (Some deadline) Hdb) in E
    by (cbn [expired]; lia).
  cbn [fmap option_fmap option_map fst decode] in E.
  destruct text as [|c text]; [contradiction|]. rewrite Hp in E.
  exists w'. split; [exact E | exact Hw'].
Qed.

(** X19. GET /api/auth/me reads through the cache.  In a reachable store
    that holds nothing for the user, a request with a verified token is
    answered with the row the database returns, marked [cached: false],
    and the row is cached; a second request made less than an hour later is
    answered with what JSON reads back from that row, marked
    [cached: true], whatever the database would answer by then. *)
Theorem me_GET_reads_through `{JSON} `{JWT} :
  forall (database database' : Prisma)
         (request : Next.NextRequest) (token : string) (user : Auth.JWTPayload)
         (row cachedRow : jsval) (text : string) (d : Z) (w : World),
    reachable w ->
    Next.authorization request = Some ("Bearer " +:+ token) ->
    token <> EmptyString ->
    jwt_verify token = Some user ->
    live w (user_key (Auth.userId user)) = None ->
    @prisma_user_findUnique database
      (JObj [where_id (Auth.userId user);
             ("select", JObj [("id", JBool true); ("email", JBool true);
                              ("name", JBool true); ("role", JBool true);
                              ("createdAt", JBool true)])]) = Returned row ->
    truthy row = true ->
    JSON_stringify row = Some text ->
    text <> EmptyString ->
    JSON_parse text = Some cachedRow ->
    truthy cachedRow = true ->
    0 <= d < CACHE_TTL.USER ->
    let first := @me_GET _ _ database request tt w in
    let second := @me_GET _ _ database' request tt (elapse d (snd first)) in
    fst first
    = Returned (NextResponse_json (JObj [("user", row); ("cached", JBool false)]) 200) /\
    fst second
    = Returned (NextResponse_json (JObj [("user", cachedRow); ("cached", JBool true)]) 200).
Proof.
  intros database database' request token user row cachedRow text d w
         Hr Ha Hne Hv Hmiss Hrow Htruthy Htext Hnonempty Hparse Htruthy' Hd.
  cbn zeta. unfold me_GET.
  rewrite !(requireAuth_verified _ request tt token user Ha Hne Hv).
  match goal with
  | |- fst (?m w) = Returned ?r /\ _ =>
      assert (E1 : exists w2, m w = (Returned r, w2) /\ ready w2 /\
                              now w2 = now w /\
                              db w2 !! user_key (Auth.userId user)
                              = Some (text, Some (now w + CACHE_TTL.USER)))
  end.
  { unfold_handler. to_shapes.
    destruct (get_at_miss (user_key (Auth.userId user)) w Hr Hmiss) as (w1 & -> & Hr1 & Hd1 & Hn1).
    unfold_handler. cbn [truthy]. unfold_handler. rewrite Hrow. unfold_handler.
    rewrite Htruthy. cbn [negb]. to_shapes.
    destruct (set_at_reachable (user_key (Auth.userId user)) CACHE_TTL.USER row text w1 (ready_reachable _ Hr1)
                eq_refl Htext) as (w2 & -> & Hr2 & Hn2 & Hd2).
    unfold_handler. exists w2. split; [reflexivity|]. split; [exact Hr2|].
    split; [congruence|]. rewrite Hd2, Hn1. apply lookup_insert_eq. }
  destruct E1 as (w2 & -> & Hr2 & Hn2 & Hd2). cbn [fst snd]. split; [reflexivity|].
  unfold_handler. to_shapes.
  destruct (get_at_hit (user_key (Auth.userId user)) text (now w + CACHE_TTL.USER)
              cachedRow (elapse d w2)) as (w3 & -> & _).
  - apply reachable_elapse, ready_reachable, Hr2.
  - exact Hd2.
  - cbn [now elapse set_now]. rewrite Hn2. lia.
  - exact Hnonempty.
  - exact Hparse.
  - unfold_handler. rewrite Htruthy'. reflexivity.
Qed.

Lemma me_GET_reads_through_witness :
  let first :=
    @me_GET ecma_JSON sample_jwt sample_prisma (request_with "token-of-alice") tt fresh_world in
  let second :=
    @me_GET ecma_JSON sample_jwt broken_prisma (request_with "token-of-alice") tt
            (elapse 1800 (snd first)) in
  fst first
  = Returned (NextResponse_json
                (JObj [("user", sample_user_row); ("cached", JBool false)]) 200) /\
  fst second
  = Returned (NextResponse_json
                (JObj [("user", sample_user); ("cached", JBool true)]) 200).
Proof.
  apply (@me_GET_reads_through ecma_JSON sample_jwt sample_prisma broken_prisma
           (request_with "token-of-alice") "token-of-alice" alice
           sample_user_row sample_user (text_of sample_user) 1800 fresh_world).
  - split; [reflexivity | reflexivity].
  - reflexivity.
  - discriminate.
  - reflexivity.
  - reflexivity.
  - reflexivity.
  - reflexivity.
  - vm_compute. reflexivity.
  - vm_compute. discriminate.
  - vm_compute. reflexivity.
  - reflexivity.
  - unfold CACHE_TTL.USER. lia.
Defined.

(** ** The routes during an outage *)

Lemma guarded_outage {A} (x a : A) (K : M A) (handler : error -> M A) :
  outage_throws K ->
  (forall e w, exists w', handler e w = (Returned a, w') /\ db w' = db w /\
                          (outage w -> outage w')) ->
  forall w, outage w ->
    exists w',
      try_catch (await ok <- ensureConnection in if negb ok then ret x else K) handler w
      = (Returned a, w') /\ db w' = db w /\ outage w'.
Proof.
  intros HK Hh w Hout.
  destruct (ensureConnection_facts w) as (w1 & E1 & Hd1 & _ & _ & Ho1).
  unfold try_catch, bind. rewrite E1. cbn [negb].
  destruct (HK w1 (Ho1 Hout)) as (e & w2 & -> & Hd2 & Ho2).
  destruct (Hh e w2) as (w3 & -> & Hd3 & Ho3).
  exists w3. split; [reflexivity|]. split; [congruence | auto].
Qed.

Lemma outage_print_error label w : outage w -> outage (print_error label w).
Proof. intros Hout n Hn. apply Hout. exact Hn. Qed.

Lemma get_at_outage `{JSON} key w :
  outage w ->
  exists w', get_at key w = (Returned JNull, w') /\ db w' = db w /\ outage w'.
Proof.
  apply guarded_outage.
  - unfold redis_get; absorb.
  - intros e w0. eexists. split; [reflexivity|]. split; [reflexivity|].
    apply outage_print_error.
Qed.

Lemma set_at_outage `{JSON} key ttl v w :
  outage w ->
  exists w', set_at key ttl v w = (Returned tt, w') /\ db w' = db w /\ outage w'.
Proof.
  apply guarded_outage.
  - apply redis_setEx_outage.
  - intros e w0. eexists. split; [reflexivity|]. split; [reflexivity|].
    apply outage_print_error.
Qed.

Lemma del_at_outage label key w :
  outage w ->
  exists w', del_at label key w = (Returned tt, w') /\ db w' = db w /\ outage w'.
Proof.
  apply guarded_outage.
  - unfold redis_del; absorb.
  - intros e w0. eexists. split; [reflexivity|]. split; [reflexivity|].
    apply outage_print_error.
Qed.

Lemma invalidateTaskCache_outage taskId userId w :
  outage w ->
  exists w', invalidateTaskCache taskId userId w = (Returned tt, w') /\
             db w' = db w /\ outage w'.
Proof.
  apply guarded_outage.
  - unfold redis_del; absorb.
  - intros e w0. eexists. split; [reflexivity|]. split; [reflexivity|].
    apply outage_print_error.
Qed.

Lemma revokeAllUserSessions_outage userId w :
  outage w ->
  exists w', revokeAllUserSessions userId w = (Returned tt, w') /\
             db w' = db w /\ outage w'.
Proof.
  apply guarded_outage.
  - unfold redis_keys; absorb.
  - intros e w0. eexists. split; [reflexivity|]. split; [reflexivity|].
    apply outage_print_error.
Qed.

(** X20. During an outage the three read routes answer from the
    database, as if nothing were cached.  For a request with a verified
    token, whatever the store holds: GET /api/auth/me answers the row of
    the user, GET /api/tasks the list of the user, and GET /api/tasks/[id]
    the task when it belongs to the user, each marked [cached: false] with
    status 200; and no key changes. *)
Theorem reads_fall_back_to_database `{JSON} `{JWT} `{Prisma} :
  forall (request : Next.NextRequest) (token : string) (user : Auth.JWTPayload)
         (id : string) (w : World),
    outage w ->
    Next.authorization request = Some ("Bearer " +:+ token) ->
    token <> EmptyString ->
    jwt_verify token = Some user ->
    (forall row,
        prisma_user_findUnique
          (JObj [where_id (Auth.userId user);
                 ("select", JObj [("id", JBool true); ("email", JBool true);
                                  ("name", JBool true); ("role", JBool true);
                                  ("createdAt", JBool true)])]) = Returned row ->
        truthy row = true ->
        exists w',
          me_GET request tt w
          = (Returned (NextResponse_json
                         (JObj [("user", row); ("cached", JBool false)]) 200), w') /\
          db w' = db w) /\
    (forall rows,
        prisma_task_findMany
          (JObj [("where", JObj [("userId", JStr (Auth.userId user))]);
                 ("orderBy", JObj [("createdAt", JStr "desc")])]) = Returned rows ->
        exists w',
          tasks_GET request tt w
          = (Returned (NextResponse_json
                         (JObj [("tasks", rows); ("cached", JBool false)]) 200), w') /\
          db w' = db w) /\
    (forall task,
        prisma_task_findUnique (JObj [where_id id]) = Returned task ->
        prop task "userId" = JStr (Auth.userId user) ->
        exists w',
          task_GET request id w
          = (Returned (NextResponse_json
                         (JObj [("task", task); ("cached", JBool false)]) 200), w') /\
          db w' = db w).
Proof.
  intros request token user id w Hout Ha Hne Hv.
  unfold me_GET, tasks_GET, task_GET.
  rewrite !(requireAuth_verified _ request _ token user Ha Hne Hv).
  split; [|split].
  - intros row Hrow Htruthy. unfold_handler. to_shapes.
    destruct (get_at_outage (user_key (Auth.userId user)) w Hout) as (w1 & -> & Hd1 & Ho1).
    unfold_handler. cbn [truthy]. unfold_handler. rewrite Hrow. unfold_handler.
    rewrite Htruthy. cbn [negb]. to_shapes.
    destruct (set_at_outage (user_key (Auth.userId user)) CACHE_TTL.USER row w1 Ho1)
      as (w2 & -> & Hd2 & _).
    unfold_handler. exists w2. split; [reflexivity | congruence].
  - intros rows Hrows. unfold_handler. to_shapes.
    destruct (get_at_outage (tasks_key (Auth.userId user)) w Hout) as (w1 & -> & Hd1 & Ho1).
    unfold_handler. cbn [truthy]. unfold_handler. rewrite Hrows. unfold_handler.
    to_shapes.
    destruct (set_at_outage (tasks_key (Auth.userId user)) CACHE_TTL.TASKS rows w1 Ho1)
      as (w2 & -> & Hd2 & _).
    unfold_handler. exists w2. split; [reflexivity | congruence].
  - intros task Htask Howner. unfold_handler. to_shapes.
    destruct (get_at_outage (task_key id) w Hout) as (w1 & -> & Hd1 & Ho1).
    unfold_handler. cbn [truthy]. unfold_handler. rewrite Htask. unfold_handler.
    rewrite Howner. cbn [is_string]. rewrite String.eqb_refl. cbn [negb].
    assert (Htruthy : truthy task = true).
    { destruct task; try discriminate; reflexivity. }
    rewrite Htruthy. cbn [negb]. to_shapes.
    destruct (set_at_outage (task_key id) CACHE_TTL.TASK task w1 Ho1)
      as (w2 & -> & Hd2 & _).
    unfold_handler. exists w2. split; [reflexivity | congruence].
Qed.

Lemma reads_fall_back_to_database_witness :
  fst (getCachedUser (H := ecma_JSON) "u1" warm_world) = Returned sample_user /\
  exists w',
    @me_GET ecma_JSON sample_jwt sample_prisma (request_with "token-of-alice") tt stale_world
    = (Returned (NextResponse_json
                   (JObj [("user", sample_user_row); ("cached", JBool false)]) 200), w') /\
    db w' = db stale_world.
Proof.
  split; [vm_compute; reflexivity|].
  destruct (@reads_fall_back_to_database ecma_JSON sample_jwt sample_prisma
              (request_with "token-of-alice") "token-of-alice" alice "t7" stale_world)
    as (Hme & _ & _).
  - intros n _. reflexivity.
  - reflexivity.
  - discriminate.
  - reflexivity.
  - apply Hme; reflexivity.
Defined.

(** ** Writes invalidate what they make stale *)

Lemma truthy_prop_object body name :
  truthy (prop body name) = true -> exists props, body = JObj props.
Proof. destruct body; try discriminate. eauto. Qed.

(** X21. Creating a task drops the cached list of its owner.  In a
    reachable store, POST /api/tasks with a verified token and a body whose
    title is truthy answers 201 with the task the database created, and
    changes no key but [tasks:{userId}]; the next GET /api/tasks of that
    user is answered from the database, marked [cached: false], whatever
    list was cached before. *)
Theorem tasks_POST_invalidates_the_list `{JSON} `{JWT} :
  forall (database database' : Prisma)
         (request request' : Next.NextRequest) (token : string) (user : Auth.JWTPayload)
         (body task rows : jsval) (w : World),
    reachable w ->
    Next.authorization request = Some ("Bearer " +:+ token) ->
    Next.authorization request' = Some ("Bearer " +:+ token) ->
    token <> EmptyString ->
    jwt_verify token = Some user ->
    Next.json request = Returned body ->
    truthy (prop body "title") = true ->
    @prisma_task_create database
      (JObj [("data", JObj [("title", prop body "title");
                            ("description", or_else (prop body "description") JNull);
                            ("status", or_else (prop body "status") (JStr "OPEN"));
                            ("userId", JStr (Auth.userId user))])]) = Returned task ->
    @prisma_task_findMany database'
      (JObj [("where", JObj [("userId", JStr (Auth.userId user))]);
             ("orderBy", JObj [("createdAt", JStr "desc")])]) = Returned rows ->
    let post := @tasks_POST _ database request tt w in
    let get := @tasks_GET _ _ database' request' tt (snd post) in
    fst post = Returned (NextResponse_json (JObj [("task", task)]) 201) /\
    (forall key, key <> tasks_key (Auth.userId user) ->
                 db (snd post) !! key = db w !! key) /\
    fst get
    = Returned (NextResponse_json (JObj [("tasks", rows); ("cached", JBool false)]) 200).
Proof.
  intros database database' request request' token user body task rows w
         Hr Ha Ha' Hne Hv Hjson Htitle Hcreate Hrows.
  cbn zeta. unfold tasks_POST, tasks_GET.
  rewrite (requireAuth_verified _ request tt token user Ha Hne Hv).
  rewrite (requireAuth_verified _ request' tt token user Ha' Hne Hv).
  match goal with
  | |- fst (?m w) = Returned ?r /\ _ =>
      assert (E1 : exists w1, m w = (Returned r, w1) /\ ready w1 /\
                              db w1 = delete (tasks_key (Auth.userId user)) (db w))
  end.
  { unfold_handler. rewrite Hjson. unfold_handler.
    destruct (truthy_prop_object _ _ Htitle) as (props & ->).
    unfold_handler. rewrite Htitle. cbn [negb]. unfold_handler.
    rewrite Hcreate. unfold_handler. to_shapes.
    destruct (del_at_reachable "Cache invalidation error:"
                (tasks_key (Auth.userId user)) w Hr) as (w1 & -> & Hr1 & _ & Hd1).
    exists w1. split; [reflexivity|]. split; [exact Hr1 | exact Hd1]. }
  destruct E1 as (w1 & -> & Hr1 & Hd1). cbn [fst snd].
  split; [reflexivity|]. split.
  - intros key Hkey. rewrite Hd1. apply lookup_delete_ne. congruence.
  - unfold_handler. to_shapes.
    destruct (get_at_miss (tasks_key (Auth.userId user)) w1 (ready_reachable _ Hr1))
      as (w2 & -> & _).
    { apply live_None. rewrite Hd1. apply lookup_delete_eq. }
    unfold_handler. cbn [truthy]. unfold_handler. rewrite Hrows. unfold_handler.
    to_shapes.
    destruct (set_at_returns (tasks_key (Auth.userId user)) CACHE_TTL.TASKS rows w2)
      as (w3 & ->).
    reflexivity.
Qed.

Lemma tasks_POST_invalidates_the_list_witness :
  let body := JObj [("title", JStr "Write tests")] in
  let w := snd (setCachedTasks (H := ecma_JSON) "u1" (JArr []) fresh_world) in
  let post :=
    @tasks_POST sample_jwt sample_prisma (request_with_body "token-of-alice" body) tt w in
  let get :=
    @tasks_GET ecma_JSON sample_jwt sample_prisma (request_with "token-of-alice") tt (snd post) in
  fst (getCachedTasks (H := ecma_JSON) "u1" w) = Returned (JArr []) /\
  fst post = Returned (NextResponse_json (JObj [("task", sample_task)]) 201) /\
  (forall key, key <> tasks_key "u1" -> db (snd post) !! key = db w !! key) /\
  fst get
  = Returned (NextResponse_json
                (JObj [("tasks", JArr [sample_task]); ("cached", JBool false)]) 200).
Proof.
  split; [vm_compute; reflexivity|].
  apply (@tasks_POST_invalidates_the_list ecma_JSON sample_jwt sample_prisma sample_prisma
           (request_with_body "token-of-alice" (JObj [("title", JStr "Write tests")]))
           (request_with "token-of-alice") "token-of-alice" alice
           (JObj [("title", JStr "Write tests")]) sample_task (JArr [sample_task])
           (snd (setCachedTasks (H := ecma_JSON) "u1" (JArr []) fresh_world))).
  - vm_compute. split; [intros n _; reflexivity | discriminate].
  - reflexivity.
  - reflexivity.
  - discriminate.
  - reflexivity.
  - reflexivity.
  - reflexivity.
  - reflexivity.
  - reflexivity.
Defined.

Lemma is_string_false v s : v <> JStr s -> is_string v s = false.
Proof.
  destruct v; try reflexivity. cbn. intros Hne.
  destruct (String.eqb_spec s0 s); [subst; contradiction | reflexivity].
Qed.

Lemma is_string_refl s : is_string (JStr s) s = true.
Proof. apply String.eqb_refl. Qed.

Lemma invalidateTaskCache_deletes taskId userId w :
  reachable w ->
  exists w', invalidateTaskCache taskId userId w = (Returned tt, w') /\
             ready w' /\
             db w' = delete (tasks_key userId) (delete (task_key taskId) (db w)).
Proof.
  intros Hr. pose proof (settle_ready w Hr) as Hs.
  unfold invalidateTaskCache, try_catch, bind. rewrite (ensureConnection_reachable w Hr).
  cbn [negb]. unfold promise_all2, redis_del. rewrite (send_ready _ _ Hs).
  rewrite send_ready by auto with cache.
  eexists; split; [reflexivity|]. frame.
Qed.

(** X22. Only the owner changes a task, and a change drops both cache
    entries it makes stale.  In a reachable store, for a request with a
    verified token on a task the database holds: when the task belongs to
    another user, PATCH and DELETE /api/tasks/[id] answer 403 and leave
    the store as it was; when it belongs to the user and the write goes
    through, they answer 200 and delete the keys [task:{id}] and
    [tasks:{userId}], and no other key.  A body that is null makes PATCH
    answer 500 before anything is read or written. *)
Theorem task_writes_invalidate `{JWT} `{Prisma} :
  forall (request : Next.NextRequest) (token : string) (user : Auth.JWTPayload)
         (id : string) (task : jsval) (w : World),
    reachable w ->
    Next.authorization request = Some ("Bearer " +:+ token) ->
    token <> EmptyString ->
    jwt_verify token = Some user ->
    prisma_task_findUnique (JObj [where_id id]) = Returned task ->
    truthy task = true ->
    (prop task "userId" <> JStr (Auth.userId user) ->
     (body_ok request ->
      task_PATCH request id w
      = (Returned (NextResponse_json (error_body "Unauthorized") 403), w)) /\
     task_DELETE request id w
     = (Returned (NextResponse_json (error_body "Unauthorized") 403), w)) /\
    (prop task "userId" = JStr (Auth.userId user) ->
     (body_ok request ->
      (forall q, exists updated, prisma_task_update q = Returned updated) ->
      exists updated w',
        task_PATCH request id w
        = (Returned (NextResponse_json (JObj [("task", updated)]) 200), w') /\
        ready w' /\
        db w' = delete (tasks_key (Auth.userId user)) (delete (task_key id) (db w))) /\
     ((exists deleted, prisma_task_delete (JObj [where_id id]) = Returned deleted) ->
      exists w',
        task_DELETE request id w
        = (Returned (NextResponse_json
                       (JObj [("message", JStr "Task deleted successfully")]) 200), w') /\
        ready w' /\
        db w' = delete (tasks_key (Auth.userId user)) (delete (task_key id) (db w)))) /\
    (Next.json request = Returned JNull ->
     exists w',
       task_PATCH request id w
       = (Returned (NextResponse_json (error_body "Internal server error") 500), w') /\
       db w' = db w).
Proof.
  intros request token user id task w Hr Ha Hne Hv Htask Htruthy.
  unfold task_PATCH, task_DELETE.
  rewrite !(requireAuth_verified _ request id token user Ha Hne Hv).
  split; [|split].
  - intros Hother. apply is_string_false in Hother. split.
    + intros (body & Hjson & Hnull & Hundef).
      unfold_handler. rewrite Hjson. unfold_handler.
      destruct body; try contradiction; unfold_handler; rewrite Htask; unfold_handler;
        rewrite Htruthy, Hother; reflexivity.
    + unfold_handler. rewrite Htask. unfold_handler. rewrite Htruthy, Hother. reflexivity.
  - intros Hown. split.
    + intros (body & Hjson & Hnull & Hundef) Hup.
      destruct (invalidateTaskCache_deletes id (Auth.userId user) w Hr)
        as (w' & E & Hr' & Hd').
      unfold_handler. rewrite Hjson. unfold_handler.
      destruct body; try contradiction; unfold_handler; rewrite Htask; unfold_handler;
        rewrite Htruthy, Hown, is_string_refl; cbn [negb];
        match goal with
        | |- context [prisma_task_update ?q] => destruct (Hup q) as (updated & ->)
        end;
        unfold_handler; rewrite E; exists updated, w';
        (split; [reflexivity | split; [exact Hr' | exact Hd']]).
    + intros (deleted & Hq).
      destruct (invalidateTaskCache_deletes id (Auth.userId user) w Hr)
        as (w' & E & Hr' & Hd').
      exists w'. split; [|split; [exact Hr' | exact Hd']].
      unfold_handler. rewrite Htask. unfold_handler.
      rewrite Htruthy, Hown, is_string_refl. cbn [negb]. rewrite Hq. unfold_handler.
      rewrite E. reflexivity.
  - intros Hjson. unfold_handler. rewrite Hjson. unfold_handler.
    eexists. split; reflexivity.
Qed.

Lemma task_writes_invalidate_witness :
  exists updated w',
    @task_PATCH sample_jwt sample_prisma
      (request_with_body "token-of-alice" (JObj [("status", JStr "DONE")])) "t7" warm_world
    = (Returned (NextResponse_json (JObj [("task", updated)]) 200), w') /\
    db warm_world !! task_key "t7" <> None /\
    db warm_world !! tasks_key "u1" <> None /\
    db w' !! task_key "t7" = None /\
    db w' !! tasks_key "u1" = None.
Proof.
  destruct (@task_writes_invalidate sample_jwt sample_prisma
              (request_with_body "token-of-alice" (JObj [("status", JStr "DONE")]))
              "token-of-alice" alice "t7" sample_task warm_world)
    as (_ & Hown & _).
  - split; [intros n _; reflexivity | reflexivity].
  - reflexivity.
  - discriminate.
  - reflexivity.
  - reflexivity.
  - reflexivity.
  - destruct (Hown eq_refl) as (Hpatch & _).
    destruct Hpatch as (updated & w' & E & _ & Hd).
    + eexists. repeat split; [discriminate | discriminate].
    + intros q. eexists. reflexivity.
    + exists updated, w'. split; [exact E|].
      split; [vm_compute; discriminate|]. split; [vm_compute; discriminate|].
      rewrite Hd. split.
      * rewrite lookup_delete_ne by discriminate. apply lookup_delete_eq.
      * apply lookup_delete_eq.
Defined.

(** ** Administration of users *)

Lemma requireAdmin_verified `{JWT} {C} (handler : Handler C) request context token user :
  Next.authorization request = Some ("Bearer " +:+ token) ->
  token <> EmptyString ->
  jwt_verify token = Some user ->
  Auth.role user = "ADMIN" ->
  requireAdmin handler request context = handler request user context.
Proof.
  intros Ha Hne Hv Hrole. unfold requireAdmin.
  rewrite (requireAuth_verified _ request context token user Ha Hne Hv).
  rewrite Hrole. reflexivity.
Qed.

(** X23. Deleting a user cleans up after it.  In a reachable store, for
    an administrator: DELETE /api/admin/users/[id] on the administrator's
    own identifier answers 400 and leaves the store as it was; on another
    user that the database holds and deletes, it answers 200, after which
    the cache holds nothing for that user and, when the identifier has no
    glob special character, no session of that user is valid; keys other
    than [user:{id}] and those under [session:{id}:] are unchanged. *)
Theorem admin_user_DELETE_cleans_up `{JSON} `{JWT} `{Prisma} :
  forall (request : Next.NextRequest) (token : string) (admin : Auth.JWTPayload)
         (id : string) (existing : jsval) (w : World),
    reachable w ->
    Next.authorization request = Some ("Bearer " +:+ token) ->
    token <> EmptyString ->
    jwt_verify token = Some admin ->
    Auth.role admin = "ADMIN" ->
    (id = Auth.userId admin ->
     admin_user_DELETE request id w
     = (Returned (NextResponse_json (error_body "Cannot delete yourself") 400), w)) /\
    (id <> Auth.userId admin ->
     prisma_user_findUnique (JObj [where_id id]) = Returned existing ->
     truthy existing = true ->
     (exists deleted, prisma_user_delete (JObj [where_id id]) = Returned deleted) ->
     glob_literal id = true ->
     exists w',
       admin_user_DELETE request id w
       = (Returned (NextResponse_json
                      (JObj [("message", JStr "User deleted successfully")]) 200), w') /\
       fst (getCachedUser id w') = Returned JNull /\
       (forall tokenId, fst (validateSession id tokenId w') = Returned false) /\
       (forall key,
           key <> user_key id ->
           String.prefix ("session:" +:+ id +:+ ":") key = false ->
           db w' !! key = db w !! key)).
Proof.
  intros request token admin id existing w Hr Ha Hne Hv Hrole.
  unfold admin_user_DELETE.
  rewrite (requireAdmin_verified _ request id token admin Ha Hne Hv Hrole).
  split.
  - intros ->. unfold_handler. rewrite String.eqb_refl. reflexivity.
  - intros Hother Hfind Htruthy (deleted & Hdelete) Hglob.
    apply String.eqb_neq in Hother.
    unfold_handler. rewrite Hother, Hfind. unfold_handler.
    rewrite Htruthy. cbn [negb]. rewrite Hdelete. unfold_handler. to_shapes.
    destruct (del_at_reachable "Cache invalidation error:" (user_key id) w Hr)
      as (w1 & -> & Hr1 & Hn1 & Hd1).
    destruct (revokeAllUserSessions_reachable id w1 (ready_reachable _ Hr1))
      as (w2 & -> & Hr2 & Hn2 & Hd2).
    exists w2. split; [reflexivity|].
    assert (Hframe : forall key,
               String.prefix ("session:" +:+ id +:+ ":") key = false ->
               db w2 !! key = db w1 !! key).
    { intros key Hp. rewrite Hd2. apply lookup_foldr_delete_notin.
      rewrite elem_of_listed_sessions, (session_pattern id key Hglob), Hp.
      intros [[=] _]. }
    split; [|split].
    + destruct (get_at_miss (user_key id) w2 (ready_reachable _ Hr2)) as (w3 & -> & _);
        [|reflexivity].
      apply live_None.
      destruct (decide (user_key id ∈ listed_sessions id w1)) as [Hin|Hout].
      * rewrite Hd2. now apply lookup_foldr_delete_in.
      * rewrite Hd2, lookup_foldr_delete_notin by exact Hout.
        rewrite Hd1. apply lookup_delete_eq.
    + intros t.
      destruct (validateSession_reachable id t w2 (ready_reachable _ Hr2)) as (w3 & -> & _).
      cbn [fst]. f_equal. now apply (listed_sessions_cleared id w1 w2).
    + intros key Hkey Hp. rewrite (Hframe key Hp), Hd1.
      apply lookup_delete_ne. congruence.
Qed.

Lemma admin_user_DELETE_cleans_up_witness :
  fst (validateSession "u1" "s1" warm_world) = Returned true /\
  exists w',
    @admin_user_DELETE sample_jwt sample_prisma (request_with "token-of-root") "u1" warm_world
    = (Returned (NextResponse_json
                   (JObj [("message", JStr "User deleted successfully")]) 200), w') /\
    fst (getCachedUser (H := ecma_JSON) "u1" w') = Returned JNull /\
    (forall tokenId, fst (validateSession "u1" tokenId w') = Returned false).
Proof.
  split; [vm_compute; reflexivity|].
  destruct (@admin_user_DELETE_cleans_up ecma_JSON sample_jwt sample_prisma
              (request_with "token-of-root") "token-of-root" root "u1" sample_user_row
              warm_world)
    as (_ & Hdelete).
  - split; [intros n _; reflexivity | reflexivity].
  - reflexivity.
  - discriminate.
  - reflexivity.
  - reflexivity.
  - destruct Hdelete as (w' & E & Hc & Hs & _).
    + discriminate.
    + reflexivity.
    + reflexivity.
    + eexists. reflexivity.
    + reflexivity.
    + exists w'. split; [exact E|]. split; [exact Hc | exact Hs].
Defined.

(** X24. A change of role revokes the sessions of the user, and nothing
    else does.  In a reachable store, for an administrator and a body
    that leaves the email alone: PATCH /api/admin/users/[id] refuses with
    400, and without touching the store, to turn the administrator's own
    role into [USER]; otherwise, for a user the database holds, it answers
    200 and drops the cached user.  When the body has no role, or the role
    the user already has, every other key is as before, sessions included;
    when it has another role, and the identifier has no glob special
    character, no session of the user is valid afterwards. *)
Theorem admin_user_PATCH_revokes_on_role_change `{JWT} `{Prisma} :
  forall (request : Next.NextRequest) (token : string) (admin : Auth.JWTPayload)
         (id : string) (body existing : jsval) (w : World),
    reachable w ->
    Next.authorization request = Some ("Bearer " +:+ token) ->
    token <> EmptyString ->
    jwt_verify token = Some admin ->
    Auth.role admin = "ADMIN" ->
    Next.json request = Returned body ->
    body <> JNull -> body <> JUndefined ->
    truthy (prop body "email") = false ->
    (id = Auth.userId admin -> prop body "role" = JStr "USER" ->
     admin_user_PATCH request id w
     = (Returned (NextResponse_json (error_body "Cannot demote yourself from admin") 400), w))
    /\
    ((id = Auth.userId admin -> prop body "role" <> JStr "USER") ->
     prisma_user_findUnique (JObj [where_id id]) = Returned existing ->
     truthy existing = true ->
     (forall q, exists updated, prisma_user_update q = Returned updated) ->
     exists updated w',
       admin_user_PATCH request id w
       = (Returned (NextResponse_json
                      (JObj [("message", JStr "User updated successfully");
                             ("user", updated)]) 200), w') /\
       ready w' /\
       db w' !! user_key id = None /\
       (is_undefined (prop body "role")
        || strict_equal (prop body "role") (prop existing "role") = true ->
        db w' = delete (user_key id) (db w)) /\
       (is_undefined (prop body "role")
        || strict_equal (prop body "role") (prop existing "role") = false ->
        glob_literal id = true ->
        forall tokenId, fst (validateSession id tokenId w') = Returned false)).
Proof.
  intros request token admin id body existing w Hr Ha Hne Hv Hrole Hjson Hnull Hundef Hemail.
  unfold admin_user_PATCH.
  rewrite (requireAdmin_verified _ request id token admin Ha Hne Hv Hrole).
  assert (Hbody : destructurable body = ret tt)
    by (destruct body; try contradiction; reflexivity).
  split.
  - intros -> Hdemote. cbv beta iota zeta delta [try_catch bind request_json]. rewrite Hjson, Hbody.
    unfold_handler.
    rewrite String.eqb_refl, Hdemote, is_string_refl. reflexivity.
  - intros Hself Hfind Htruthy Hup.
    assert (Hguard : String.eqb id (Auth.userId admin) && is_string (prop body "role") "USER"
                     = false).
    { destruct (String.eqb_spec id (Auth.userId admin)) as [Heq|]; [|reflexivity].
      cbn [andb]. apply is_string_false, Hself, Heq. }
    cbv beta iota zeta delta [try_catch bind request_json]. rewrite Hjson, Hbody.
    unfold_handler.
    rewrite Hguard, Hfind. unfold_handler. rewrite Htruthy. cbn [negb].
    rewrite Hemail. cbn [andb].
    match goal with
    | |- context [prisma_user_update ?q] => destruct (Hup q) as (updated & ->)
    end.
    unfold_handler. to_shapes.
    destruct (del_at_reachable "Cache invalidation error:" (user_key id) w Hr)
      as (w1 & -> & Hr1 & Hn1 & Hd1).
    destruct (is_undefined (prop body "role")
              || strict_equal (prop body "role") (prop existing "role")) eqn:Hsame.
    + assert (Hno : negb (is_undefined (prop body "role"))
                    && negb (strict_equal (prop body "role") (prop existing "role")) = false)
        by (rewrite <- negb_orb, Hsame; reflexivity).
      rewrite Hno. unfold_handler.
      exists updated, w1. split; [reflexivity|]. split; [exact Hr1|].
      split; [rewrite Hd1; apply lookup_delete_eq|].
      split; [intros _; exact Hd1 | discriminate].
    + assert (Hyes : negb (is_undefined (prop body "role"))
                     && negb (strict_equal (prop body "role") (prop existing "role")) = true)
        by (rewrite <- negb_orb, Hsame; reflexivity).
      rewrite Hyes.
      destruct (revokeAllUserSessions_reachable id w1 (ready_reachable _ Hr1))
        as (w2 & -> & Hr2 & Hn2 & Hd2).
      exists updated, w2. split; [reflexivity|]. split; [exact Hr2|]. split; [|split].
      * destruct (decide (user_key id ∈ listed_sessions id w1)) as [Hin|Hout].
        -- rewrite Hd2. now apply lookup_foldr_delete_in.
        -- rewrite Hd2, lookup_foldr_delete_notin by exact Hout.
           rewrite Hd1. apply lookup_delete_eq.
      * discriminate.
      * intros _ Hglob t.
        destruct (validateSession_reachable id t w2 (ready_reachable _ Hr2))
          as (w3 & -> & _).
        cbn [fst]. f_equal. now apply (listed_sessions_cleared id w1 w2).
Qed.

Lemma admin_user_PATCH_revokes_on_role_change_witness :
  fst (validateSession "u1" "s1" warm_world) = Returned true /\
  exists updated w',
    @admin_user_PATCH sample_jwt sample_prisma
      (request_with_body "token-of-root" (JObj [("role", JStr "ADMIN")])) "u1" warm_world
    = (Returned (NextResponse_json
                   (JObj [("message", JStr "User updated successfully");
                          ("user", updated)]) 200), w') /\
    db w' !! user_key "u1" = None /\
    (forall tokenId, fst (validateSession "u1" tokenId w') = Returned false).
Proof.
  split; [vm_compute; reflexivity|].
  destruct (@admin_user_PATCH_revokes_on_role_change sample_jwt sample_prisma
              (request_with_body "token-of-root" (JObj [("role", JStr "ADMIN")]))
              "token-of-root" root "u1" (JObj [("role", JStr "ADMIN")]) sample_user_row
              warm_world)
    as (_ & Hpatch).
  - split; [intros n _; reflexivity | reflexivity].
  - reflexivity.
  - discriminate.
  - reflexivity.
  - reflexivity.
  - reflexivity.
  - discriminate.
  - discriminate.
  - reflexivity.
  - destruct Hpatch as (updated & w' & E & _ & Hc & _ & Hs).
    + discriminate.
    + reflexivity.
    + reflexivity.
    + intros q. eexists. reflexivity.
    + exists updated, w'. split; [exact E|]. split; [exact Hc|].
      apply Hs; reflexivity.
Defined.
